(** * Verification of the combinatorial core of gptools

    A shallow embedding of [gptools/utils.py] and [gptools/kernel/core.py],
    followed by the properties of the set-partition generator, the
    Bell-polynomial evaluator, row deduplication, the hyperparameter
    container, the kernel combinators, the chain-rule kernel and the
    numerically differentiated kernel. *)

From Stdlib Require Import String List Arith Lia ZArith Bool Permutation Finite Sorted.
Import ListNotations.

(** * Part I: the embedding *)

(** ** Python run-time conventions *)

(** The exceptions the modelled code raises. *)
Inductive exn : Type :=
| NotImplementedError
| ValueError
| IndexError
| TypeError
| GPArgumentError.

(** Outcome of a call: a value, a raised exception, or a loop that was
    still running when the iteration budget of the model ran out. *)
Inductive result (A : Type) : Type :=
| Ok (a : A)
| Raise (e : exn)
| OutOfFuel.

Arguments Ok {A} a.
Arguments Raise {A} e.
Arguments OutOfFuel {A}.

Definition bind {A B : Type} (r : result A) (f : A -> result B) : result B :=
  match r with
  | Ok a => f a
  | Raise e => Raise e
  | OutOfFuel => OutOfFuel
  end.

Notation "x <- c1 ;; c2" := (bind c1 (fun x => c2))
  (at level 61, c1 at next level, right associativity).

(** ** One-dimensional array operations (numpy) *)

(** [l[j] = v] for an index in range. *)
Definition set_item {A : Type} (j : nat) (v : A) (l : list A) : list A :=
  firstn j l ++ match skipn j l with
                | [] => []
                | _ :: tl => v :: tl
                end.

(** [l[lo:hi] = v] with a scalar [v]; slice limits are clipped to the
    array, an empty slice changes nothing. *)
Definition slice_fill {A : Type} (lo hi : nat) (v : A) (l : list A) : list A :=
  let hi := Nat.min hi (length l) in
  firstn lo l ++ repeat v (hi - lo) ++ skipn (Nat.max lo hi) l.

(** [l[-1]] as an option: [None] stands for the IndexError on an empty
    sequence. *)
Definition last_item {A : Type} (l : list A) : option A := hd_error (rev l).

(** [mask.nonzero()[0]]: the indices of the true entries, ascending;
    [i] is the index of the head of [mask]. *)
Fixpoint nonzero_from (i : nat) (mask : list bool) : list nat :=
  match mask with
  | [] => []
  | true :: mask' => i :: nonzero_from (S i) mask'
  | false :: mask' => nonzero_from (S i) mask'
  end.

Definition nonzero (mask : list bool) : list nat := nonzero_from 0 mask.

(** [a != b], elementwise on two integer arrays of one shape. *)
Definition neq_mask (a b : list nat) : list bool :=
  map (fun p => negb (fst p =? snd p)) (combine a b).

(** ** [utils.generate_set_partition_strings] (Knuth's Algorithm H)

    The arrays [a] and [b] hold block labels, which the algorithm only
    ever sets to 0 or increases by one and which stay below the length of
    the array, so they are natural numbers here. *)

(** What one pass through the body of [while True] does to the arrays
    [a] and [b] after the visit. *)
Inductive step_result : Type :=
| Break
| Next (a b : list nat)
| Fail (e : exn).

Definition algorithm_H_step (a b : list nat) : step_result :=
  let n := length a in
  if last a 0 =? last b 0 then
    (* Step 4: j = (a[:-1] != b[:-1]).nonzero()[0][-1] *)
    match last_item (nonzero (neq_mask (removelast a) (removelast b))) with
    | None => Fail IndexError
    | Some j =>
        (* Step 5 *)
        if j =? 0 then Break
        else
          let a1 := set_item j (nth j a 0 + 1) a in
          (* Step 6 *)
          let b1 := set_item (n - 1)
                      (nth j b 0 + Nat.b2n (nth j a1 0 =? nth j b 0)) b in
          let a2 := slice_fill (j + 1) n 0 a1 in
          let b2 := slice_fill (j + 1) (n - 1) (last b1 0) b1 in
          Next a2 b2
    end
  else
    (* Step 3 *)
    Next (set_item (n - 1) (last a 0 + 1) a) b.

(** The [while True] loop; [partitions] is the list built so far. *)
Fixpoint algorithm_H_loop (fuel : nat) (a b : list nat)
         (partitions : list (list nat)) : result (list (list nat)) :=
  match fuel with
  | 0 => OutOfFuel
  | S fuel' =>
      (* Step 2: visit *)
      let partitions := partitions ++ [a] in
      match algorithm_H_step a b with
      | Break => Ok partitions
      | Fail e => Raise e
      | Next a' b' => algorithm_H_loop fuel' a' b' partitions
      end
  end.

Definition generate_set_partition_strings (fuel n : nat)
  : result (list (list nat)) :=
  match n with
  | 0 => Ok []
  | 1 => Ok [[0]]
  | _ => algorithm_H_loop fuel (repeat 0 n) (repeat 1 n) []
  end.

(** *** Restricted growth strings and Bell numbers *)

(** A string continues a prefix that uses [m] block labels when each entry
    is at most the number of labels in use before it. *)
Fixpoint is_rgs_from (m : nat) (s : list nat) : Prop :=
  match s with
  | [] => True
  | x :: s' => x <= m /\ is_rgs_from (Nat.max m (x + 1)) s'
  end.

(** Restricted growth strings: [a[0] = 0] and
    [a[i] <= 1 + max (a[0..i-1])]. *)
Definition is_rgs (s : list nat) : Prop := is_rgs_from 0 s.

(** All continuations of length [k] of a prefix that uses [m] labels, in
    lexicographic order. *)
Fixpoint rgs_tails (k m : nat) : list (list nat) :=
  match k with
  | 0 => [[]]
  | S k' =>
      flat_map (fun c => map (cons c) (rgs_tails k' (Nat.max m (c + 1))))
               (seq 0 (S m))
  end.

(** All restricted growth strings of length [n], in lexicographic order. *)
Definition restricted_growth_strings (n : nat) : list (list nat) :=
  rgs_tails n 0.

(** Stirling numbers of the second kind. *)
Fixpoint stirling2 (n k : nat) : nat :=
  match n, k with
  | 0, 0 => 1
  | 0, S _ => 0
  | S _, 0 => 0
  | S n', S k' => S k' * stirling2 n' (S k') + stirling2 n' k'
  end.

Fixpoint sum_upto (n : nat) (f : nat -> nat) : nat :=
  match n with
  | 0 => 0
  | S n' => sum_upto n' f + f n'
  end.

(** The [n]-th Bell number, the number of partitions of an [n]-set. *)
Definition bell (n : nat) : nat := sum_upto (S n) (stirling2 n).

(** *** Auxiliary notions for the proof of Algorithm H *)

(** The array [b] that belongs to a string: the number of labels usable
    at each position. *)
Fixpoint bounds_from (m : nat) (s : list nat) : list nat :=
  match s with
  | [] => []
  | x :: s' => m :: bounds_from (Nat.max m (x + 1)) s'
  end.

Definition bound_after (m : nat) (p : list nat) : nat :=
  fold_left (fun m x => Nat.max m (x + 1)) p m.

(** The lexicographic successor among the continuations. *)
Fixpoint next_tail (m : nat) (s : list nat) : option (list nat) :=
  match s with
  | [] => None
  | x :: s' =>
      match next_tail (Nat.max m (x + 1)) s' with
      | Some t => Some (x :: t)
      | None => if x =? m then None
                else Some (S x :: repeat 0 (length s'))
      end
  end.

(** The continuations that come after [s] in [rgs_tails]. *)
Fixpoint tails_after (m : nat) (s : list nat) : list (list nat) :=
  match s with
  | [] => []
  | x :: s' =>
      map (cons x) (tails_after (Nat.max m (x + 1)) s')
      ++ flat_map (fun c => map (cons c)
                              (rgs_tails (length s') (Nat.max m (c + 1))))
                  (seq (S x) (m - x))
  end.

(** The number of continuations of length [k] of a prefix with [m] labels
    that end up with exactly [t] labels. *)
Fixpoint count_tails (k m t : nat) : nat :=
  match k with
  | 0 => if m =? t then 1 else 0
  | S k' => m * count_tails k' m t + count_tails k' (S m) t
  end.

(** ** [utils.unique_rows]

    A two-dimensional integer array is the list of its rows.  The rows are
    deduplicated through [scipy.unique(b, return_index=True)] on a view
    [b] that turns every row into one opaque item: the library flattens
    [b], sorts the items with a stable sort and returns, for each run of
    equal items, the index of its first member.  The order in which the
    library sorts opaque items is a parameter [cmp], with the convention
    of [__cmp__]: negative, zero or positive.  The branch that replaces
    the library call under numpy 1.6.2 follows further down. *)

Definition row := list Z.
Definition table := list row.

(** A comparison that orders the rows of width [n] totally and returns 0
    on equal rows only. *)
Class RowOrder (n : nat) : Type := {
  cmp : row -> row -> Z;
  cmp_eq : forall a b, length a = n -> length b = n ->
                       (cmp a b = 0%Z <-> a = b);
  cmp_trans : forall a b c, length a = n -> length b = n -> length c = n ->
                            (cmp a b < 0)%Z -> (cmp b c < 0)%Z -> (cmp a c < 0)%Z;
  cmp_total : forall a b, length a = n -> length b = n ->
                          a <> b -> (cmp a b < 0)%Z \/ (cmp b a < 0)%Z
}.

Definition row_lt {n : nat} {O : RowOrder n} (a b : row) : Prop :=
  (cmp a b < 0)%Z.

Definition row_le {n : nat} {O : RowOrder n} (a b : row) : Prop :=
  a = b \/ row_lt a b.

(** [arr[i]] for an index in range. *)
Definition row_at (arr : table) (i : nat) : row := nth i arr [].

(** A stable sort of indices by their rows: [i], which comes before every
    index of [l] in the input, goes in front of the first index whose row
    is not smaller. *)
Fixpoint insert_index (cmp : row -> row -> Z) (arr : table) (i : nat)
         (l : list nat) : list nat :=
  match l with
  | [] => [i]
  | j :: l' =>
      if (cmp (row_at arr j) (row_at arr i) <? 0)%Z
      then j :: insert_index cmp arr i l'
      else i :: j :: l'
  end.

Definition argsort (cmp : row -> row -> Z) (arr : table) : list nat :=
  fold_right (insert_index cmp arr) [] (seq 0 (length arr)).

(** The indices that start a run of equal rows; [prev] is the row before
    the head of [l], if there is one. *)
Fixpoint run_heads (cmp : row -> row -> Z) (arr : table) (prev : option row)
         (l : list nat) : list nat :=
  match l with
  | [] => []
  | i :: l' =>
      let r := row_at arr i in
      let differs := match prev with
                     | None => true
                     | Some p => negb (cmp p r =? 0)%Z
                     end in
      (if differs then [i] else []) ++ run_heads cmp arr (Some r) l'
  end.

(** [scipy.unique(b, return_index=True)[1]] *)
Definition unique_index (cmp : row -> row -> Z) (arr : table) : list nat :=
  run_heads cmp arr None (argsort cmp arr).

(** [arr[idx]] *)
Definition take_rows (arr : table) (idx : list nat) : table :=
  map (row_at arr) idx.

(** The view [b] of the table: one row per row of the table, holding
    one opaque item with the [itemsize * shape[1]] bytes of that row; the
    item is represented by the row it holds.  A table without columns has
    no bytes, and the rows of its view hold no item.  [void_row arr r] is
    the row of the view for the row [r] of the table [arr]. *)
Definition void_row (arr : table) (r : row) : list row :=
  match arr with
  | [] :: _ => []
  | _ => [r]
  end.

Definition void_view (arr : table) : list (list row) :=
  map (void_row arr) arr.

Definition unique_rows (cmp : row -> row -> Z) (arr : table) : table :=
  let b := void_view arr in
  let idx := unique_index cmp (concat b) in
  take_rows arr idx.

(** [_Row.__cmp__], the order of the workaround for numpy 1.6.2, on two
    arrays whose elements are compared by [eqb] ([==], and [!=] its
    negation) and [gtb] ([>]): 0 on rows with all elements equal,
    otherwise decided by the first element that differs.  The index of
    that element exists whenever the rows are not equal, so the default
    of [hd] is never used, nor is the default [d] of [nth]. *)
Definition Row_cmp_of {A : Type} (eqb gtb : A -> A -> bool) (d : A)
           (self other : list A) : Z :=
  if forallb (fun p => eqb (fst p) (snd p)) (combine self other) then 0%Z
  else
    let first_nonequal_idx :=
      hd 0 (nonzero (map (fun p => negb (eqb (fst p) (snd p)))
                         (combine self other))) in
    if gtb (nth first_nonequal_idx self d) (nth first_nonequal_idx other d)
    then 1%Z else (-1)%Z.

(** [_Row.__cmp__] on two rows of integers. *)
Definition Row_cmp (self other : row) : Z :=
  Row_cmp_of Z.eqb Z.gtb 0%Z self other.

(** The same order by recursion on the rows. *)
Fixpoint lex_cmp (a b : row) : Z :=
  match a, b with
  | x :: a', y :: b' =>
      if (x =? y)%Z then lex_cmp a' b'
      else if (x >? y)%Z then 1%Z else (-1)%Z
  | _, _ => 0%Z
  end.

(** ** Floating-point arithmetic

    The numeric code is modelled over an arbitrary carrier with the
    operations the source applies to [float64] values.  No algebraic law
    is assumed: every statement holds for whatever these operations
    compute, and fixes the order in which the source applies them. *)
Class Float (F : Type) : Type := {
  of_int : Z -> F;                  (* conversion of an integer *)
  fadd : F -> F -> F;               (* [+] *)
  fsub : F -> F -> F;               (* [-] *)
  fmul : F -> F -> F;               (* [*] *)
  fpow : F -> F -> F;               (* [**] *)
  fltb : F -> F -> bool;            (* [<] *)
  binom : nat -> nat -> F           (* [scipy.special.binom] on integers *)
}.

Definition fzero {F : Type} `{Float F} : F := of_int 0.
Definition fone {F : Type} `{Float F} : F := of_int 1.

(** Exact integer arithmetic, used to run the model on examples. *)
Fixpoint choose (n k : nat) : nat :=
  match n, k with
  | _, 0 => 1
  | 0, S _ => 0
  | S n', S k' => choose n' k' + choose n' (S k')
  end.

#[export] Instance Z_Float : Float Z := {|
  of_int := fun z => z;
  fadd := Z.add;
  fsub := Z.sub;
  fmul := Z.mul;
  fpow := fun x y => Z.pow x y;
  fltb := Z.ltb;
  binom := fun n k => Z.of_nat (choose n k)
|}.

(** Elementwise operations on arrays of shape [(p,)]. *)
Definition vzip {F : Type} (f : F -> F -> F) (a b : list F) : list F :=
  map (fun uv => f (fst uv) (snd uv)) (combine a b).

Definition vscale {F : Type} `{Float F} (a : list F) (c : F) : list F :=
  map (fun u => fmul u c) a.

(** A two-dimensional float array: its second dimension and its rows. *)
Record array2 (F : Type) : Type := {
  shape1 : nat;
  rows : list (list F)
}.

Arguments shape1 {F} a.
Arguments rows {F} a.

(** [x[:, m]] *)
Definition column {F : Type} `{Float F} (x : array2 F) (m : nat)
  : result (list F) :=
  if m <? shape1 x then Ok (map (fun r => nth m r fzero) (rows x))
  else Raise IndexError.

(** ** [utils.incomplete_bell_poly]

    The subscripts [n] and [k] are natural numbers.  The chain of tests of
    the source is sorted by [k]: [k == 0] selects between the first two
    branches, [k >= 1] between the third and the loop, whose recursive
    calls all have [k - 1]. *)
Fixpoint incomplete_bell_poly {F : Type} `{Float F} (n k : nat)
         (x : array2 F) {struct k} : result (list F) :=
  let p := length (rows x) in
  match k with
  | 0 =>
      if n =? 0 then Ok (repeat fone p)     (* n == 0 and k == 0 *)
      else Ok (repeat fzero p)              (* k == 0 and n >= 1 *)
  | S k' =>
      if n =? 0 then Ok (repeat fzero p)    (* n == 0 and k >= 1 *)
      else
        (* for m in xrange(0, n - k + 1): result += ... *)
        fold_left
          (fun acc m =>
             result <- acc ;;
             col <- column x m ;;
             rec <- incomplete_bell_poly (n - (m + 1)) k' x ;;
             Ok (vzip fadd result
                      (vzip fmul (vscale col (binom (n - 1) m)) rec)))
          (seq 0 (S n - k))
          (Ok (repeat fzero p))
  end.

(** The partial Bell polynomial [B_{n,k}(x_1, x_2, ...)] of one argument
    row, by the recurrence
    [B_{n,k} = sum_{m=1}^{n-k+1} x_m * C(n-1, m-1) * B_{n-m,k-1}] with
    [B_{0,0} = 1], [B_{n,0} = 0] and [B_{0,k} = 0]; the terms are added
    in the order of [m]. *)
Fixpoint bell_poly {F : Type} `{Float F} (k n : nat) (xs : list F)
         {struct k} : F :=
  match k with
  | 0 => if n =? 0 then fone else fzero
  | S k' =>
      if n =? 0 then fzero
      else
        fold_left
          (fun acc m =>
             fadd acc (fmul (fmul (nth (m - 1) xs fzero)
                                  (binom (n - 1) (m - 1)))
                            (bell_poly k' (n - m) xs)))
          (seq 1 (S n - k))
          fzero
  end.

(** [x[:, :c]] *)
Definition truncate_columns {F : Type} (c : nat) (x : array2 F) : array2 F :=
  {| shape1 := Nat.min c (shape1 x); rows := map (firstn c) (rows x) |}.

(** ** More array operations *)

(** [l[mask]] for a boolean array [mask] of the shape of [l]. *)
Fixpoint mask_select {A : Type} (l : list A) (mask : list bool) : list A :=
  match l, mask with
  | x :: l', true :: mask' => x :: mask_select l' mask'
  | _ :: l', false :: mask' => mask_select l' mask'
  | _, _ => []
  end.

(** [l[mask] = v] for an array [v] with one entry per true entry of
    [mask]: the entries of [v] go to the selected positions in order. *)
Fixpoint scatter {A : Type} (l : list A) (mask : list bool) (v : list A)
  : list A :=
  match l, mask with
  | x :: l', true :: mask' =>
      match v with
      | y :: v' => y :: scatter l' mask' v'
      | [] => x :: scatter l' mask' []
      end
  | x :: l', false :: mask' => x :: scatter l' mask' v
  | _, _ => l
  end.

Definition count_true (mask : list bool) : nat :=
  length (filter (fun b => b) mask).

(** [l[mask] = v] with the shape check of numpy: [v] has one entry per
    selected position, or a single entry that is broadcast. *)
Definition mask_assign {A : Type} (l : list A) (mask : list bool)
           (v : list A) : result (list A) :=
  if length v =? count_true mask then Ok (scatter l mask v)
  else match v with
       | [y] => Ok (scatter l mask (repeat y (count_true mask)))
       | _ => Raise ValueError
       end.

(** A binary operation on two one-dimensional arrays with the
    broadcasting of numpy: equal lengths, or one operand of length 1. *)
Definition broadcast2 {A : Type} (f : A -> A -> A) (a b : list A)
  : result (list A) :=
  if length a =? length b then Ok (map (fun uv => f (fst uv) (snd uv)) (combine a b))
  else match a, b with
       | [u], _ => Ok (map (f u) b)
       | _, [v] => Ok (map (fun u => f u v) a)
       | _, _ => Raise ValueError
       end.

(** An in-place operation [a op= b]: the result keeps the shape of [a]. *)
Definition inplace2 {A : Type} (f : A -> A -> A) (a b : list A)
  : result (list A) :=
  if length a =? length b then Ok (map (fun uv => f (fst uv) (snd uv)) (combine a b))
  else match b with
       | [v] => Ok (map (fun u => f u v) a)
       | _ => Raise ValueError
       end.

(** An elementwise operation on two two-dimensional arrays of one shape.
    Operands of different shapes, which numpy would try to broadcast, are
    outside the model and reported as a ValueError. *)
Definition same_shape {A B : Type} (a : list (list A)) (b : list (list B))
  : bool :=
  (length a =? length b)
  && forallb (fun rs => length (fst rs) =? length (snd rs)) (combine a b).

Definition matrix2 {A : Type} (f : A -> A -> A) (a b : list (list A))
  : result (list (list A)) :=
  if same_shape a b
  then Ok (map (fun rs => map (fun uv => f (fst uv) (snd uv))
                              (combine (fst rs) (snd rs)))
               (combine a b))
  else Raise ValueError.

(** [l[i]] for one index. *)
Definition get_item {A : Type} (l : list A) (i : nat) : result A :=
  match nth_error l i with
  | Some x => Ok x
  | None => Raise IndexError
  end.

(** [l[idxs]] and [l[idxs] = v] for an array of indices. *)
Fixpoint take_items {A : Type} (l : list A) (idxs : list nat)
  : result (list A) :=
  match idxs with
  | [] => Ok []
  | i :: idxs' =>
      x <- get_item l i ;;
      xs <- take_items l idxs' ;;
      Ok (x :: xs)
  end.

Definition put_item {A : Type} (l : list A) (i : nat) (v : A)
  : result (list A) :=
  if i <? length l then Ok (set_item i v l) else Raise IndexError.

Fixpoint put_each {A : Type} (l : list A) (idxs : list nat) (v : list A)
  : list A :=
  match idxs, v with
  | i :: idxs', y :: v' => put_each (set_item i y l) idxs' v'
  | _, _ => l
  end.

Definition put_items {A : Type} (l : list A) (idxs : list nat) (v : list A)
  : result (list A) :=
  if negb (forallb (fun i => i <? length l) idxs) then Raise IndexError
  else if length v =? length idxs then Ok (put_each l idxs v)
  else match v with
       | [y] => Ok (put_each l idxs (repeat y (length idxs)))
       | _ => Raise ValueError
       end.

(** [(a == b).all()] on two rows of one table. *)
Definition row_eqb (a b : row) : bool :=
  (length a =? length b)
  && forallb (fun p => (fst p =? snd p)%Z) (combine a b).

Definition zsum (l : list Z) : Z := fold_left Z.add l 0%Z.

(** ** [kernel.core.Kernel]: the hyperparameter container *)

(** What the kernel takes from its surroundings: the largest double, the
    default prior [utils.UniformPrior], which is built from a pair of
    bounds.  [C] is the type of callables (priors and potentials). *)
Class KernelEnv (F C : Type) : Type := {
  double_max : F;
  UniformPrior : F * F -> C
}.

(** The attributes of a [Kernel] instance. *)
Record hyper (F C : Type) : Type := {
  num_dim : Z;
  num_params : Z;
  enforce_bounds : bool;
  params : list F;
  fixed_params : list bool;
  param_bounds : list (F * F);
  hyperpriors : list C;
  is_log : list bool;
  potentials : list C
}.

Arguments num_dim {F C} h.
Arguments num_params {F C} h.
Arguments enforce_bounds {F C} h.
Arguments params {F C} h.
Arguments fixed_params {F C} h.
Arguments param_bounds {F C} h.
Arguments hyperpriors {F C} h.
Arguments is_log {F C} h.
Arguments potentials {F C} h.

(** The same attributes with [params] replaced: the array [params] is
    the only attribute the methods of the class write to. *)
Definition with_params {F C : Type} (h : hyper F C) (p : list F)
  : hyper F C :=
  {| num_dim := num_dim h;
     num_params := num_params h;
     enforce_bounds := enforce_bounds h;
     params := p;
     fixed_params := fixed_params h;
     param_bounds := param_bounds h;
     hyperpriors := hyperpriors h;
     is_log := is_log h;
     potentials := potentials h |}.

Definition check_length {A : Type} (l : list A) (num_params : Z)
  : result unit :=
  if (Z.of_nat (length l) =? num_params)%Z then Ok tt else Raise ValueError.

(** [Kernel.__init__]; an optional argument left at [None] is [None]. *)
Definition Kernel_init {F C : Type} `{Float F} `{KernelEnv F C}
           (num_dim num_params : Z)
           (initial_params : option (list F))
           (fixed_params : option (list bool))
           (param_bounds : option (list (F * F)))
           (enforce_bounds : bool)
           (hyperpriors : option (list C))
           (is_log : option (list bool))
           (potentials : list C) : result (hyper F C) :=
  if (num_params <? 0)%Z then Raise ValueError
  else if (num_dim <? 1)%Z then Raise ValueError
  else
    init <-
      match initial_params, fixed_params with
      | None, Some _ => Raise GPArgumentError
      | None, None =>
          Ok (repeat fone (Z.to_nat num_params),
              repeat false (Z.to_nat num_params))
      | Some ip, None =>
          _ <- check_length ip num_params ;;
          Ok (ip, repeat false (Z.to_nat num_params))
      | Some ip, Some fp =>
          _ <- check_length ip num_params ;;
          _ <- check_length fp num_params ;;
          Ok (ip, fp)
      end ;;
    bounds <-
      match param_bounds with
      | None => Ok (repeat (fzero, double_max) (Z.to_nat num_params))
      | Some pb => _ <- check_length pb num_params ;; Ok pb
      end ;;
    priors <-
      match hyperpriors with
      | None => Ok (map UniformPrior bounds)
      | Some hp => _ <- check_length hp num_params ;; Ok hp
      end ;;
    logs <-
      match is_log with
      | None => Ok (repeat true (Z.to_nat num_params))
      | Some il => _ <- check_length il num_params ;; Ok il
      end ;;
    Ok {| num_dim := num_dim;
          num_params := num_params;
          enforce_bounds := enforce_bounds;
          params := fst init;
          fixed_params := snd init;
          param_bounds := bounds;
          hyperpriors := priors;
          is_log := logs;
          potentials := potentials |}.

(** [self.params[~self.fixed_params]] *)
Definition free_params {F C : Type} (h : hyper F C) : list F :=
  mask_select (params h) (map negb (fixed_params h)).

(** [scipy.asarray(self.param_bounds, dtype=float)[~self.fixed_params]] *)
Definition free_param_bounds {F C : Type} (h : hyper F C) : list (F * F) :=
  mask_select (param_bounds h) (map negb (fixed_params h)).

(** One pass of the loop that enforces the bounds.  The bounds were
    converted to floats, so neither is [None]; the two tests are
    [new_param < bound[0]] and [new_param > bound[1]]. *)
Definition clamp {F : Type} `{Float F} (new_param : F) (bound : F * F) : F :=
  if fltb new_param (fst bound) then fst bound
  else if fltb (snd bound) new_param then snd bound
  else new_param.

(** The loop over [zip(range(len(new_params)), new_params,
    self.free_param_bounds)]; entries without a bound stay. *)
Fixpoint clamp_all {F : Type} `{Float F} (new_params : list F)
         (bounds : list (F * F)) : list F :=
  match new_params, bounds with
  | x :: new_params', b :: bounds' => clamp x b :: clamp_all new_params' bounds'
  | _, _ => new_params
  end.

(** [Kernel.set_hyperparams]: the attributes after the call and the
    exception it raised, if any. *)
Definition Kernel_set_hyperparams {F C : Type} `{Float F}
           (h : hyper F C) (new_params : list F)
  : hyper F C * option exn :=
  if length new_params =? length (free_params h) then
    let new_params :=
      if enforce_bounds h then clamp_all new_params (free_param_bounds h)
      else new_params in
    (with_params h (scatter (params h) (map negb (fixed_params h)) new_params),
     None)
  else (h, Some ValueError).

(** ** Python calls *)

(** The values passed to [__call__]. *)
Inductive pyobj (F : Type) : Type :=
| PyNone
| PyInt (z : Z)
| PyBool (b : bool)
| PyFloatArray (a : list (list F))
| PyIntArray (a : list (list Z)).

Arguments PyNone {F}.
Arguments PyInt {F} z.
Arguments PyBool {F} b.
Arguments PyFloatArray {F} a.
Arguments PyIntArray {F} a.

Definition is_None {F : Type} (v : pyobj F) : bool :=
  match v with
  | PyNone => true
  | _ => false
  end.

(** [kwargs]: a dictionary, as the list of its items. *)
Definition keywords (F : Type) : Type := list (string * pyobj F).

Fixpoint lookup {F : Type} (name : string) (kwargs : keywords F)
  : option (pyobj F) :=
  match kwargs with
  | [] => None
  | (key, v) :: kwargs' =>
      if String.eqb key name then Some v else lookup name kwargs'
  end.

(** The arguments of
    [__call__(self, Xi, Xj, ni, nj, hyper_deriv=None, symmetric=False)]
    after binding. *)
Record bound_args (F : Type) : Type := {
  arg_Xi : pyobj F;
  arg_Xj : pyobj F;
  arg_ni : pyobj F;
  arg_nj : pyobj F;
  arg_hyper_deriv : pyobj F;
  arg_symmetric : pyobj F
}.

Arguments arg_Xi {F} b.
Arguments arg_Xj {F} b.
Arguments arg_ni {F} b.
Arguments arg_nj {F} b.
Arguments arg_hyper_deriv {F} b.
Arguments arg_symmetric {F} b.

Definition parameter_names : list string :=
  ["Xi"; "Xj"; "ni"; "nj"; "hyper_deriv"; "symmetric"]%string.

Fixpoint index_of (name : string) (names : list string) : option nat :=
  match names with
  | [] => None
  | x :: names' =>
      if String.eqb x name then Some 0
      else option_map S (index_of name names')
  end.

(** One parameter: its positional value, else its keyword value, else
    its default, else a TypeError. *)
Definition parameter {F : Type} (i : nat) (name : string)
           (default : option (pyobj F))
           (args : list (pyobj F)) (kwargs : keywords F) : result (pyobj F) :=
  match nth_error args i with
  | Some v => Ok v
  | None =>
      match lookup name kwargs with
      | Some v => Ok v
      | None =>
          match default with
          | Some d => Ok d
          | None => Raise TypeError
          end
      end
  end.

(** Binding of [*args, **kwargs] to the signature: too many positional
    arguments, an unknown keyword, a keyword for a parameter that is
    already given by position and a missing parameter are TypeErrors. *)
Definition bind_signature {F : Type} (args : list (pyobj F))
           (kwargs : keywords F) : result (bound_args F) :=
  if negb (length args <=? 6) then Raise TypeError
  else if negb (forallb (fun kv =>
                           match index_of (fst kv) parameter_names with
                           | Some i => length args <=? i
                           | None => false
                           end) kwargs)
  then Raise TypeError
  else
    Xi <- parameter 0 "Xi" None args kwargs ;;
    Xj <- parameter 1 "Xj" None args kwargs ;;
    ni <- parameter 2 "ni" None args kwargs ;;
    nj <- parameter 3 "nj" None args kwargs ;;
    hyper_deriv <- parameter 4 "hyper_deriv" (Some PyNone) args kwargs ;;
    symmetric <- parameter 5 "symmetric" (Some (PyBool false)) args kwargs ;;
    Ok {| arg_Xi := Xi; arg_Xj := Xj; arg_ni := ni; arg_nj := nj;
          arg_hyper_deriv := hyper_deriv; arg_symmetric := symmetric |}.

(** Array arguments: a float array, or an integer array converted to
    floats; derivative orders are integer arrays.  Other values are
    outside the documented types and reported as a TypeError. *)
Definition as_float_array {F : Type} `{Float F} (v : pyobj F)
  : result (list (list F)) :=
  match v with
  | PyFloatArray a => Ok a
  | PyIntArray a => Ok (map (map of_int) a)
  | _ => Raise TypeError
  end.

Definition as_int_array {F : Type} (v : pyobj F) : result (list (list Z)) :=
  match v with
  | PyIntArray a => Ok a
  | _ => Raise TypeError
  end.

(** ** [utils.unique_rows]: the branch for numpy 1.6.2 *)

(** The branch of [unique_rows] taken when the library call raises a
    TypeError: the rows of the view [b] are wrapped in [_Row], sorted
    with [sorted], compared with their predecessors, and the indices at
    which the comparison is not 0 are kept.  A row of [b] holds the
    opaque item of a row of the table, so that [_Row.__cmp__] compares
    items, not integers: [item_eqb] and [item_gtb] are [==] and [>] of
    numpy on two such items. *)




(** ** [utils.generate_set_partitions] *)

(** [scipy.unique(string)]: the distinct labels, ascending. *)
Definition unique_labels (string : list nat) : list nat :=
  filter (fun v => existsb (Nat.eqb v) string) (seq 0 (S (list_max string))).

(** [set_[string == block_num]] for each label in turn. *)
Definition blocks_of {A : Type} (set_ : list A) (string : list nat)
  : list (list A) :=
  map (fun block_num => mask_select set_ (map (fun a => a =? block_num) string))
      (unique_labels string).

Definition generate_set_partitions {A : Type} (fuel : nat) (set_ : list A)
  : result (list (list (list A))) :=
  strings <- generate_set_partition_strings fuel (length set_) ;;
  Ok (map (blocks_of set_) strings).

(** All set partitions of the positions of [set_], each as the list of
    its blocks, a block as the entries of [set_] at its positions. *)
Definition set_partitions {A : Type} (set_ : list A) : list (list (list A)) :=
  map (blocks_of set_) (restricted_growth_strings (length set_)).

(** ** [kernel.core.ChainRuleKernel] *)

(** The methods a concrete chain-rule kernel supplies.  They read the
    attributes of the instance and work on [M] points at once. *)
Record chain_rule_methods (F C : Type) : Type := {
  (* [_compute_k(tau)] *)
  _compute_k : hyper F C -> list (list F) -> list F;
  (* [_compute_y(tau, return_r2l2=True)] *)
  _compute_y : hyper F C -> list (list F) -> list F * list F;
  (* [_compute_dk_dy(y, n)] *)
  _compute_dk_dy : hyper F C -> list F -> nat -> list F;
  (* [_compute_dy_dtau(tau, b, r2l2)] *)
  _compute_dy_dtau : hyper F C -> list (list F) -> list nat -> list F -> list F
}.

Arguments _compute_k {F C} c h tau.
Arguments _compute_y {F C} c h tau.
Arguments _compute_dk_dy {F C} c h y n.
Arguments _compute_dy_dtau {F C} c h tau b r2l2.

(** [_compute_dk_dtau_on_partition] *)
Definition _compute_dk_dtau_on_partition {F C : Type} `{Float F}
           (self : hyper F C) (m : chain_rule_methods F C)
           (tau : list (list F)) (p : list (list nat)) : result (list F) :=
  let (y, r2l2) := _compute_y m self tau in
  fold_left
    (fun acc b =>
       dk_dtau <- acc ;;
       inplace2 fmul dk_dtau (_compute_dy_dtau m self tau b r2l2))
    p
    (Ok (_compute_dk_dy m self y (length p))).

(** The derivative pattern: the index of each dimension, repeated as
    often as its derivative order says. *)
Fixpoint deriv_pattern_from (idx : nat) (n : list Z) : list nat :=
  match n with
  | [] => []
  | order :: n' => repeat idx (Z.to_nat order) ++ deriv_pattern_from (S idx) n'
  end.

Definition deriv_pattern (n : list Z) : list nat := deriv_pattern_from 0 n.

(** [_compute_dk_dtau] *)
Definition _compute_dk_dtau {F C : Type} `{Float F} (fuel : nat)
           (self : hyper F C) (m : chain_rule_methods F C)
           (tau : list (list F)) (n : list Z) : result (list F) :=
  let deriv_pattern := deriv_pattern n in
  if length deriv_pattern =? 0 then Ok (_compute_k m self tau)
  else
    deriv_partitions <- generate_set_partitions fuel deriv_pattern ;;
    fold_left
      (fun acc partition =>
         dk_dtau <- acc ;;
         term <- _compute_dk_dtau_on_partition self m tau partition ;;
         inplace2 fadd dk_dtau term)
      deriv_partitions
      (Ok (repeat fzero (length tau))).

(** The body of [ChainRuleKernel.__call__] after the test of
    [hyper_deriv]; [cmp] is the order in which [unique_rows] sorts. *)
Definition ChainRuleKernel_evaluate {F C : Type} `{Float F}
           (cmp : row -> row -> Z) (fuel : nat)
           (self : hyper F C) (m : chain_rule_methods F C)
           (Xi Xj : list (list F)) (ni nj : list (list Z))
  : result (list F) :=
  tau <- matrix2 fsub Xi Xj ;;
  let n_tot_j := map zsum nj in
  n_combined <- matrix2 Z.add ni nj ;;
  let n_combined_unique := unique_rows cmp n_combined in
  k <- fold_left
         (fun acc n_combined_state =>
            k <- acc ;;
            let idxs := map (fun r => row_eqb r n_combined_state) n_combined in
            dk <- _compute_dk_dtau fuel self m (mask_select tau idxs)
                                  n_combined_state ;;
            mask_assign k idxs dk)
         n_combined_unique
         (Ok (repeat fzero (length Xi))) ;;
  let j_chain_factors :=
    map (fun t => fpow (of_int (-1)) (of_int t)) n_tot_j in
  p0 <- get_item (params self) 0 ;;
  scaled <- broadcast2 fmul [fpow p0 (of_int 2)] j_chain_factors ;;
  broadcast2 fmul scaled k.

(** [ChainRuleKernel.__call__] *)
Definition ChainRuleKernel_call {F C : Type} `{Float F}
           (cmp : row -> row -> Z) (fuel : nat)
           (self : hyper F C) (m : chain_rule_methods F C)
           (args : list (pyobj F)) (kwargs : keywords F) : result (list F) :=
  b <- bind_signature args kwargs ;;
  if negb (is_None (arg_hyper_deriv b)) then Raise NotImplementedError
  else
    Xi <- as_float_array (arg_Xi b) ;;
    Xj <- as_float_array (arg_Xj b) ;;
    ni <- as_int_array (arg_ni b) ;;
    nj <- as_int_array (arg_nj b) ;;
    ChainRuleKernel_evaluate cmp fuel self m Xi Xj ni nj.

(** ** [kernel.core.ArbitraryKernel] *)

(** What the kernel takes from [mpmath]: [mp_diff f x n] is
    [mpmath.diff(f, x, n=n, singular=True)], the partial derivative of
    orders [n] of a function [f] of as many arguments as [x] has entries,
    at the point [x]; [mp_chop] is [mpmath.chop]. *)
Class Mpmath (F : Type) : Type := {
  mp_diff : (list F -> F) -> list F -> row -> F;
  mp_chop : F -> F
}.

#[export] Instance Z_Mpmath : Mpmath Z := {|
  mp_diff := fun f x n => (f x * zsum n)%Z;
  mp_chop := fun v => v
|}.

(** What an instance holds besides the attributes of [Kernel]:
    [num_proc] and the covariance function, as it acts on two arrays of
    points ([cov_func]) and as it acts on two points ([cov_func_at]; in
    one dimension the two points are numbers, here points with one
    coordinate).  The last argument holds the hyperparameters. *)
Record arbitrary_methods (F : Type) : Type := {
  num_proc : Z;
  cov_func : list (list F) -> list (list F) -> list F -> list F;
  cov_func_at : list F -> list F -> list F -> F
}.

Arguments num_proc {F} a.
Arguments cov_func {F} a Xi Xj params.
Arguments cov_func_at {F} a xi xj params.

(** [_mask_cov_func(self, *args)]; the differentiation routine calls it
    with as many arguments as the point has coordinates. *)
Definition _mask_cov_func {F C : Type} `{Float F} (self : hyper F C)
           (a : arbitrary_methods F) (args : list F) : F :=
  if (num_dim self =? 1)%Z
  then cov_func_at a [nth 0 args fzero] [nth 1 args fzero] (params self)
  else cov_func_at a (firstn (Z.to_nat (num_dim self)) args)
                   (skipn (Z.to_nat (num_dim self)) args)
                   (params self).

(** [scipy.concatenate((a, b), axis=1)] *)
Definition concatenate_columns {A : Type} (a b : list (list A))
  : result (list (list A)) :=
  if length a =? length b
  then Ok (map (fun rs => fst rs ++ snd rs) (combine a b))
  else Raise ValueError.

(** [_ArbitraryKernelEval(self, n_cat_state).__call__] *)
Definition _ArbitraryKernelEval {F C : Type} `{Float F} `{Mpmath F}
           (obj : hyper F C) (a : arbitrary_methods F) (n_cat_state : row)
           (X_cat_row : list F) : F :=
  mp_chop (mp_diff (_mask_cov_func obj a) X_cat_row n_cat_state).

(** The serial branch: [for idx in idxs: k[idx] = diff(X_cat[idx, :])]
    for a function [diff] of the point, from the state [acc] of [k]. *)
Definition serial_loop {F : Type} (X_cat : list (list F)) (diff : list F -> F)
           (idxs : list nat) (acc : result (list F)) : result (list F) :=
  fold_left
    (fun acc idx =>
       k <- acc ;;
       X_cat_row <- get_item X_cat idx ;;
       put_item k idx (diff X_cat_row))
    idxs acc.

(** The body of [ArbitraryKernel.__call__] after the test of
    [hyper_deriv].  [pool_map] is [multiprocessing.Pool.map]. *)
Definition ArbitraryKernel_evaluate {F C : Type} `{Float F} `{Mpmath F}
           (cmp : row -> row -> Z)
           (pool_map : (list F -> F) -> list (list F) -> list F)
           (self : hyper F C) (a : arbitrary_methods F)
           (Xi Xj : list (list F)) (ni nj : list (list Z))
  : result (list F) :=
  n_cat <- concatenate_columns ni nj ;;
  X_cat <- concatenate_columns Xi Xj ;;
  let n_cat_unique := unique_rows cmp n_cat in
  fold_left
    (fun acc n_cat_state =>
       k <- acc ;;
       let idxs := nonzero (map (fun r => row_eqb r n_cat_state) n_cat) in
       if forallb (fun z => (z =? 0)%Z) n_cat_state then
         Xi_sel <- take_items Xi idxs ;;
         Xj_sel <- take_items Xj idxs ;;
         put_items k idxs (cov_func a Xi_sel Xj_sel (params self))
       else if (0 <? num_proc a)%Z && (1 <? length idxs) then
         X_sel <- take_items X_cat idxs ;;
         put_items k idxs
                   (pool_map (_ArbitraryKernelEval self a n_cat_state) X_sel)
       else
         serial_loop X_cat
                     (fun X_cat_row =>
                        mp_chop (mp_diff (_mask_cov_func self a) X_cat_row
                                         n_cat_state))
                     idxs (Ok k))
    n_cat_unique
    (Ok (repeat fzero (length Xi))).

(** [ArbitraryKernel.__call__] *)
Definition ArbitraryKernel_call {F C : Type} `{Float F} `{Mpmath F}
           (cmp : row -> row -> Z)
           (pool_map : (list F -> F) -> list (list F) -> list F)
           (self : hyper F C) (a : arbitrary_methods F)
           (args : list (pyobj F)) (kwargs : keywords F) : result (list F) :=
  b <- bind_signature args kwargs ;;
  if negb (is_None (arg_hyper_deriv b)) then Raise NotImplementedError
  else
    Xi <- as_float_array (arg_Xi b) ;;
    Xj <- as_float_array (arg_Xj b) ;;
    ni <- as_int_array (arg_ni b) ;;
    nj <- as_int_array (arg_nj b) ;;
    ArbitraryKernel_evaluate cmp pool_map self a Xi Xj ni nj.

(** ** Kernels *)

Inductive binary_op : Type :=
| Sum
| Product.

(** The kernels: instances of [Kernel] itself, of a concrete subclass
    with a [__call__] of its own, of a subclass of [ChainRuleKernel], of
    [ArbitraryKernel], and the two combinators. *)
Inductive kernel (F C : Type) : Type :=
| AbstractKernel (h : hyper F C)
| ConcreteKernel (h : hyper F C)
    (call : hyper F C -> list (pyobj F) -> keywords F -> result (list F))
| ChainRuleKernel (h : hyper F C) (m : chain_rule_methods F C)
| ArbitraryKernel (h : hyper F C) (a : arbitrary_methods F)
| BinaryKernel (op : binary_op) (h : hyper F C) (k1 k2 : kernel F C).

Arguments AbstractKernel {F C} h.
Arguments ConcreteKernel {F C} h call.
Arguments ChainRuleKernel {F C} h m.
Arguments ArbitraryKernel {F C} h a.
Arguments BinaryKernel {F C} op h k1 k2.

(** The attributes of a kernel. *)
Definition attributes {F C : Type} (k : kernel F C) : hyper F C :=
  match k with
  | AbstractKernel h => h
  | ConcreteKernel h _ => h
  | ChainRuleKernel h _ => h
  | ArbitraryKernel h _ => h
  | BinaryKernel _ h _ _ => h
  end.

Definition with_attributes {F C : Type} (k : kernel F C) (h : hyper F C)
  : kernel F C :=
  match k with
  | AbstractKernel _ => AbstractKernel h
  | ConcreteKernel _ call => ConcreteKernel h call
  | ChainRuleKernel _ m => ChainRuleKernel h m
  | ArbitraryKernel _ a => ArbitraryKernel h a
  | BinaryKernel op _ k1 k2 => BinaryKernel op h k1 k2
  end.

(** [BinaryKernel.__init__]; both operands are kernels by their type. *)
Definition BinaryKernel_init {F C : Type} `{Float F} `{KernelEnv F C}
           (op : binary_op) (k1 k2 : kernel F C) : result (kernel F C) :=
  let h1 := attributes k1 in
  let h2 := attributes k2 in
  if negb (num_dim h1 =? num_dim h2)%Z then Raise ValueError
  else
    h <- Kernel_init (num_dim h1) (num_params h1 + num_params h2)
                     (Some (params h1 ++ params h2))
                     (Some (fixed_params h1 ++ fixed_params h2))
                     (Some (param_bounds h1 ++ param_bounds h2))
                     false
                     (Some (hyperpriors h1 ++ hyperpriors h2))
                     (Some (is_log h1 ++ is_log h2))
                     [] ;;
    Ok (BinaryKernel op h k1 k2).

(** [set_hyperparams], dispatched on the class: [Kernel.set_hyperparams]
    for the leaves, [BinaryKernel.set_hyperparams] for the combinators.
    The result is the kernel after the call, with its children, and the
    exception the call raised, if any. *)
Fixpoint set_hyperparams {F C : Type} `{Float F}
         (k : kernel F C) (new_params : list F) : kernel F C * option exn :=
  match k with
  | BinaryKernel op h k1 k2 =>
      if length new_params =? length (free_params h) then
        let h' := with_params h (scatter (params h)
                                         (map negb (fixed_params h))
                                         new_params) in
        let num_fixed_k1 :=
          count_true (map negb (fixed_params (attributes k1))) in
        let (k1', e1) := set_hyperparams k1 (firstn num_fixed_k1 new_params) in
        match e1 with
        | Some e => (BinaryKernel op h' k1' k2, Some e)
        | None =>
            let (k2', e2) :=
              set_hyperparams k2 (skipn num_fixed_k1 new_params) in
            (BinaryKernel op h' k1' k2', e2)
        end
      else (k, Some ValueError)
  | _ =>
      let (h', e) := Kernel_set_hyperparams (attributes k) new_params in
      (with_attributes k h', e)
  end.

(** [__call__], dispatched on the class. *)
Fixpoint kernel_call {F C : Type} `{Float F} `{Mpmath F}
         (cmp : row -> row -> Z)
         (pool_map : (list F -> F) -> list (list F) -> list F)
         (fuel : nat) (k : kernel F C)
         (args : list (pyobj F)) (kwargs : keywords F) : result (list F) :=
  match k with
  | AbstractKernel _ =>
      (* Kernel.__call__ *)
      _ <- bind_signature args kwargs ;;
      Raise NotImplementedError
  | ConcreteKernel h call => call h args kwargs
  | ChainRuleKernel h m => ChainRuleKernel_call cmp fuel h m args kwargs
  | ArbitraryKernel h a => ArbitraryKernel_call cmp pool_map h a args kwargs
  | BinaryKernel Sum _ k1 k2 =>
      (* SumKernel.__call__ *)
      let rejected :=
        match lookup "hyper_deriv" kwargs with
        | Some v => negb (is_None v)
        | None => false
        end in
      if rejected then Raise NotImplementedError
      else
        r1 <- kernel_call cmp pool_map fuel k1 args kwargs ;;
        r2 <- kernel_call cmp pool_map fuel k2 args kwargs ;;
        broadcast2 fadd r1 r2
  | BinaryKernel Product _ k1 k2 =>
      (* ProductKernel.__call__ *)
      r1 <- kernel_call cmp pool_map fuel k1 args kwargs ;;
      r2 <- kernel_call cmp pool_map fuel k2 args kwargs ;;
      broadcast2 fmul r1 r2
  end.

(** ** Notions used to state the properties of the hyperparameters *)

(** The values [Kernel.set_hyperparams] writes: the incoming ones,
    clamped when the bounds are enforced. *)
Definition written_params {F C : Type} `{Float F} (h : hyper F C)
           (new_params : list F) : list F :=
  if enforce_bounds h then clamp_all new_params (free_param_bounds h)
  else new_params.

(** The per-parameter attributes have one length. *)
Definition consistent {F C : Type} (h : hyper F C) : Prop :=
  length (params h) = length (fixed_params h)
  /\ length (param_bounds h) = length (fixed_params h).

(** The attributes of a combinator are the concatenations of those of
    its children, [k1] first. *)
Definition concatenation_invariant {F C : Type} (k : kernel F C) : Prop :=
  match k with
  | BinaryKernel _ h k1 k2 =>
      let h1 := attributes k1 in
      let h2 := attributes k2 in
      params h = params h1 ++ params h2
      /\ fixed_params h = fixed_params h1 ++ fixed_params h2
      /\ param_bounds h = param_bounds h1 ++ param_bounds h2
      /\ hyperpriors h = hyperpriors h1 ++ hyperpriors h2
      /\ is_log h = is_log h1 ++ is_log h2
  | _ => True
  end.

(** The invariant throughout a kernel. *)
Fixpoint well_formed {F C : Type} (k : kernel F C) : Prop :=
  consistent (attributes k)
  /\ match k with
     | BinaryKernel _ _ k1 k2 =>
         concatenation_invariant k /\ well_formed k1 /\ well_formed k2
     | _ => True
     end.

(** No kernel in [k] enforces its bounds. *)
Fixpoint never_enforces {F C : Type} (k : kernel F C) : Prop :=
  match k with
  | BinaryKernel _ _ k1 k2 => never_enforces k1 /\ never_enforces k2
  | _ => enforce_bounds (attributes k) = false
  end.

(** The free parameters of a combinator can be split between its
    children: the masks are concatenated and every kernel in [k] has as
    many parameters as mask entries. *)
Fixpoint splittable {F C : Type} (k : kernel F C) : Prop :=
  length (params (attributes k)) = length (fixed_params (attributes k))
  /\ match k with
     | BinaryKernel _ h k1 k2 =>
         fixed_params h =
         fixed_params (attributes k1) ++ fixed_params (attributes k2)
         /\ splittable k1 /\ splittable k2
     | _ => True
     end.

(** Exact integer parameters with unit callables, to run the model. *)
#[export] Instance Z_KernelEnv : KernelEnv Z unit := {|
  double_max := (2 ^ 1024)%Z;
  UniformPrior := fun _ => tt
|}.

(** Two kernels with one free parameter each, bounded by 0 and 10; the
    first enforces its bounds. *)
Definition one_parameter_kernel (enforce : bool) : kernel Z unit :=
  AbstractKernel {| num_dim := 1;
                    num_params := 1;
                    enforce_bounds := enforce;
                    params := [1%Z];
                    fixed_params := [false];
                    param_bounds := [(0%Z, 10%Z)];
                    hyperpriors := [tt];
                    is_log := [true];
                    potentials := [] |}.

(** ** Notions used to state the properties of the chain-rule kernel *)

(** The methods of a chain-rule kernel at a single point: the base
    covariance at [tau], the intermediate [y] and [r2l2] at [tau], the
    [n]-th derivative of the base covariance with respect to [y], and the
    derivative of [y] with respect to the dimensions of a block. *)
Record point_methods (F : Type) : Type := {
  k_at : list F -> F;
  y_at : list F -> F;
  r2l2_at : list F -> F;
  dk_dy_at : F -> nat -> F;
  dy_dtau_at : list F -> list nat -> F -> F
}.

Arguments k_at {F} p tau.
Arguments y_at {F} p tau.
Arguments r2l2_at {F} p tau.
Arguments dk_dy_at {F} p y n.
Arguments dy_dtau_at {F} p tau b r2l2.

(** The methods of the kernel work on every point separately. *)
Definition pointwise {F C : Type} (self : hyper F C)
           (m : chain_rule_methods F C) (pm : point_methods F) : Prop :=
  (forall tau, _compute_k m self tau = map (k_at pm) tau)
  /\ (forall tau, _compute_y m self tau =
                  (map (y_at pm) tau, map (r2l2_at pm) tau))
  /\ (forall y n, _compute_dk_dy m self y n =
                  map (fun v => dk_dy_at pm v n) y)
  /\ (forall tau b r2l2,
         length r2l2 = length tau ->
         _compute_dy_dtau m self tau b r2l2 =
         map (fun tr => dy_dtau_at pm (fst tr) b (snd tr)) (combine tau r2l2)).

(** The term of one partition [p] in Faa di Bruno's formula at one
    point: the [|p|]-th derivative of the base covariance with respect to
    [y], times the derivative of [y] for each block in turn. *)
Definition partition_term {F : Type} `{Float F} (pm : point_methods F)
           (tau : list F) (p : list (list nat)) : F :=
  fold_left (fun acc b => fmul acc (dy_dtau_at pm tau b (r2l2_at pm tau)))
            p
            (dk_dy_at pm (y_at pm tau) (length p)).

(** The sum of the terms of all set partitions of the derivative
    pattern of [n], added in the order of the partitions. *)
Definition faa_di_bruno {F : Type} `{Float F} (pm : point_methods F)
           (tau : list F) (n : list Z) : F :=
  fold_left (fun acc p => fadd acc (partition_term pm tau p))
            (set_partitions (deriv_pattern n))
            fzero.

(** The derivative of the base covariance at one point. *)
Definition dk_dtau_at {F : Type} `{Float F} (pm : point_methods F)
           (tau : list F) (n : list Z) : F :=
  if length (deriv_pattern n) =? 0 then k_at pm tau
  else faa_di_bruno pm tau n.

(** [Xi - Xj] and [ni + nj] for one pair of points. *)
Definition row_sub {F : Type} `{Float F} (xi xj : list F) : list F :=
  map (fun uv => fsub (fst uv) (snd uv)) (combine xi xj).

Definition row_add (ni nj : row) : row :=
  map (fun uv => (fst uv + snd uv)%Z) (combine ni nj).

(** The methods that apply given point methods to every point. *)
Definition methods_of_points {F C : Type} (pm : point_methods F)
  : chain_rule_methods F C :=
  {| _compute_k := fun _ tau => map (k_at pm) tau;
     _compute_y := fun _ tau => (map (y_at pm) tau, map (r2l2_at pm) tau);
     _compute_dk_dy := fun _ y n => map (fun v => dk_dy_at pm v n) y;
     _compute_dy_dtau := fun _ tau b r2l2 =>
       map (fun tr => dy_dtau_at pm (fst tr) b (snd tr)) (combine tau r2l2) |}.

(** A kernel to run the model on: the base covariance [f(y) = y^3] of
    [y = sum_d tau_d^2], in exact integer arithmetic. *)
Definition cubic_points : point_methods Z :=
  {| k_at := fun tau => (zsum (map (fun t => (t * t)%Z) tau) ^ 3)%Z;
     y_at := fun tau => zsum (map (fun t => (t * t)%Z) tau);
     r2l2_at := fun tau => zsum (map (fun t => (t * t)%Z) tau);
     dk_dy_at := fun y n =>
       match n with
       | 0 => (y ^ 3)%Z
       | 1 => (3 * y ^ 2)%Z
       | 2 => (6 * y)%Z
       | 3 => 6%Z
       | _ => 0%Z
       end;
     dy_dtau_at := fun tau b _ =>
       match b with
       | [d] => (2 * nth d tau 0)%Z
       | [d; e] => if d =? e then 2%Z else 0%Z
       | _ => 0%Z
       end |}.

Definition cubic_attributes : hyper Z unit :=
  {| num_dim := 2;
     num_params := 1;
     enforce_bounds := false;
     params := [3%Z];
     fixed_params := [false];
     param_bounds := [(0%Z, 10%Z)];
     hyperpriors := [tt];
     is_log := [true];
     potentials := [] |}.

(** The same kernel with another setting of [num_proc]. *)
Definition with_num_proc {F : Type} (a : arbitrary_methods F) (p : Z)
  : arbitrary_methods F :=
  {| num_proc := p; cov_func := cov_func a; cov_func_at := cov_func_at a |}.

(** A covariance function to run the model on. *)
Definition product_covariance : arbitrary_methods Z :=
  {| num_proc := 0;
     cov_func := fun Xi Xj _ =>
       map (fun uv => (zsum (fst uv) * zsum (snd uv))%Z) (combine Xi Xj);
     cov_func_at := fun xi xj _ => (zsum xi * zsum xj)%Z |}.

(** The sum of two such kernels that do not enforce their bounds. *)
Definition sum_of_two : kernel Z unit :=
  BinaryKernel Sum
    {| num_dim := 1;
       num_params := 2;
       enforce_bounds := false;
       params := [1%Z; 1%Z];
       fixed_params := [false; false];
       param_bounds := [(0%Z, 10%Z); (0%Z, 10%Z)];
       hyperpriors := [tt; tt];
       is_log := [true; true];
       potentials := [] |}
    (one_parameter_kernel false) (one_parameter_kernel false).



(** Kernels built from the classes of [kernel.core] alone, without a
    concrete subclass that brings a [__call__] of its own. *)
Fixpoint library_kernel {F C : Type} (k : kernel F C) : Prop :=
  match k with
  | ConcreteKernel _ _ => False
  | BinaryKernel _ _ k1 k2 => library_kernel k1 /\ library_kernel k2
  | _ => True
  end.


(** ** Dictionaries with string keys

    A dictionary is the list of its items; a key is looked up at its
    first item, removed with all its items, and set at the head after its
    removal, so that every key has at most one value that counts. *)

Definition dict (V : Type) : Type := list (string * V).

Fixpoint dict_get {V : Type} (key : string) (d : dict V) : option V :=
  match d with
  | [] => None
  | (k, v) :: d' => if String.eqb k key then Some v else dict_get key d'
  end.

(** [key in d] *)
Definition dict_has {V : Type} (key : string) (d : dict V) : bool :=
  match dict_get key d with
  | Some _ => true
  | None => false
  end.

(** [d.pop(key, None)], as the dictionary that is left. *)
Definition dict_pop {V : Type} (key : string) (d : dict V) : dict V :=
  filter (fun kv => negb (String.eqb (fst kv) key)) d.

(** [d[key] = v] *)
Definition dict_set {V : Type} (key : string) (v : V) (d : dict V) : dict V :=
  (key, v) :: dict_pop key d.

(** [d.items()]: one item for every key. *)
Fixpoint dict_items {V : Type} (d : dict V) : list (string * V) :=
  match d with
  | [] => []
  | (k, v) :: d' => (k, v) :: dict_pop k (dict_items d')
  end.

(** [dict(items)]: a later item replaces an earlier one of the same
    key. *)
Definition dict_of_items {V : Type} (items : list (string * V)) : dict V :=
  fold_left (fun d kv => dict_set (fst kv) (snd kv) d) items [].

(** ** [utils.wrap_fmin_slsqp] *)

(** The values found in [opt_kwargs]: text, dictionaries, sequences
    (lists and tuples), and atoms, which stand for numbers, callables and
    every other value that can neither be iterated over nor indexed. *)
#[warnings="-register-all"]
Inductive pyvalue (V : Type) : Type :=
| Atom (v : V)
| Str (s : string)
| DictOf (items : list (string * pyvalue V))
| ListOf (items : list (pyvalue V)).

Arguments Atom {V} v.
Arguments Str {V} s.
Arguments DictOf {V} items.
Arguments ListOf {V} items.

(** The exceptions of the dictionary code besides those of [exn]. *)
Inductive exception : Type :=
| KeyError
| AttributeError
| Exn (e : exn).

Inductive outcome (A : Type) : Type :=
| Returned (a : A)
| Raised (e : exception).

Arguments Returned {A} a.
Arguments Raised {A} e.

Definition and_then {A B : Type} (r : outcome A) (f : A -> outcome B)
  : outcome B :=
  match r with
  | Returned a => f a
  | Raised e => Raised e
  end.

Notation "x <-- c1 ;; c2" := (and_then c1 (fun x => c2))
  (at level 61, c1 at next level, right associativity).

(** [con[key]] for a text key: defined on dictionaries, a KeyError for a
    key that is missing, a TypeError on every other value. *)
Definition item {V : Type} (con : pyvalue V) (key : string)
  : outcome (pyvalue V) :=
  match con with
  | DictOf items =>
      match dict_get key items with
      | Some v => Returned v
      | None => Raised KeyError
      end
  | _ => Raised (Exn TypeError)
  end.

(** [v == text] for a text literal. *)
Definition is_str {V : Type} (v : pyvalue V) (text : string) : bool :=
  match v with
  | Str s => String.eqb s text
  | _ => false
  end.

(** What the loop [for con in ...] runs over: a dictionary was wrapped
    into a list of one, a sequence gives its entries, a text its
    characters. *)
Definition constraint_items {V : Type} (v : pyvalue V)
  : outcome (list (pyvalue V)) :=
  match v with
  | DictOf _ => Returned [v]
  | ListOf items => Returned items
  | Str s => Returned (map (fun c => Str (String c EmptyString))
                           (list_ascii_of_string s))
  | Atom _ => Raised (Exn TypeError)
  end.

(** One pass of the loop over the constraints; [cons] holds [eqcons] and
    [ieqcons]. *)
Definition add_constraint {V : Type}
           (cons : list (pyvalue V) * list (pyvalue V)) (con : pyvalue V)
  : outcome (list (pyvalue V) * list (pyvalue V)) :=
  ty <-- item con "type" ;;
  if is_str ty "eq" then
    f <-- item con "fun" ;;
    Returned (fst cons ++ [f], snd cons)
  else if is_str ty "ineq" then
    f <-- item con "fun" ;;
    Returned (fst cons, snd cons ++ [f])
  else Raised (Exn ValueError).

Definition collect_constraints {V : Type} (v : pyvalue V)
  : outcome (list (pyvalue V) * list (pyvalue V)) :=
  items <-- constraint_items v ;;
  fold_left (fun acc con => cons <-- acc ;; add_constraint cons con)
            items (Returned ([], [])).

(** What the wrapper hands to the optimizer, and whether it warned that
    the Jacobian is not supported. *)
Record slsqp_call (V : Type) : Type := {
  call_eqcons : list (pyvalue V);
  call_ieqcons : list (pyvalue V);
  call_kwargs : dict (pyvalue V);
  call_warned : bool
}.

Arguments call_eqcons {V} s.
Arguments call_ieqcons {V} s.
Arguments call_kwargs {V} s.
Arguments call_warned {V} s.

(** The part of [wrap_fmin_slsqp] before the call of the optimizer. *)
Definition slsqp_arguments {V : Type} (opt_kwargs : dict (pyvalue V))
  : outcome (slsqp_call V) :=
  let opt_kwargs := dict_pop "method" opt_kwargs in
  cons <-- match dict_get "constraints" opt_kwargs with
           | Some v => collect_constraints v
           | None => Returned ([], [])
           end ;;
  let opt_kwargs := dict_pop "constraints" opt_kwargs in
  let warned := dict_has "jac" opt_kwargs in
  let opt_kwargs := dict_pop "jac" opt_kwargs in
  let opt_kwargs :=
    match dict_get "tol" opt_kwargs with
    | Some tol => dict_set "acc" tol (dict_pop "tol" opt_kwargs)
    | None => opt_kwargs
    end in
  opt_kwargs <-- match dict_get "options" opt_kwargs with
                 | Some (DictOf opts) =>
                     Returned (dict_of_items
                                 (dict_items (dict_pop "options" opt_kwargs)
                                  ++ dict_items opts))
                 | Some _ => Raised AttributeError
                 | None => Returned opt_kwargs
                 end ;;
  let opt_kwargs :=
    dict_pop "callback" (dict_pop "hessp" (dict_pop "hess" opt_kwargs)) in
  Returned {| call_eqcons := fst cons;
              call_ieqcons := snd cons;
              call_kwargs := opt_kwargs;
              call_warned := warned |}.

(** What [scipy.optimize.fmin_slsqp] returns with [full_output=True]. *)
Record slsqp_output (V : Type) : Type := {
  slsqp_out : V;
  slsqp_fx : V;
  slsqp_its : V;
  slsqp_imode : Z;
  slsqp_smode : V
}.

Arguments slsqp_out {V} s.
Arguments slsqp_fx {V} s.
Arguments slsqp_its {V} s.
Arguments slsqp_imode {V} s.
Arguments slsqp_smode {V} s.

(** The named tuple [Result] with its fields [status], [success],
    [fun], [x], [message] and [nit]. *)
Record Result (V : Type) : Type := {
  Result_status : Z;
  Result_success : bool;
  Result_fun : V;
  Result_x : V;
  Result_message : V;
  Result_nit : V
}.

Arguments Result_status {V} r.
Arguments Result_success {V} r.
Arguments Result_fun {V} r.
Arguments Result_x {V} r.
Arguments Result_message {V} r.
Arguments Result_nit {V} r.

(** [wrap_fmin_slsqp].  The optimizer is a parameter; it receives the
    function, the guess, [eqcons], [ieqcons] and the remaining keywords.
    A keyword that the call also gives by name makes the call itself a
    TypeError. *)
Definition wrap_fmin_slsqp {V : Type}
           (fmin_slsqp : pyvalue V -> pyvalue V ->
                         list (pyvalue V) -> list (pyvalue V) ->
                         dict (pyvalue V) -> outcome (slsqp_output V))
           (fun' guess : pyvalue V) (opt_kwargs : dict (pyvalue V))
  : outcome (Result V) :=
  c <-- slsqp_arguments opt_kwargs ;;
  if dict_has "full_output" (call_kwargs c)
     || dict_has "eqcons" (call_kwargs c)
     || dict_has "ieqcons" (call_kwargs c)
  then Raised (Exn TypeError)
  else
    o <-- fmin_slsqp fun' guess (call_eqcons c) (call_ieqcons c)
                     (call_kwargs c) ;;
    Returned {| Result_status := slsqp_imode o;
                Result_success := (slsqp_imode o =? 0)%Z;
                Result_fun := slsqp_fx o;
                Result_x := slsqp_out o;
                Result_message := slsqp_smode o;
                Result_nit := slsqp_its o |}.

(** The functions a well-formed list of constraints gives for one type:
    the [fun] entries of the constraints of that type, in their order. *)
Definition functions_of_type {V : Type} (text : string)
           (cons : list (pyvalue V)) : list (pyvalue V) :=
  flat_map (fun con =>
              match item con "type", item con "fun" with
              | Returned ty, Returned f => if is_str ty text then [f] else []
              | _, _ => []
              end) cons.

(** A constraint the loop accepts: a dictionary with a type [eq] or
    [ineq] and a function. *)
Definition accepted_constraint {V : Type} (con : pyvalue V) : Prop :=
  exists ty f,
    item con "type" = Returned ty
    /\ (is_str ty "eq" = true \/ is_str ty "ineq" = true)
    /\ item con "fun" = Returned f.

(** The keywords after [method], [constraints] and [jac] were removed
    and [tol] was renamed to [acc]. *)
Definition renamed_keywords {V : Type} (opt_kwargs : dict V) : dict V :=
  let kw := dict_pop "jac" (dict_pop "constraints"
                                     (dict_pop "method" opt_kwargs)) in
  match dict_get "tol" kw with
  | Some tol => dict_set "acc" tol (dict_pop "tol" kw)
  | None => kw
  end.

(** Membership of a key in a list of keys. *)
Definition key_in (key : string) (keys : list string) : bool :=
  existsb (String.eqb key) keys.

(** ** [utils.compute_stats] *)

(** More of the arithmetic of numpy: division, the value [nan] and its
    test, and the sum of the entries of one row. *)
Class NumpyFloat (F : Type) : Type := {
  fdiv : F -> F -> F;
  nan : F;
  isnan : F -> bool;
  fsum : list F -> F
}.

(** What [compute_stats] takes from [scipy] and [scipy.stats]: the
    estimators of a two-dimensional array along an axis, the score at a
    percentile of a one-dimensional array, and the module constant
    [IQR_TO_STD]. *)
Class Statistics (F : Type) : Type := {
  IQR_TO_STD : F;
  scoreatpercentile : list F -> F -> result F;
  nanmedian : list (list F) -> Z -> result (list F);
  median : list (list F) -> Z -> result (list F);
  nanmean : list (list F) -> Z -> result (list F);
  nanstd : list (list F) -> Z -> result (list F);
  mean : list (list F) -> Z -> result (list F);
  std : list (list F) -> Z -> result (list F)
}.

(** The interquartile range of one channel. *)
Definition interquartile_range {F : Type} `{Float F} `{Statistics F}
           (ch : list F) : result F :=
  q75 <- scoreatpercentile ch (of_int 75) ;;
  q25 <- scoreatpercentile ch (of_int 25) ;;
  Ok (fsub q75 q25).

(** The loop [for k in xrange(0, len(vals))] of the branch that checks
    for [nan], from the state [std]. *)
Definition nan_checked_loop {F : Type} `{Float F} `{NumpyFloat F}
           `{Statistics F} (vals : list (list F)) (ks : list nat)
           (std : result (list F)) : result (list F) :=
  fold_left
    (fun acc k =>
       std <- acc ;;
       ch <- get_item vals k ;;
       let ok_idxs := map (fun v => negb (isnan v)) ch in
       if existsb (fun b => b) ok_idxs then
         iqr <- interquartile_range (mask_select ch ok_idxs) ;;
         put_item std k iqr
       else put_item std k nan)
    ks std.

(** The list comprehension [[... for ch in vals]] of the branch that
    does not check. *)
Fixpoint unchecked_ranges {F : Type} `{Float F} `{Statistics F}
         (vals : list (list F)) : result (list F) :=
  match vals with
  | [] => Ok []
  | ch :: vals' =>
      iqr <- interquartile_range ch ;;
      rest <- unchecked_ranges vals' ;;
      Ok (iqr :: rest)
  end.

(** [compute_stats].  The block that draws the figure is the parameter
    [draw]; it reads the values and the two estimates. *)
Definition compute_stats {F : Type} `{Float F} `{NumpyFloat F}
           `{Statistics F}
           (draw : list (list F) -> list F -> list F -> Z -> result unit)
           (vals : list (list F)) (check_nan robust : bool) (axis : Z)
           (plot_QQ : bool) (bins : Z) : result (list F * list F) :=
  if negb (axis =? 1)%Z && robust then Raise NotImplementedError
  else
    stats <-
      (if robust then
         if check_nan then
           mean <- nanmedian vals axis ;;
           std <- nan_checked_loop vals (seq 0 (length vals))
                                   (Ok (repeat fzero (length vals))) ;;
           Ok (mean, map (fun s => fdiv s IQR_TO_STD) std)
         else
           mean <- median vals axis ;;
           std <- unchecked_ranges vals ;;
           Ok (mean, map (fun s => fdiv s IQR_TO_STD) std)
       else
         if check_nan then
           mean <- nanmean vals axis ;;
           std <- nanstd vals axis ;;
           Ok (mean, std)
         else
           mean <- mean vals axis ;;
           std <- std vals axis ;;
           Ok (mean, std)) ;;
    _ <- (if plot_QQ then draw vals (fst stats) (snd stats) bins
          else Ok tt) ;;
    Ok stats.

(** The estimate of one channel in the branch that checks for [nan]. *)
Definition channel_range {F : Type} `{Float F} `{NumpyFloat F}
           `{Statistics F} (ch : list F) : result F :=
  let ok_idxs := map (fun v => negb (isnan v)) ch in
  if existsb (fun b => b) ok_idxs
  then interquartile_range (mask_select ch ok_idxs)
  else Ok nan.

Fixpoint channel_ranges {F : Type} `{Float F} `{NumpyFloat F}
         `{Statistics F} (vals : list (list F)) : result (list F) :=
  match vals with
  | [] => Ok []
  | ch :: vals' =>
      iqr <- channel_range ch ;;
      rest <- channel_ranges vals' ;;
      Ok (iqr :: rest)
  end.

(** The second component of a result. *)
Definition second {A B : Type} (r : result (A * B)) : result B :=
  p <- r ;; Ok (snd p).

(** ** [kernel.core.Kernel._compute_r2l2] *)

(** [a[-d:]] *)
Definition last_items {A : Type} (d : Z) (a : list A) : list A :=
  if (0 <? d)%Z then skipn (length a - Z.to_nat d) a
  else skipn (Z.to_nat (- d)) a.

(** Whether two second dimensions can be broadcast against each
    other. *)
Definition broadcastable (n l : nat) : bool :=
  (n =? l) || (n =? 1) || (l =? 1).

(** One row of [tau / l_mat] for second dimensions that can be
    broadcast. *)
Definition divide_row {F : Type} `{NumpyFloat F} (t l : list F) : list F :=
  if length t =? length l
  then map (fun uv => fdiv (fst uv) (snd uv)) (combine t l)
  else match t, l with
       | [u], _ => map (fdiv u) l
       | _, [v] => map (fun u => fdiv u v) t
       | _, _ => []
       end.

(** [_compute_r2l2]: the scaled distances and, for [return_l], the
    matrix of length scales. *)
Definition _compute_r2l2 {F C : Type} `{Float F} `{NumpyFloat F}
           (self : hyper F C) (tau : array2 F) (return_l : bool)
  : result (list F * option (list (list F))) :=
  let l := last_items (num_dim self) (params self) in
  let l_mat := repeat l (length (rows tau)) in
  if broadcastable (shape1 tau) (length l) then
    let r2l2 :=
      map (fun t => fsum (map (fun q => fpow q (of_int 2)) (divide_row t l)))
          (rows tau) in
    Ok (r2l2, if return_l then Some l_mat else None)
  else Raise ValueError.

(** ** [kernel.core.ArbitraryKernel.__init__] *)

(** What [inspect.getargspec] finds: the names of the arguments of the
    covariance function, when it is a plain function, and those of its
    [__call__], which are asked for after a TypeError of the first. *)
Record inspection : Type := {
  argspec : result (list string);
  call_argspec : result (list string)
}.

(** The keywords passed on to [Kernel.__init__]. *)
Record kernel_keywords (F C : Type) : Type := {
  kw_initial_params : option (list F);
  kw_fixed_params : option (list bool);
  kw_param_bounds : option (list (F * F));
  kw_enforce_bounds : bool;
  kw_hyperpriors : option (list C);
  kw_is_log : option (list bool);
  kw_potentials : list C
}.

Arguments kw_initial_params {F C} k.
Arguments kw_fixed_params {F C} k.
Arguments kw_param_bounds {F C} k.
Arguments kw_enforce_bounds {F C} k.
Arguments kw_hyperpriors {F C} k.
Arguments kw_is_log {F C} k.
Arguments kw_potentials {F C} k.

(** The keywords left at their defaults. *)
Definition default_keywords {F C : Type} : kernel_keywords F C :=
  {| kw_initial_params := None;
     kw_fixed_params := None;
     kw_param_bounds := None;
     kw_enforce_bounds := false;
     kw_hyperpriors := None;
     kw_is_log := None;
     kw_potentials := [] |}.

(** The number of hyperparameters found by inspection. *)
Definition inspected_num_params (i : inspection) : result Z :=
  match argspec i with
  | Ok names => Ok (Z.of_nat (length names) - 2)%Z
  | Raise TypeError =>
      names <- call_argspec i ;;
      Ok (Z.of_nat (length names) - 3)%Z
  | Raise e => Raise e
  | OutOfFuel => OutOfFuel
  end.

(** [ArbitraryKernel.__init__]; [cpu_count] is what
    [multiprocessing.cpu_count()] returns. *)
Definition ArbitraryKernel_init {F C : Type} `{Float F} `{KernelEnv F C}
           (cpu_count : Z) (i : inspection)
           (cov_func : list (list F) -> list (list F) -> list F -> list F)
           (cov_func_at : list F -> list F -> list F -> F)
           (num_dim : Z) (num_proc num_params : option Z)
           (kwargs : kernel_keywords F C) : result (kernel F C) :=
  let num_proc :=
    match num_proc with
    | None => cpu_count
    | Some p => p
    end in
  num_params <-
    match num_params with
    | None => inspected_num_params i
    | Some n => Ok n
    end ;;
  h <- Kernel_init num_dim num_params
                   (kw_initial_params kwargs) (kw_fixed_params kwargs)
                   (kw_param_bounds kwargs) (kw_enforce_bounds kwargs)
                   (kw_hyperpriors kwargs) (kw_is_log kwargs)
                   (kw_potentials kwargs) ;;
  Ok (ArbitraryKernel h {| num_proc := num_proc;
                           cov_func := cov_func;
                           cov_func_at := cov_func_at |}).

(** ** Notions used to state the further properties *)

(** The lexicographic order on strings of labels. *)
Fixpoint lex_lt (a b : list nat) : Prop :=
  match a, b with
  | [], [] => False
  | [], _ :: _ => True
  | _ :: _, [] => False
  | x :: a', y :: b' => x < y \/ (x = y /\ lex_lt a' b')
  end.

(** The derivative orders with the negative ones replaced by 0. *)
Definition clip_orders (n : list Z) : list Z := map (Z.max 0) n.

(** The operators [k1 + k2] and [k1 * k2]. *)
Definition Kernel_add {F C : Type} `{Float F} `{KernelEnv F C}
           (self other : kernel F C) : result (kernel F C) :=
  BinaryKernel_init Sum self other.

Definition Kernel_mul {F C : Type} `{Float F} `{KernelEnv F C}
           (self other : kernel F C) : result (kernel F C) :=
  BinaryKernel_init Product self other.

(** An optional argument, when it is given, has [n] entries. *)
Definition given_length {A : Type} (o : option (list A)) (n : Z) : Prop :=
  match o with
  | None => True
  | Some l => Z.of_nat (length l) = n
  end.

(** The arguments [Kernel.__init__] accepts. *)
Definition accepted_arguments {F C : Type} (num_dim num_params : Z)
           (initial_params : option (list F))
           (fixed_params : option (list bool))
           (param_bounds : option (list (F * F)))
           (hyperpriors : option (list C))
           (is_log : option (list bool)) : Prop :=
  (0 <= num_params)%Z
  /\ (1 <= num_dim)%Z
  /\ (initial_params = None -> fixed_params = None)
  /\ given_length initial_params num_params
  /\ given_length fixed_params num_params
  /\ given_length param_bounds num_params
  /\ given_length hyperpriors num_params
  /\ given_length is_log num_params.

(** An optional argument or its default. *)
Definition or_default {A : Type} (o : option A) (d : A) : A :=
  match o with
  | Some a => a
  | None => d
  end.

(** The attributes of a kernel agree with its parameter count. *)
Definition sized {F C : Type} (h : hyper F C) : Prop :=
  (0 <= num_params h)%Z
  /\ (1 <= num_dim h)%Z
  /\ Z.of_nat (length (params h)) = num_params h
  /\ Z.of_nat (length (fixed_params h)) = num_params h
  /\ Z.of_nat (length (param_bounds h)) = num_params h
  /\ Z.of_nat (length (hyperpriors h)) = num_params h
  /\ Z.of_nat (length (is_log h)) = num_params h.

(** Kernels built with [+] and [*] from chain-rule kernels whose
    methods work point by point and have a first hyperparameter, and
    from numerically differentiated kernels whose covariance function
    acts on every pair of points separately. *)
Fixpoint pairwise_kernel {F C : Type} (k : kernel F C) : Prop :=
  match k with
  | ChainRuleKernel h m => (exists pm, pointwise h m pm) /\ params h <> []
  | ArbitraryKernel h a =>
      forall X Y : list (list F),
        length X = length Y ->
        cov_func a X Y (params h) =
        map (fun xy => cov_func_at a (fst xy) (snd xy) (params h))
            (combine X Y)
  | BinaryKernel _ _ k1 k2 => pairwise_kernel k1 /\ pairwise_kernel k2
  | AbstractKernel _ => False
  | ConcreteKernel _ _ => False
  end.

(** ** Kernel objects

    A combinator keeps references to the two kernels it was built from,
    and [set_hyperparams] writes to the objects behind them.  The
    objects below a kernel form a tree of identities that never changes
    after construction, and in which one identity can occur more than
    once: in [a + a] both operands are the object [a].  The attributes
    of the objects are kept in a store and are read and written through
    the identities.  Every object has a [params] array of its own:
    [BinaryKernel.__init__] concatenates into a new array. *)
Inductive kernel_ref : Type :=
| LeafRef (id : nat)                    (* a kernel that is no combinator *)
| BinaryRef (op : binary_op) (id : nat) (k1 k2 : kernel_ref).
                                        (* [self], [self.k1], [self.k2] *)

Definition ref_id (k : kernel_ref) : nat :=
  match k with
  | LeafRef id => id
  | BinaryRef _ id _ _ => id
  end.


Definition store (F C : Type) : Type := nat -> hyper F C.

Definition store_set {F C : Type} (s : store F C) (id : nat) (h : hyper F C)
  : store F C :=
  fun j => if j =? id then h else s j.

(** [set_hyperparams] on the object [k]: the store after the call and
    the exception the call raised, if any.  A kernel that is no
    combinator inherits [Kernel.set_hyperparams]. *)
Fixpoint set_hyperparams_in {F C : Type} `{Float F}
         (k : kernel_ref) (new_params : list F) (s : store F C)
  : store F C * option exn :=
  match k with
  | BinaryRef _ id k1 k2 =>
      let self := s id in
      if length new_params =? length (free_params self) then
        (* self.params[~self.fixed_params] = new_params *)
        let s := store_set s id
                   (with_params self
                      (scatter (params self) (map negb (fixed_params self))
                               new_params)) in
        let num_fixed_k1 :=
          count_true (map negb (fixed_params (s (ref_id k1)))) in
        let (s, e1) :=
          set_hyperparams_in k1 (firstn num_fixed_k1 new_params) s in
        match e1 with
        | Some e => (s, Some e)
        | None => set_hyperparams_in k2 (skipn num_fixed_k1 new_params) s
        end
      else (s, Some ValueError)
  | LeafRef id =>
      let (h', e) := Kernel_set_hyperparams (s id) new_params in
      (store_set s id h', e)
  end.


(** The float of a natural number. *)
Definition of_nat {F : Type} `{Float F} (a : nat) : F := of_int (Z.of_nat a).

(** The arithmetic is exact on the natural numbers up to [B]: the sum
    and the product of the floats of two of them are the floats of their
    sum and their product when these are at most [B] as well, and
    [scipy.special.binom] returns the float of a binomial coefficient
    that is at most [B].  For [float64] and the rounding of IEEE 754
    the sum and the product are such for [B = 2 ** 53]. *)
Definition exact_up_to {F : Type} `{Float F} (B : nat) : Prop :=
  (forall a b, a + b <= B -> fadd (of_nat a) (of_nat b) = of_nat (a + b))
  /\ (forall a b, a <= B -> b <= B -> a * b <= B ->
                  fmul (of_nat a) (of_nat b) = of_nat (a * b))
  /\ (forall N j, choose N j <= B -> binom N j = of_nat (choose N j)).

(** Exact integer arithmetic for the further operations, to run the
    model. *)
#[export] Instance Z_NumpyFloat : NumpyFloat Z := {|
  fdiv := Z.div;
  nan := (-1)%Z;
  isnan := fun v => (v <? 0)%Z;
  fsum := zsum
|}.

#[export] Instance Z_Statistics : Statistics Z := {|
  IQR_TO_STD := 2%Z;
  scoreatpercentile := fun ch per =>
    match ch with
    | [] => Raise IndexError
    | v :: _ => Ok (v * per)%Z
    end;
  nanmedian := fun vals _ => Ok (map zsum vals);
  median := fun vals _ => Ok (map zsum vals);
  nanmean := fun vals _ => Ok (map zsum vals);
  nanstd := fun vals _ => Ok (map zsum vals);
  mean := fun vals _ => Ok (map zsum vals);
  std := fun vals _ => Ok (map zsum vals)
|}.


(** * Part II: properties *)

(** ** Array operations *)

Lemma set_item_app {A : Type} (p z : list A) (x v : A) :
  set_item (length p) v (p ++ x :: z) = p ++ v :: z.
Proof.
  unfold set_item.
  rewrite firstn_app, firstn_all, Nat.sub_diag, firstn_O, app_nil_r.
  rewrite skipn_app, skipn_all, Nat.sub_diag. reflexivity.
Qed.

Lemma nth_middle_app {A : Type} (p z : list A) (x d : A) :
  nth (length p) (p ++ x :: z) d = x.
Proof. apply nth_middle. Qed.

Lemma last_item_snoc {A : Type} (l : list A) (x : A) :
  last_item (l ++ [x]) = Some x.
Proof. unfold last_item. rewrite rev_app_distr. reflexivity. Qed.

Lemma nonzero_from_app (u v : list bool) (i : nat) :
  nonzero_from i (u ++ v) = nonzero_from i u ++ nonzero_from (i + length u) v.
Proof.
  revert i. induction u as [|c u IH]; intros i; simpl.
  - now rewrite Nat.add_0_r.
  - replace (i + S (length u)) with (S i + length u) by lia.
    destruct c; simpl; rewrite IH; reflexivity.
Qed.

Lemma nonzero_from_false (k i : nat) : nonzero_from i (repeat false k) = [].
Proof. revert i. induction k; intros i; simpl; auto. Qed.

Lemma last_nonzero_pivot (u : list bool) (k : nat) :
  last_item (nonzero (u ++ true :: repeat false k)) = Some (length u).
Proof.
  unfold nonzero. rewrite nonzero_from_app. simpl.
  rewrite nonzero_from_false. apply last_item_snoc.
Qed.

Lemma neq_mask_app (a1 a2 b1 b2 : list nat) :
  length a1 = length b1 ->
  neq_mask (a1 ++ a2) (b1 ++ b2) = neq_mask a1 b1 ++ neq_mask a2 b2.
Proof.
  revert b1. induction a1 as [|x a1 IH]; intros [|y b1] H; simpl in H;
    try discriminate; [reflexivity|].
  unfold neq_mask in *. simpl. f_equal. apply IH. lia.
Qed.

Lemma neq_mask_same (l : list nat) : neq_mask l l = repeat false (length l).
Proof.
  induction l as [|x l IH]; simpl; [reflexivity|].
  unfold neq_mask in *. simpl. rewrite Nat.eqb_refl, IH. reflexivity.
Qed.

Lemma neq_mask_length (a b : list nat) :
  length a = length b -> length (neq_mask a b) = length a.
Proof.
  intros H. unfold neq_mask. rewrite length_map, length_combine. lia.
Qed.

(** ** Restricted growth strings *)

Lemma bounds_from_length (s : list nat) (m : nat) :
  length (bounds_from m s) = length s.
Proof. revert m. induction s; intros m; simpl; auto. Qed.

Lemma bounds_from_app (p q : list nat) (m : nat) :
  bounds_from m (p ++ q) = bounds_from m p ++ bounds_from (bound_after m p) q.
Proof.
  revert m. induction p as [|x p IH]; intros m; simpl; [reflexivity|].
  now rewrite IH.
Qed.

Lemma bounds_from_zeros (k m : nat) :
  1 <= m -> bounds_from m (repeat 0 k) = repeat m k.
Proof.
  intros Hm. induction k as [|k IH]; simpl; [reflexivity|].
  rewrite Nat.max_l by lia. now rewrite IH.
Qed.

Lemma bound_after_ge (p : list nat) (m : nat) : m <= bound_after m p.
Proof.
  revert m. induction p as [|x p IH]; intros m; simpl; [lia|].
  unfold bound_after in *. simpl. specialize (IH (Nat.max m (x + 1))). lia.
Qed.

Lemma is_rgs_from_app (p q : list nat) (m : nat) :
  is_rgs_from m (p ++ q) <->
  is_rgs_from m p /\ is_rgs_from (bound_after m p) q.
Proof.
  revert m. induction p as [|x p IH]; intros m; simpl.
  - tauto.
  - rewrite IH. unfold bound_after. simpl. tauto.
Qed.

Lemma is_rgs_from_zeros (k m : nat) : is_rgs_from m (repeat 0 k).
Proof.
  revert m. induction k as [|k IH]; intros m; simpl; [exact I|].
  split; [lia | apply IH].
Qed.

Lemma next_tail_length (s t : list nat) (m : nat) :
  next_tail m s = Some t -> length t = length s.
Proof.
  revert m t. induction s as [|x s IH]; intros m t; simpl; [discriminate|].
  destruct (next_tail (Nat.max m (x + 1)) s) as [t'|] eqn:E.
  - intros [= <-]. simpl. f_equal. eapply IH; eauto.
  - destruct (x =? m); [discriminate|]. intros [= <-]. simpl.
    now rewrite repeat_length.
Qed.

Lemma next_tail_None_iff (z : list nat) (m : nat) :
  next_tail m z = None <-> z = bounds_from m z.
Proof.
  revert m. induction z as [|x z IH]; intros m; simpl; [tauto|].
  specialize (IH (Nat.max m (x + 1))).
  destruct (next_tail (Nat.max m (x + 1)) z) as [t|].
  - split; [discriminate|]. intros [= _ H]. apply IH in H. discriminate.
  - destruct (Nat.eqb_spec x m) as [->|Hne].
    + split; [|reflexivity]. intros _. f_equal. now apply IH.
    + split; [discriminate|]. intros [= H _]. contradiction.
Qed.

(** The successor increments the last entry that is below its bound and
    resets everything behind it. *)
Lemma next_tail_pivot (s t : list nat) (m : nat) :
  next_tail m s = Some t ->
  exists p x z,
    s = p ++ x :: z /\ x <> bound_after m p /\
    z = bounds_from (Nat.max (bound_after m p) (x + 1)) z /\
    t = p ++ S x :: repeat 0 (length z).
Proof.
  revert m t. induction s as [|x s IH]; intros m t; simpl; [discriminate|].
  destruct (next_tail (Nat.max m (x + 1)) s) as [t'|] eqn:E.
  - intros [= <-]. destruct (IH _ _ E) as (p & y & z & -> & Hy & Hz & ->).
    exists (x :: p), y, z. repeat split; auto.
  - destruct (Nat.eqb_spec x m) as [->|Hne]; [discriminate|].
    intros [= <-]. exists [], x, s. repeat split; auto.
    now apply next_tail_None_iff.
Qed.

Lemma next_tail_is_rgs (s t : list nat) (m : nat) :
  is_rgs_from m s -> next_tail m s = Some t -> is_rgs_from m t.
Proof.
  revert m t. induction s as [|x s IH]; intros m t; simpl; [discriminate|].
  intros [Hx Hs].
  destruct (next_tail (Nat.max m (x + 1)) s) as [t'|] eqn:E.
  - intros [= <-]. simpl. split; eauto.
  - destruct (Nat.eqb_spec x m) as [->|Hne]; [discriminate|].
    intros [= <-]. simpl. split; [lia | apply is_rgs_from_zeros].
Qed.

Lemma rgs_tails_first (k m : nat) :
  rgs_tails k m = repeat 0 k :: tails_after m (repeat 0 k).
Proof.
  revert m. induction k as [|k IH]; intros m; [reflexivity|].
  cbn [rgs_tails tails_after repeat seq flat_map].
  rewrite (IH (Nat.max m (0 + 1))). cbn [map app].
  rewrite repeat_length, Nat.sub_0_r. reflexivity.
Qed.

Lemma tails_after_next (s : list nat) (m : nat) :
  is_rgs_from m s ->
  tails_after m s = match next_tail m s with
                    | None => []
                    | Some t => t :: tails_after m t
                    end.
Proof.
  revert m. induction s as [|x s IH]; intros m; simpl; [reflexivity|].
  intros [Hx Hs]. rewrite (IH _ Hs).
  destruct (next_tail (Nat.max m (x + 1)) s) as [t|] eqn:E.
  - simpl. rewrite (next_tail_length _ _ _ E). reflexivity.
  - simpl. destruct (Nat.eqb_spec x m) as [->|Hne].
    + now rewrite Nat.sub_diag.
    + replace (m - x) with (S (m - S x)) by lia. cbn [seq flat_map].
      rewrite rgs_tails_first. simpl. rewrite repeat_length.
      replace (x + 1 + 1) with (S (x + 1)) by lia.
      replace (S x + 1) with (S (x + 1)) by lia. reflexivity.
Qed.

Lemma slice_fill_app {A : Type} (u w t : list A) (v : A) :
  slice_fill (length u) (length u + length w) v (u ++ w ++ t) =
  u ++ repeat v (length w) ++ t.
Proof.
  unfold slice_fill. rewrite !length_app.
  rewrite Nat.min_l by lia. rewrite Nat.max_r by lia.
  rewrite firstn_app, firstn_all, Nat.sub_diag, firstn_O, app_nil_r.
  replace (length u + length w - length u) with (length w) by lia.
  do 2 f_equal. rewrite app_assoc, skipn_app.
  rewrite skipn_all2 by (rewrite length_app; lia).
  rewrite length_app, Nat.sub_diag. reflexivity.
Qed.

Lemma repeat_snoc {A : Type} (v : A) (k : nat) :
  repeat v k ++ [v] = repeat v (S k).
Proof. induction k as [|k IH]; simpl; [reflexivity | now rewrite IH]. Qed.

Lemma exists_last_or_nil {A : Type} (l : list A) :
  l = [] \/ exists l' x, l = l' ++ [x].
Proof.
  destruct l as [|y l]; [now left | right].
  destruct (@exists_last _ (y :: l)) as (l' & x & E); [discriminate|].
  now exists l', x.
Qed.

(** ** Algorithm H *)

(** Step 3: the last entry is below its bound. *)
Lemma algorithm_H_step_last (p : list nat) (x m : nat) :
  x <> bound_after m p ->
  algorithm_H_step (p ++ [x]) (bounds_from m (p ++ [x])) =
  Next (p ++ [S x]) (bounds_from m (p ++ [S x])).
Proof.
  intros Hx. unfold algorithm_H_step.
  rewrite !bounds_from_app. simpl. rewrite !last_last.
  destruct (Nat.eqb_spec x (bound_after m p)) as [E|_]; [contradiction|].
  rewrite length_app. simpl. rewrite Nat.add_sub.
  rewrite set_item_app. now rewrite Nat.add_1_r.
Qed.

(** Steps 4 to 6: the last entry is at its bound, the pivot is the last
    entry before it that is not. *)
Lemma algorithm_H_step_pivot (p z : list nat) (x w m : nat) :
  1 <= m -> x < bound_after m p ->
  z ++ [w] = bounds_from (Nat.max (bound_after m p) (x + 1)) (z ++ [w]) ->
  algorithm_H_step (p ++ x :: z ++ [w]) (bounds_from m (p ++ x :: z ++ [w])) =
  if length p =? 0 then Break
  else Next (p ++ S x :: repeat 0 (S (length z)))
            (bounds_from m (p ++ S x :: repeat 0 (S (length z)))).
Proof.
  intros Hm Hx Hz. unfold algorithm_H_step.
  set (B := bound_after m p) in *.
  set (bp := bounds_from m p).
  assert (Hbp : length bp = length p) by apply bounds_from_length.
  assert (Hb : bounds_from m (p ++ x :: z ++ [w]) = (bp ++ B :: z) ++ [w]).
  { rewrite bounds_from_app. cbn [bounds_from]. fold B bp.
    rewrite <- Hz. now rewrite <- app_assoc. }
  rewrite Hb.
  replace (p ++ x :: z ++ [w]) with ((p ++ x :: z) ++ [w])
    by now rewrite <- app_assoc.
  rewrite !last_last, Nat.eqb_refl, !removelast_last.
  rewrite neq_mask_app by lia.
  change (neq_mask (x :: z) (B :: z))
    with (negb (x =? B) :: neq_mask z z).
  destruct (Nat.eqb_spec x B) as [E|_]; [lia|]. cbn [negb].
  rewrite neq_mask_same, last_nonzero_pivot, neq_mask_length by lia.
  destruct (Nat.eqb_spec (length p) 0) as [E|_]; [reflexivity|].
  rewrite <- (app_assoc p), <- (app_assoc bp). cbn [app].
  assert (HB : nth (length p) (bp ++ B :: z ++ [w]) 0 = B)
    by (rewrite <- Hbp; apply nth_middle).
  rewrite HB, nth_middle, set_item_app, nth_middle.
  set (v := B + Nat.b2n (x + 1 =? B)).
  assert (Hv : Nat.max B (S x + 1) = v).
  { unfold v. destruct (Nat.eqb_spec (x + 1) B); simpl; lia. }
  f_equal.
  - replace (p ++ x + 1 :: z ++ [w]) with ((p ++ [x + 1]) ++ (z ++ [w]) ++ [])
      by (rewrite app_nil_r, <- app_assoc; reflexivity).
    replace (length p + 1) with (length (p ++ [x + 1]))
      by (rewrite length_app; reflexivity).
    replace (length (p ++ x :: z ++ [w]))
      with (length (p ++ [x + 1]) + length (z ++ [w]))
      by (rewrite !length_app; simpl; rewrite length_app; simpl; lia).
    rewrite slice_fill_app, app_nil_r, <- app_assoc, length_app. simpl.
    now rewrite Nat.add_1_r, Nat.add_1_r.
  - replace (length (p ++ x :: z ++ [w]) - 1) with (length (bp ++ B :: z))
      by (rewrite !length_app; simpl; rewrite length_app; simpl; lia).
    replace (bp ++ B :: z ++ [w]) with ((bp ++ B :: z) ++ [w])
      by now rewrite <- app_assoc.
    rewrite set_item_app, last_last.
    replace ((bp ++ B :: z) ++ [v]) with ((bp ++ [B]) ++ z ++ [v])
      by (rewrite <- !app_assoc; reflexivity).
    replace (length p + 1) with (length (bp ++ [B]))
      by (rewrite length_app; simpl; lia).
    replace (length (bp ++ B :: z))
      with (length (bp ++ [B]) + length z)
      by (rewrite !length_app; simpl; lia).
    rewrite slice_fill_app, repeat_snoc, <- app_assoc.
    rewrite bounds_from_app. cbn [bounds_from]. fold B bp.
    rewrite bounds_from_zeros by lia. rewrite Hv. reflexivity.
Qed.

(** One pass of the loop body computes the lexicographic successor of the
    string behind the fixed first entry, and stops when there is none. *)
Lemma algorithm_H_step_next (s : list nat) :
  s <> [] -> is_rgs_from 1 s ->
  algorithm_H_step (0 :: s) (1 :: bounds_from 1 s) =
  match next_tail 1 s with
  | None => Break
  | Some t => Next (0 :: t) (1 :: bounds_from 1 t)
  end.
Proof.
  intros Hne Hs.
  change (1 :: bounds_from 1 s) with (bounds_from 1 (0 :: s)).
  destruct (next_tail 1 s) as [t|] eqn:E.
  - change (1 :: bounds_from 1 t) with (bounds_from 1 (0 :: t)).
    destruct (next_tail_pivot _ _ _ E) as (p & x & z & -> & Hx & Hz & ->).
    apply is_rgs_from_app in Hs. destruct Hs as [_ [Hle _]].
    assert (HB : bound_after 1 (0 :: p) = bound_after 1 p) by reflexivity.
    destruct (exists_last_or_nil z) as [->|(z' & w & ->)].
    + apply (algorithm_H_step_last (0 :: p) x 1). now rewrite HB.
    + rewrite length_app. simpl length. rewrite Nat.add_1_r.
      apply (algorithm_H_step_pivot (0 :: p) z' x w 1); rewrite ?HB;
        [lia | lia | assumption].
  - apply next_tail_None_iff in E.
    destruct (exists_last_or_nil s) as [->|(z & w & ->)]; [contradiction|].
    apply (algorithm_H_step_pivot [] z 0 w 1); simpl; [lia | lia | assumption].
Qed.

(** From any valid state the loop visits the current string and then its
    successors in order, as long as the budget covers them. *)
Lemma algorithm_H_loop_enumerates (fuel : nat) :
  forall (s : list nat) (acc : list (list nat)),
    s <> [] -> is_rgs_from 1 s -> length (tails_after 1 s) < fuel ->
    algorithm_H_loop fuel (0 :: s) (1 :: bounds_from 1 s) acc =
    Ok (acc ++ map (cons 0) (s :: tails_after 1 s)).
Proof.
  induction fuel as [|fuel IH]; intros s acc Hne Hs Hfuel; [lia|].
  cbn [algorithm_H_loop]. rewrite algorithm_H_step_next by assumption.
  rewrite (tails_after_next _ _ Hs) in Hfuel |- *.
  destruct (next_tail 1 s) as [t|] eqn:E.
  - rewrite IH.
    + rewrite <- app_assoc. reflexivity.
    + apply next_tail_length in E. destruct t; [|discriminate].
      destruct s; [contradiction | discriminate].
    + eapply next_tail_is_rgs; eauto.
    + simpl in Hfuel. lia.
  - reflexivity.
Qed.

Lemma restricted_growth_strings_S (k : nat) :
  restricted_growth_strings (S k) = map (cons 0) (rgs_tails k 1).
Proof.
  unfold restricted_growth_strings. simpl. now rewrite app_nil_r.
Qed.

(** With a budget that covers every string, the generator returns all
    restricted growth strings of length [n >= 1] in lexicographic order. *)
Lemma generate_set_partition_strings_all (fuel n : nat) :
  1 <= n -> length (restricted_growth_strings n) <= fuel ->
  generate_set_partition_strings fuel n = Ok (restricted_growth_strings n).
Proof.
  intros Hn Hfuel. destruct n as [|[|k]]; [lia | reflexivity |].
  rewrite restricted_growth_strings_S in *.
  rewrite rgs_tails_first in *. rewrite length_map in Hfuel.
  unfold generate_set_partition_strings.
  change (repeat 0 (S (S k))) with (0 :: repeat 0 (S k)).
  replace (repeat 1 (S (S k))) with (1 :: bounds_from 1 (repeat 0 (S k)))
    by (rewrite bounds_from_zeros by lia; reflexivity).
  rewrite algorithm_H_loop_enumerates.
  - reflexivity.
  - discriminate.
  - apply is_rgs_from_zeros.
  - cbn [length] in Hfuel. lia.
Qed.

(** *** Membership in the reference enumeration *)

Lemma in_rgs_tails (s : list nat) (k m : nat) :
  In s (rgs_tails k m) <-> length s = k /\ is_rgs_from m s.
Proof.
  revert s m. induction k as [|k IH]; intros s m; cbn [rgs_tails].
  - split.
    + intros [<-|[]]. simpl. auto.
    + intros [H _]. destruct s; [now left | discriminate].
  - rewrite in_flat_map. split.
    + intros (c & Hc & Hs). apply in_seq in Hc.
      apply in_map_iff in Hs. destruct Hs as (t & <- & Ht).
      apply IH in Ht. simpl. destruct Ht as [<- Ht].
      repeat split; [lia | assumption].
    + intros [Hl Hs]. destruct s as [|c t]; [discriminate|].
      simpl in Hs. exists c. split; [apply in_seq; lia|].
      apply in_map, IH. split; [simpl in Hl; lia | tauto].
Qed.

Lemma in_restricted_growth_strings (s : list nat) (n : nat) :
  In s (restricted_growth_strings n) <-> length s = n /\ is_rgs s.
Proof. apply in_rgs_tails. Qed.

Lemma NoDup_rgs_tails (k m : nat) : NoDup (rgs_tails k m).
Proof.
  revert m. induction k as [|k IH]; intros m; cbn [rgs_tails].
  - constructor; [intros [] | constructor].
  - assert (G : forall n i, NoDup
        (flat_map (fun c => map (cons c) (rgs_tails k (Nat.max m (c + 1))))
                  (seq i n)) /\
        forall s, In s (flat_map (fun c => map (cons c)
                          (rgs_tails k (Nat.max m (c + 1)))) (seq i n)) ->
                  exists c t, s = c :: t /\ i <= c).
    { induction n as [|n IHn]; intros i; simpl.
      - split; [constructor | intros s []].
      - destruct (IHn (S i)) as [ND Hin]. split.
        + apply NoDup_app.
          * apply Finite.Injective_map_NoDup; [|apply IH].
            intros a b [= E]. exact E.
          * exact ND.
          * intros s H1 H2. apply in_map_iff in H1.
            destruct H1 as (t & <- & _).
            destruct (Hin _ H2) as (c & t' & [= -> _] & Hc). lia.
        + intros s Hs. apply in_app_or in Hs. destruct Hs as [Hs|Hs].
          * apply in_map_iff in Hs. destruct Hs as (t & <- & _).
            exists i, t. auto.
          * destruct (Hin _ Hs) as (c & t & -> & Hc).
            exists c, t. split; [reflexivity | lia]. }
    apply (G (S m) 0).
Qed.

(** *** Counting: the strings of length [n] number [bell n] *)

Lemma length_flat_map_seq (f : nat -> list (list nat)) (g : nat -> nat)
      (n i : nat) :
  (forall c, length (f c) = g c) ->
  length (flat_map f (seq i n)) = fold_right (fun c acc => g c + acc) 0 (seq i n).
Proof.
  intros H. revert i. induction n as [|n IH]; intros i; simpl; [reflexivity|].
  now rewrite length_app, H, IH.
Qed.

Lemma length_rgs_tails_S (k m : nat) :
  length (rgs_tails (S k) m) =
  m * length (rgs_tails k m) + length (rgs_tails k (S m)).
Proof.
  cbn [rgs_tails].
  rewrite (length_flat_map_seq _
             (fun c => length (rgs_tails k (Nat.max m (c + 1)))))
    by (intros c; apply length_map).
  rewrite seq_S, fold_right_app. simpl.
  replace (Nat.max m (m + 1)) with (S m) by lia. rewrite Nat.add_0_r.
  assert (G : forall j i acc, i + j <= m ->
             fold_right (fun c acc => length (rgs_tails k (Nat.max m (c + 1))) + acc)
                        acc (seq i j) = j * length (rgs_tails k m) + acc).
  { induction j as [|j IHj]; intros i acc Hij; simpl; [reflexivity|].
    rewrite IHj by lia. replace (Nat.max m (i + 1)) with m by lia. lia. }
  apply G. lia.
Qed.

Lemma sum_upto_ext (n : nat) (f g : nat -> nat) :
  (forall t, t < n -> f t = g t) -> sum_upto n f = sum_upto n g.
Proof.
  induction n as [|n IH]; intros H; simpl; [reflexivity|].
  rewrite IH, H by (intros; try apply H; lia). reflexivity.
Qed.

Lemma sum_upto_linear (n a : nat) (f g : nat -> nat) :
  sum_upto n (fun t => a * f t + g t) = a * sum_upto n f + sum_upto n g.
Proof. induction n as [|n IH]; simpl; [lia | rewrite IH; lia]. Qed.

Lemma sum_upto_indicator (n m : nat) :
  sum_upto n (fun t => if m =? t then 1 else 0) = if m <? n then 1 else 0.
Proof.
  induction n as [|n IH]; simpl; [reflexivity|]. rewrite IH.
  destruct (Nat.ltb_spec m n), (Nat.eqb_spec m n), (Nat.ltb_spec m (S n)); lia.
Qed.

Lemma count_tails_zero (k m t : nat) : t < m -> count_tails k m t = 0.
Proof.
  revert m. induction k as [|k IH]; intros m H; simpl.
  - destruct (Nat.eqb_spec m t); [lia | reflexivity].
  - rewrite !IH by lia. lia.
Qed.

Lemma length_rgs_tails (k m n : nat) :
  k + m < n -> length (rgs_tails k m) = sum_upto n (count_tails k m).
Proof.
  revert m. induction k as [|k IH]; intros m H.
  - simpl count_tails. rewrite sum_upto_indicator.
    destruct (Nat.ltb_spec m n); [reflexivity | lia].
  - rewrite length_rgs_tails_S. cbn [count_tails].
    rewrite sum_upto_linear, <- !IH by lia. reflexivity.
Qed.

(** Counting by the last position instead of the first gives the
    recurrence of the Stirling numbers. *)
Lemma count_tails_last (k m t : nat) :
  count_tails (S k) m (S t) =
  S t * count_tails k m (S t) + count_tails k m t.
Proof.
  revert m. induction k as [|k IH]; intros m.
  - simpl. destruct (Nat.eqb_spec m (S t)), (Nat.eqb_spec m t),
      (Nat.eqb_spec (S m) (S t)); subst; lia.
  - pose proof (IH m) as H1. pose proof (IH (S m)) as H2.
    cbn [count_tails] in *. nia.
Qed.

Lemma stirling2_count_tails (n t : nat) : stirling2 n t = count_tails n 0 t.
Proof.
  revert t. induction n as [|n IH]; intros [|t]; try reflexivity.
  - simpl. symmetry. apply count_tails_zero. lia.
  - rewrite count_tails_last, <- !IH. reflexivity.
Qed.

Lemma length_restricted_growth_strings (n : nat) :
  length (restricted_growth_strings n) = bell n.
Proof.
  unfold restricted_growth_strings, bell.
  rewrite (length_rgs_tails n 0 (S n)) by lia.
  apply sum_upto_ext. intros t _. symmetry. apply stirling2_count_tails.
Qed.


(** *** Restricted growth strings by their entries *)

Lemma bound_after_cons (m x : nat) (p : list nat) :
  bound_after m (x :: p) = bound_after (Nat.max m (x + 1)) p.
Proof. reflexivity. Qed.

Lemma bound_after_list_max (p : list nat) (m : nat) :
  bound_after m p = Nat.max m (list_max (map S p)).
Proof.
  revert m. induction p as [|x p IH]; intros m.
  - unfold bound_after. cbn [fold_left map]. change (list_max []) with 0. lia.
  - rewrite bound_after_cons, IH. cbn [map].
    change (list_max (S x :: map S p))
      with (Nat.max (S x) (list_max (map S p))). lia.
Qed.

Lemma is_rgs_from_entries (s : list nat) (m : nat) :
  is_rgs_from m s <->
  forall i, i < length s -> nth i s 0 <= bound_after m (firstn i s).
Proof.
  revert m. induction s as [|x s IH]; intros m; simpl.
  - split; [intros _ i Hi; lia | auto].
  - rewrite IH. split.
    + intros [Hx Hs] [|i] Hi; [exact Hx|].
      cbn [nth firstn]. rewrite bound_after_cons. apply Hs. lia.
    + intros Hall. split.
      * apply (Hall 0). lia.
      * intros i Hi. specialize (Hall (S i)). cbn [nth firstn] in Hall.
        rewrite bound_after_cons in Hall. apply Hall. lia.
Qed.

(** A string is a restricted growth string when [a[0] = 0] and
    [a[i] <= 1 + max(a[0..i-1])]. *)
Lemma is_rgs_entries (s : list nat) :
  is_rgs s <->
  forall i, i < length s ->
            nth i s 0 <= match i with
                         | 0 => 0
                         | S _ => 1 + list_max (firstn i s)
                         end.
Proof.
  unfold is_rgs. rewrite is_rgs_from_entries.
  assert (E : forall i, i < length s ->
                        bound_after 0 (firstn i s) =
                        match i with
                        | 0 => 0
                        | S _ => 1 + list_max (firstn i s)
                        end).
  { intros [|i] Hi; [reflexivity|]. rewrite bound_after_list_max.
    destruct s as [|x s]; [simpl in Hi; lia|]. cbn [firstn map].
    change (list_max (S x :: map S (firstn i s)))
      with (Nat.max (S x) (list_max (map S (firstn i s)))).
    change (list_max (x :: firstn i s))
      with (Nat.max x (list_max (firstn i s))).
    assert (G : forall l, list_max (map S l) <= S (list_max l)).
    { induction l as [|y l IHl]; [simpl; lia|]. cbn [map].
      change (list_max (S y :: map S l))
        with (Nat.max (S y) (list_max (map S l))).
      change (list_max (y :: l)) with (Nat.max y (list_max l)). lia. }
    assert (G' : forall l, l <> [] -> S (list_max l) <= list_max (map S l)).
    { induction l as [|y l IHl]; [congruence|]. intros _. cbn [map].
      change (list_max (S y :: map S l))
        with (Nat.max (S y) (list_max (map S l))).
      change (list_max (y :: l)) with (Nat.max y (list_max l)).
      destruct l as [|z l]; [simpl; lia|].
      assert (z :: l <> []) by discriminate. specialize (IHl H). lia. }
    pose proof (G (firstn i s)).
    destruct (firstn i s) as [|z l] eqn:El; [simpl; lia|].
    assert (Hne : z :: l <> []) by discriminate.
    pose proof (G' _ Hne). lia. }
  split; intros Hall i Hi; specialize (Hall i Hi);
    rewrite E in * by assumption; exact Hall.
Qed.

(** *** The blocks of a string form a partition *)

Lemma unique_labels_NoDup (s : list nat) : NoDup (unique_labels s).
Proof. unfold unique_labels. apply NoDup_filter, seq_NoDup. Qed.

Lemma unique_labels_In (s : list nat) (v : nat) :
  In v (unique_labels s) <-> In v s.
Proof.
  unfold unique_labels. rewrite filter_In, in_seq, existsb_exists. split.
  - intros (_ & a & Ha & E). apply Nat.eqb_eq in E. now subst.
  - intros Hv. split.
    + pose proof (list_max_le s (list_max s)) as [Hle _].
      specialize (Hle (Nat.le_refl _)). rewrite Forall_forall in Hle.
      specialize (Hle v Hv). lia.
    + exists v. split; [exact Hv | apply Nat.eqb_refl].
Qed.

Lemma concat_blocks_one {A : Type} (x : A) (a : nat) (B : nat -> list A)
      (L : list nat) :
  NoDup L -> In a L ->
  Permutation
    (concat (map (fun v => (if a =? v then [x] else []) ++ B v) L))
    (x :: concat (map B L)).
Proof.
  intros ND. induction ND as [|v L Hv ND IH]; intros Ha; [destruct Ha|].
  cbn [map concat]. destruct (Nat.eqb_spec a v) as [->|Hne].
  - cbn [app]. constructor. apply Permutation_app_head.
    assert (E : map (fun v0 => (if v =? v0 then [x] else []) ++ B v0) L =
                map B L).
    { apply map_ext_in. intros u Hu.
      destruct (Nat.eqb_spec v u) as [->|_]; [contradiction | reflexivity]. }
    now rewrite E.
  - destruct Ha as [->|Ha]; [contradiction|]. cbn [app].
    rewrite (IH Ha). symmetry. apply Permutation_middle.
Qed.

Lemma concat_blocks_cover {A : Type} (set_ : list A) :
  forall (s L : list nat),
    length s = length set_ -> NoDup L -> (forall a, In a s -> In a L) ->
    Permutation
      (concat (map (fun v => mask_select set_ (map (fun a => a =? v) s)) L))
      set_.
Proof.
  induction set_ as [|x set_ IH]; intros [|a s] L Hlen ND Hin;
    try discriminate.
  - assert (E : concat (map (fun _ : nat => @nil A) L) = []).
    { clear. induction L; simpl; auto. }
    simpl. rewrite E. constructor.
  - cbn [map mask_select].
    assert (E : map (fun v => match a =? v with
                              | true => x :: mask_select set_
                                              (map (fun a0 => a0 =? v) s)
                              | false => mask_select set_
                                           (map (fun a0 => a0 =? v) s)
                              end) L =
                map (fun v => (if a =? v then [x] else [])
                              ++ mask_select set_ (map (fun a0 => a0 =? v) s))
                    L).
    { apply map_ext. intros v. now destruct (a =? v). }
    rewrite E, concat_blocks_one by (auto; apply Hin; now left).
    constructor. apply IH; [simpl in Hlen; lia | assumption |].
    intros b Hb. apply Hin. now right.
Qed.

(** The blocks of a string divide the set: together they hold every
    entry of the set exactly once, and no block is empty. *)
Lemma blocks_of_partition {A : Type} (set_ : list A) (s : list nat) :
  length s = length set_ ->
  Permutation (concat (blocks_of set_ s)) set_
  /\ Forall (fun b => b <> []) (blocks_of set_ s).
Proof.
  intros Hlen. split.
  - unfold blocks_of. apply concat_blocks_cover;
      [assumption | apply unique_labels_NoDup |].
    intros a Ha. now apply unique_labels_In.
  - unfold blocks_of. apply Forall_forall. intros b Hb.
    apply in_map_iff in Hb. destruct Hb as (v & <- & Hv).
    apply -> unique_labels_In in Hv. clear -Hlen Hv.
    revert s Hlen Hv. induction set_ as [|x set_ IH]; intros [|a s] Hlen Hv;
      try discriminate; [destruct Hv|].
    cbn [map mask_select]. destruct (Nat.eqb_spec a v) as [->|Hne];
      [discriminate|].
    destruct Hv as [->|Hv]; [contradiction|].
    apply IH; [simpl in Hlen; lia | assumption].
Qed.

(** Every partition in [set_partitions] is one. *)
Lemma set_partitions_partition {A : Type} (set_ : list A)
      (p : list (list A)) :
  In p (set_partitions set_) ->
  Permutation (concat p) set_ /\ Forall (fun b => b <> []) p.
Proof.
  unfold set_partitions. intros Hp. apply in_map_iff in Hp.
  destruct Hp as (s & <- & Hs). apply in_restricted_growth_strings in Hs.
  apply blocks_of_partition. tauto.
Qed.


(** ** Row deduplication *)

(** The items of the view are the rows of a table with columns; a table
    without columns has none. *)
Lemma void_view_items (n : nat) (arr : table) :
  Forall (fun r => length r = n) arr -> 1 <= n ->
  concat (void_view arr) = arr.
Proof.
  intros Hw Hn.
  assert (E : void_view arr = map (fun r => [r]) arr).
  { destruct arr as [|[|z r] arr]; try reflexivity.
    apply Forall_inv in Hw. simpl in Hw. lia. }
  rewrite E. clear. induction arr as [|r arr IH]; [reflexivity|].
  cbn [map concat app]. now rewrite IH.
Qed.

Lemma void_view_no_columns (arr : table) :
  Forall (fun r => length r = 0) arr -> concat (void_view arr) = [].
Proof.
  intros Hw. destruct arr as [|r arr]; [reflexivity|].
  pose proof (Forall_inv Hw) as Hr. cbn beta in Hr.
  apply length_zero_iff_nil in Hr. subst r.
  change (void_view ([] :: arr)) with (map (fun _ : row => @nil row) ([] :: arr)).
  generalize (@nil Z :: arr). intros l.
  induction l as [|x l IH]; [reflexivity | exact IH].
Qed.

Lemma void_view_cases (arr : table) :
  concat (void_view arr) = [] \/ concat (void_view arr) = arr.
Proof.
  destruct arr as [|[|z r] arr]; [now left | left | right].
  - change (void_view ([] :: arr))
      with (map (fun _ : row => @nil row) ([] :: arr)).
    generalize (@nil Z :: arr). intros l.
    induction l as [|x l IH]; [reflexivity | exact IH].
  - change (void_view ((z :: r) :: arr))
      with (map (fun r : row => [r]) ((z :: r) :: arr)).
    assert (G : forall l : table, concat (map (fun r : row => [r]) l) = l).
    { induction l as [|x l IH]; [reflexivity|].
      cbn [map concat app]. now rewrite IH. }
    apply G.
Qed.

(** Whatever the comparison, the sort permutes the indices and the rows
    returned are rows of the table. *)
Section AnyComparison.
Variable cmp : row -> row -> Z.
Variable arr : table.

Lemma insert_index_perm_any (i : nat) (l : list nat) :
  Permutation (insert_index cmp arr i l) (i :: l).
Proof.
  induction l as [|j l IH]; simpl; [reflexivity|].
  destruct (cmp (row_at arr j) (row_at arr i) <? 0)%Z; [|reflexivity].
  rewrite IH. apply perm_swap.
Qed.

Lemma argsort_perm_any : Permutation (argsort cmp arr) (seq 0 (length arr)).
Proof.
  unfold argsort. induction (seq 0 (length arr)) as [|i l IH]; simpl.
  - reflexivity.
  - rewrite insert_index_perm_any. now constructor.
Qed.

Lemma run_heads_incl_any (prev : option row) (l : list nat) (h : nat) :
  In h (run_heads cmp arr prev l) -> In h l.
Proof.
  revert prev. induction l as [|i l IH]; intros prev; simpl; [auto|].
  intros H. apply in_app_or in H. destruct H as [H|H].
  - destruct (match prev with
              | Some p => negb (cmp p (row_at arr i) =? 0)%Z
              | None => true
              end); simpl in H; tauto.
  - right. eapply IH; eauto.
Qed.

Lemma unique_rows_sound_any (r : row) :
  In r (unique_rows cmp arr) -> In r arr.
Proof.
  unfold unique_rows. destruct (void_view_cases arr) as [-> | ->];
    [intros []|].
  unfold take_rows, unique_index. intros H.
  apply in_map_iff in H. destruct H as (i & <- & Hi).
  apply run_heads_incl_any in Hi.
  apply (Permutation_in _ argsort_perm_any), in_seq in Hi.
  apply nth_In. lia.
Qed.

End AnyComparison.

Lemma unique_rows_no_columns (cmp : row -> row -> Z) (arr : table) :
  Forall (fun r => length r = 0) arr -> unique_rows cmp arr = [].
Proof.
  intros Hw. unfold unique_rows. now rewrite void_view_no_columns.
Qed.

Section UniqueRows.
Context {n : nat} {O : RowOrder n}.
Variable arr : table.
Hypothesis arr_width : Forall (fun r => length r = n) arr.


Lemma key_width (i : nat) : i < length arr -> length (row_at arr i) = n.
Proof.
  intros H. rewrite Forall_forall in arr_width.
  apply arr_width, nth_In, H.
Qed.

Lemma row_lt_irrefl (a : row) : length a = n -> ~ row_lt a a.
Proof.
  intros Ha H. unfold row_lt in H.
  assert (cmp a a = 0%Z) by (apply cmp_eq; auto). lia.
Qed.

Lemma not_row_lt_le (a b : row) :
  length a = n -> length b = n -> ~ row_lt b a -> row_le a b.
Proof.
  intros Ha Hb H. destruct (list_eq_dec Z.eq_dec a b) as [E|E]; [now left|].
  right. destruct (cmp_total a b Ha Hb E); [assumption | contradiction].
Qed.

Lemma row_le_trans (a b c : row) :
  length a = n -> length b = n -> length c = n ->
  row_le a b -> row_le b c -> row_le a c.
Proof.
  intros Ha Hb Hc [->|H1] [->|H2]; try (now left); try (now right).
  right. apply (cmp_trans a b c); auto.
Qed.

Lemma row_lt_le_trans (a b c : row) :
  length a = n -> length b = n -> length c = n ->
  row_lt a b -> row_le b c -> row_lt a c.
Proof.
  intros Ha Hb Hc H1 [<-|H2]; [assumption|]. apply (cmp_trans a b c); auto.
Qed.

(** *** The stable sort *)

Lemma insert_index_perm (i : nat) (l : list nat) :
  Permutation (insert_index cmp arr i l) (i :: l).
Proof. apply insert_index_perm_any. Qed.

Lemma argsort_perm : Permutation (argsort cmp arr) (seq 0 (length arr)).
Proof. apply argsort_perm_any. Qed.

Lemma argsort_valid : Forall (fun i => i < length arr) (argsort cmp arr).
Proof.
  apply Forall_forall. intros i Hi.
  apply (Permutation_in _ argsort_perm), in_seq in Hi. lia.
Qed.

Lemma insert_index_sorted (i : nat) (l : list nat) :
  i < length arr -> Forall (fun i => i < length arr) l ->
  StronglySorted (fun a b => row_le (row_at arr a) (row_at arr b)) l ->
  StronglySorted (fun a b => row_le (row_at arr a) (row_at arr b)) (insert_index cmp arr i l).
Proof.
  intros Hi Hl Hs. induction l as [|j l IH]; simpl.
  - repeat constructor.
  - inversion Hl as [|? ? Hj Hl']; subst.
    inversion Hs as [|? ? Hs' Hall]; subst.
    destruct (Z.ltb_spec (cmp (row_at arr j) (row_at arr i)) 0) as [Hlt|Hge].
    + constructor; [now apply IH|].
      apply Forall_forall. intros x Hx.
      apply (Permutation_in _ (insert_index_perm i l)) in Hx.
      destruct Hx as [<-|Hx]; [now right|].
      rewrite Forall_forall in Hall. now apply Hall.
    + assert (Hij : row_le (row_at arr i) (row_at arr j)).
      { apply not_row_lt_le; try now apply key_width.
        unfold row_lt. lia. }
      constructor; [assumption|]. constructor; [assumption|].
      apply Forall_forall. intros x Hx.
      rewrite Forall_forall in Hall, Hl'.
      apply (row_le_trans (row_at arr i) (row_at arr j) (row_at arr x));
        [now apply key_width | now apply key_width
         | now apply key_width, Hl' | exact Hij | now apply Hall].
Qed.

Lemma argsort_sorted :
  StronglySorted (fun a b => row_le (row_at arr a) (row_at arr b)) (argsort cmp arr).
Proof.
  assert (G : forall l, Forall (fun i => i < length arr) l ->
            StronglySorted (fun a b => row_le (row_at arr a) (row_at arr b))
                           (fold_right (insert_index cmp arr) [] l) /\
            Forall (fun i => i < length arr) (fold_right (insert_index cmp arr) [] l)).
  { induction l as [|i l IH]; intros Hl; simpl.
    - split; constructor.
    - inversion Hl; subst. destruct IH as [IH1 IH2]; [assumption|]. split.
      + now apply insert_index_sorted.
      + apply Forall_forall. intros x Hx.
        apply (Permutation_in _ (insert_index_perm i _)) in Hx.
        rewrite Forall_forall in IH2. destruct Hx as [<-|Hx]; auto. }
  apply G, Forall_forall. intros i Hi. apply in_seq in Hi. lia.
Qed.

(** *** The heads of the runs *)

Lemma run_heads_incl (prev : option row) (l : list nat) (h : nat) :
  In h (run_heads cmp arr prev l) -> In h l.
Proof. apply run_heads_incl_any. Qed.

Lemma run_heads_cover (prev : option row) (l : list nat) (i : nat) :
  Forall (fun i => i < length arr) l ->
  match prev with Some p => length p = n | None => True end ->
  In i l ->
  (exists h, In h (run_heads cmp arr prev l) /\ row_at arr h = row_at arr i) \/
  prev = Some (row_at arr i).
Proof.
  intros Hl. revert prev. induction Hl as [|j l Hj Hl IH]; intros prev Hp Hi.
  - destruct Hi.
  - assert (Hhead : (exists h, In h (run_heads cmp arr prev (j :: l)) /\
                               row_at arr h = row_at arr j) \/ prev = Some (row_at arr j)).
    { simpl. destruct prev as [p|].
      - destruct (Z.eqb_spec (cmp p (row_at arr j)) 0) as [E|E]; simpl.
        + right. f_equal. apply cmp_eq in E; auto using key_width.
        + left. exists j. auto.
      - left. exists j. simpl. auto. }
    destruct Hi as [<-|Hi]; [exact Hhead|].
    destruct (IH (Some (row_at arr j)) (key_width j Hj) Hi) as [(h & Hh & E)|E].
    + left. exists h. split; [|exact E]. simpl. apply in_or_app. now right.
    + injection E as E. simpl in E. rewrite <- E. exact Hhead.
Qed.

Lemma run_heads_sorted (p : row) (l : list nat) :
  length p = n -> Forall (fun i => i < length arr) l ->
  StronglySorted (fun a b => row_le (row_at arr a) (row_at arr b)) l ->
  Forall (fun i => row_le p (row_at arr i)) l ->
  StronglySorted (fun a b => row_lt (row_at arr a) (row_at arr b))
                 (run_heads cmp arr (Some p) l) /\
  Forall (fun h => row_lt p (row_at arr h)) (run_heads cmp arr (Some p) l).
Proof.
  intros Hp Hl. revert p Hp. induction Hl as [|j l Hj Hl IH]; intros p Hp Hs Hle.
  - simpl. split; constructor.
  - apply StronglySorted_inv in Hs. destruct Hs as [Hs' Hall].
    pose proof (Forall_inv Hle) as Hpj. simpl in Hpj.
    destruct (IH (row_at arr j) (key_width j Hj) Hs' Hall) as [IH1 IH2].
    simpl. destruct (Z.eqb_spec (cmp p (row_at arr j)) 0) as [E|E]; simpl.
    + apply cmp_eq in E; auto using key_width. subst p. split; assumption.
    + assert (Hlt : row_lt p (row_at arr j)).
      { destruct Hpj as [->|H]; [|exact H].
        exfalso. apply E. apply cmp_eq; auto. }
      split.
      * constructor; assumption.
      * constructor; [exact Hlt|].
        rewrite Forall_forall in IH2 |- *. intros h Hh.
        assert (h < length arr).
        { rewrite Forall_forall in Hl. apply Hl.
          eapply run_heads_incl; eauto. }
        apply row_lt_le_trans with (row_at arr j); auto using key_width.
        right. now apply IH2.
Qed.

Lemma unique_index_sorted :
  StronglySorted (fun a b => row_lt (row_at arr a) (row_at arr b)) (unique_index cmp arr).
Proof.
  unfold unique_index.
  pose proof argsort_sorted as Hs. pose proof argsort_valid as Hv.
  destruct (argsort cmp arr) as [|j l]; simpl; [constructor|].
  apply StronglySorted_inv in Hs. destruct Hs as [Hs' Hall].
  pose proof (Forall_inv Hv) as Hj. pose proof (Forall_inv_tail Hv) as Hl.
  simpl in Hj.
  destruct (run_heads_sorted (row_at arr j) l) as [H1 H2];
    auto using key_width.
  constructor; assumption.
Qed.

(** *** The three properties of the result *)

Lemma unique_rows_columns :
  1 <= n -> unique_rows cmp arr = take_rows arr (unique_index cmp arr).
Proof.
  intros Hn. unfold unique_rows. now rewrite (void_view_items n).
Qed.

Lemma unique_rows_cases :
  unique_rows cmp arr = [] \/
  unique_rows cmp arr = take_rows arr (unique_index cmp arr).
Proof.
  destruct (Nat.eq_dec n 0) as [E|E].
  - left. apply unique_rows_no_columns.
    eapply Forall_impl; [|exact arr_width]. cbn beta. intros r Hr. lia.
  - right. apply unique_rows_columns. lia.
Qed.

Lemma unique_rows_sound (r : row) :
  In r (unique_rows cmp arr) -> In r arr.
Proof. apply unique_rows_sound_any. Qed.

Lemma unique_rows_complete (r : row) :
  1 <= n -> In r arr -> In r (unique_rows cmp arr).
Proof.
  intros Hn H. destruct (In_nth _ _ [] H) as (i & Hi & <-).
  assert (Hin : In i (argsort cmp arr)).
  { apply (Permutation_in _ (Permutation_sym argsort_perm)), in_seq.
    split; [apply Nat.le_0_l | exact Hi]. }
  destruct (run_heads_cover None (argsort cmp arr) i argsort_valid I Hin)
    as [(h & Hh & E)|E]; [|discriminate].
  rewrite (unique_rows_columns Hn).
  unfold take_rows, unique_index. apply in_map_iff.
  exists h. split; [exact E | exact Hh].
Qed.

Lemma unique_rows_NoDup : NoDup (unique_rows cmp arr).
Proof.
  destruct unique_rows_cases as [->| ->]; [constructor|].
  unfold take_rows.
  pose proof unique_index_sorted as Hs.
  assert (Hv : Forall (fun i => i < length arr) (unique_index cmp arr)).
  { apply Forall_forall. intros h Hh. apply run_heads_incl in Hh.
    pose proof argsort_valid as Hv. rewrite Forall_forall in Hv. auto. }
  induction Hs as [|h l Hs IH Hall]; simpl; [constructor|].
  inversion Hv; subst. constructor; [|now apply IH].
  intros Hin. apply in_map_iff in Hin. destruct Hin as (x & E & Hx).
  rewrite Forall_forall in Hall. specialize (Hall x Hx). simpl in Hall.
  rewrite E in Hall. eapply row_lt_irrefl; [|exact Hall].
  now apply key_width.
Qed.

End UniqueRows.


(** *** The order of [_Row.__cmp__] *)

Lemma nonzero_from_shift (mask : list bool) (i : nat) :
  nonzero_from (S i) mask = map S (nonzero_from i mask).
Proof.
  revert i. induction mask as [|c mask IH]; intros i; simpl; [reflexivity|].
  destruct c; simpl; now rewrite IH.
Qed.

Lemma Row_cmp_lex (a b : row) : Row_cmp a b = lex_cmp a b.
Proof.
  unfold Row_cmp, Row_cmp_of. revert b. induction a as [|x a IH]; intros [|y b];
    try reflexivity.
  cbn [combine forallb map fst snd lex_cmp].
  destruct (Z.eqb_spec x y) as [->|Hne]; cbn [andb negb].
  - rewrite <- IH. unfold nonzero. cbn [nonzero_from].
    destruct (forallb (fun p => (fst p =? snd p)%Z) (combine a b)) eqn:E;
      [reflexivity|].
    rewrite nonzero_from_shift.
    destruct (nonzero_from 0
                (map (fun p => negb (fst p =? snd p)%Z) (combine a b)))
      as [|k ks] eqn:Ek.
    + exfalso. clear IH. revert b E Ek.
      induction a as [|u a IHa]; intros [|v b] E Ek; try discriminate.
      simpl in E, Ek. destruct (u =? v)%Z; simpl in *; [|discriminate].
      rewrite nonzero_from_shift in Ek.
      destruct (nonzero_from 0
                  (map (fun p => negb (fst p =? snd p)%Z) (combine a b)))
        eqn:Ek'; [|discriminate].
      eapply IHa; eauto.
    + reflexivity.
  - reflexivity.
Qed.

Lemma lex_cmp_eq (a b : row) :
  length a = length b -> (lex_cmp a b = 0%Z <-> a = b).
Proof.
  revert b. induction a as [|x a IH]; intros [|y b] H; simpl in *;
    try discriminate; [tauto|].
  destruct (Z.eqb_spec x y) as [->|Hne].
  - rewrite IH by lia. split; [now intros -> | now intros [= ->]].
  - destruct (x >? y)%Z; split; try discriminate; intros [= E _];
      contradiction.
Qed.

Lemma lex_cmp_trans (a b c : row) :
  (lex_cmp a b < 0)%Z -> (lex_cmp b c < 0)%Z -> (lex_cmp a c < 0)%Z.
Proof.
  revert b c. induction a as [|x a IH]; intros [|y b] [|z c]; simpl; try lia.
  destruct (Z.eqb_spec x y) as [E1|E1], (Z.eqb_spec y z) as [E2|E2],
    (Z.eqb_spec x z) as [E3|E3]; try (exfalso; congruence);
    try apply IH;
    destruct (Z.gtb_spec x y), (Z.gtb_spec y z), (Z.gtb_spec x z); lia.
Qed.

Lemma lex_cmp_total (a b : row) :
  length a = length b -> a <> b ->
  (lex_cmp a b < 0)%Z \/ (lex_cmp b a < 0)%Z.
Proof.
  revert b. induction a as [|x a IH]; intros [|y b] H Hne; simpl in *;
    try discriminate; [contradiction|].
  destruct (Z.eqb_spec x y) as [->|Hxy].
  - rewrite Z.eqb_refl. apply IH; [lia|]. intros ->. now apply Hne.
  - destruct (Z.eqb_spec y x); [congruence|].
    destruct (Z.gtb_spec x y), (Z.gtb_spec y x); lia.
Qed.

(** [_Row.__cmp__] orders the rows of any one width. *)
#[export] Instance Row_order (n : nat) : RowOrder n.
Proof.
  refine {| cmp := Row_cmp |}.
  - intros a b Ha Hb. rewrite Row_cmp_lex. apply lex_cmp_eq. congruence.
  - intros a b c _ _ _. rewrite !Row_cmp_lex. apply lex_cmp_trans.
  - intros a b Ha Hb. rewrite !Row_cmp_lex. apply lex_cmp_total. congruence.
Defined.


(** *** The branch for numpy 1.6.2 *)



Lemma take_items_nonzero {A : Type} (l : list A) :
  forall (mask : list bool) (pre : list A),
    length mask <= length l ->
    take_items (pre ++ l) (nonzero_from (length pre) mask) =
    Ok (mask_select l mask).
Proof.
  induction l as [|x l IH]; intros [|c mask] pre Hlen; try reflexivity.
  - simpl in Hlen. lia.
  - simpl in Hlen.
    assert (E : pre ++ x :: l = (pre ++ [x]) ++ l) by now rewrite <- app_assoc.
    assert (El : S (length pre) = length (pre ++ [x]))
      by (rewrite length_app; simpl; lia).
    destruct c; cbn [nonzero_from mask_select take_items].
    + unfold get_item. rewrite nth_error_app2, Nat.sub_diag by lia.
      cbn [nth_error bind]. rewrite E, El, IH by lia. reflexivity.
    + rewrite E, El, IH by lia. reflexivity.
Qed.




(** ** The incomplete Bell polynomial *)

Section BellPolynomial.
Context {F : Type} `{Float F}.

Lemma vzip_map {A : Type} (f : F -> F -> F) (g1 g2 : A -> F) (l : list A) :
  vzip f (map g1 l) (map g2 l) = map (fun r => f (g1 r) (g2 r)) l.
Proof.
  unfold vzip. induction l as [|r l IH]; simpl; [reflexivity|].
  now rewrite IH.
Qed.

Lemma vscale_map {A : Type} (g : A -> F) (c : F) (l : list A) :
  vscale (map g l) c = map (fun r => fmul (g r) c) l.
Proof. unfold vscale. apply map_map. Qed.

Lemma repeat_map_const {A B : Type} (c : B) (l : list A) :
  repeat c (length l) = map (fun _ => c) l.
Proof. induction l as [|r l IH]; simpl; [reflexivity | now rewrite IH]. Qed.

Lemma fold_left_ext_in {A B : Type} (f g : A -> B -> A) (l : list B) (a : A) :
  (forall acc m, In m l -> f acc m = g acc m) ->
  fold_left f l a = fold_left g l a.
Proof.
  revert a. induction l as [|m l IH]; intros a Hfg; simpl; [reflexivity|].
  rewrite Hfg by now left. apply IH. intros; apply Hfg; now right.
Qed.

(** The loop of the source, run on arrays, computes row by row what the
    loop of the recurrence computes. *)
Lemma bell_loop_rowwise (x : array2 F) (n k' : nat) (l : list nat)
      (g : list F -> F) :
  (forall m, In m l ->
     m < shape1 x /\
     incomplete_bell_poly (n - (m + 1)) k' x =
     Ok (map (bell_poly k' (n - (m + 1))) (rows x))) ->
  fold_left
    (fun acc m =>
       result <- acc ;;
       col <- column x m ;;
       rec <- incomplete_bell_poly (n - (m + 1)) k' x ;;
       Ok (vzip fadd result (vzip fmul (vscale col (binom (n - 1) m)) rec)))
    l (Ok (map g (rows x))) =
  Ok (map (fun xs =>
             fold_left
               (fun acc m =>
                  fadd acc (fmul (fmul (nth m xs fzero) (binom (n - 1) m))
                                 (bell_poly k' (n - (m + 1)) xs)))
               l (g xs))
          (rows x)).
Proof.
  revert g. induction l as [|m l IH]; intros g Hl; [reflexivity|].
  cbn [fold_left]. destruct (Hl m (or_introl eq_refl)) as [Hm Hrec].
  cbn [bind]. unfold column. apply Nat.ltb_lt in Hm. rewrite Hm.
  cbn [bind]. rewrite Hrec. cbn [bind].
  rewrite vscale_map, !vzip_map.
  apply IH. intros m' Hm'. apply Hl. now right.
Qed.

Lemma fold_left_seq_shift {A : Type} (f : A -> nat -> A) (len : nat) (a : A) :
  fold_left f (seq 1 len) a = fold_left (fun acc m => f acc (S m)) (seq 0 len) a.
Proof.
  rewrite <- seq_shift. generalize (seq 0 len) as l. intros l. revert a.
  induction l as [|m l IH]; intros a; simpl; [reflexivity | apply IH].
Qed.

Lemma incomplete_bell_poly_rowwise (k : nat) :
  forall (n : nat) (x : array2 F),
    (1 <= k -> 1 <= n -> S n - k <= shape1 x) ->
    incomplete_bell_poly n k x = Ok (map (bell_poly k n) (rows x)).
Proof.
  induction k as [|k' IH]; intros n x Hcols.
  - simpl. destruct (n =? 0); f_equal; apply repeat_map_const.
  - cbn [incomplete_bell_poly bell_poly].
    destruct (Nat.eqb_spec n 0) as [->|Hn].
    + f_equal. apply repeat_map_const.
    + rewrite repeat_map_const.
      rewrite (bell_loop_rowwise x n k' (seq 0 (S n - S k')) (fun _ => fzero)).
      * f_equal. apply map_ext. intros xs.
        rewrite fold_left_seq_shift. apply fold_left_ext_in.
        intros acc m _. rewrite Nat.sub_succ, Nat.sub_0_r.
        now rewrite Nat.add_1_r.
      * intros m Hm. apply in_seq in Hm. split; [lia|].
        apply IH. intros. assert (1 <= S k') by lia. lia.
Qed.

(** Only the first [n - k + 1] entries of a row matter. *)
Lemma bell_poly_prefix (k : nat) :
  forall (n : nat) (xs ys : list F),
    (forall i, i < S n - k -> nth i xs fzero = nth i ys fzero) ->
    bell_poly k n xs = bell_poly k n ys.
Proof.
  induction k as [|k' IH]; intros n xs ys Hxy; [reflexivity|].
  cbn [bell_poly]. destruct (n =? 0); [reflexivity|].
  apply fold_left_ext_in. intros acc m Hm. apply in_seq in Hm.
  rewrite Hxy by lia. f_equal. f_equal. apply IH.
  intros i Hi. apply Hxy. lia.
Qed.

Lemma bell_poly_truncate (k n c : nat) (xs : list F) :
  S n - k <= c -> bell_poly k n (firstn c xs) = bell_poly k n xs.
Proof.
  intros Hc. apply bell_poly_prefix. intros i Hi.
  rewrite nth_firstn. destruct (Nat.ltb_spec i c); [reflexivity | lia].
Qed.

End BellPolynomial.


(** ** Hyperparameters *)

Lemma count_true_app (m1 m2 : list bool) :
  count_true (m1 ++ m2) = count_true m1 + count_true m2.
Proof. unfold count_true. now rewrite filter_app, length_app. Qed.

Lemma count_true_cons (b : bool) (m : list bool) :
  count_true (b :: m) = (if b then 1 else 0) + count_true m.
Proof. unfold count_true. destruct b; reflexivity. Qed.

Lemma mask_select_length {A : Type} (l : list A) (mask : list bool) :
  length l = length mask -> length (mask_select l mask) = count_true mask.
Proof.
  revert mask. induction l as [|x l IH]; intros [|b mask] Hlen;
    try discriminate; [reflexivity|].
  rewrite count_true_cons. simpl in Hlen. destruct b; simpl; rewrite IH; lia.
Qed.

Lemma mask_select_app {A : Type} (l1 l2 : list A) (m1 m2 : list bool) :
  length l1 = length m1 ->
  mask_select (l1 ++ l2) (m1 ++ m2) = mask_select l1 m1 ++ mask_select l2 m2.
Proof.
  revert m1. induction l1 as [|x l1 IH]; intros [|b m1] Hlen;
    try discriminate; [reflexivity|].
  simpl in *. destruct b; simpl; rewrite IH by lia; reflexivity.
Qed.

Lemma scatter_length {A : Type} (l : list A) (mask : list bool) (v : list A) :
  length (scatter l mask v) = length l.
Proof.
  revert mask v. induction l as [|x l IH]; intros [|b mask] v;
    try reflexivity.
  destruct b; [destruct v|]; simpl; now rewrite IH.
Qed.

(** Reading the selected positions back gives what was written. *)
Lemma mask_select_scatter {A : Type} (l : list A) (mask : list bool)
      (v : list A) :
  length l = length mask -> length v = count_true mask ->
  mask_select (scatter l mask v) mask = v.
Proof.
  revert mask v. induction l as [|x l IH]; intros [|b mask] v Hlen Hv;
    try discriminate.
  - destruct v; [reflexivity | discriminate].
  - rewrite count_true_cons in Hv. simpl in Hlen.
    destruct b; [destruct v as [|y v]; [discriminate|]|]; simpl.
    + f_equal. apply IH; simpl in Hv; lia.
    + apply IH; simpl in Hv; lia.
Qed.

(** The positions that are not selected keep their values. *)
Lemma scatter_unselected {A : Type} (l : list A) (mask : list bool)
      (v : list A) (i : nat) :
  nth_error mask i <> Some true ->
  nth_error (scatter l mask v) i = nth_error l i.
Proof.
  revert mask v i. induction l as [|x l IH]; intros [|b mask] v i Hi;
    try reflexivity.
  destruct i as [|i].
  - destruct b; [exfalso; now apply Hi | reflexivity].
  - simpl in Hi. destruct b; [destruct v|]; simpl; now apply IH.
Qed.

Lemma scatter_app {A : Type} (l1 l2 : list A) (m1 m2 : list bool)
      (v : list A) :
  length l1 = length m1 ->
  scatter (l1 ++ l2) (m1 ++ m2) v =
  scatter l1 m1 (firstn (count_true m1) v)
  ++ scatter l2 m2 (skipn (count_true m1) v).
Proof.
  revert m1 v. induction l1 as [|x l1 IH]; intros [|b m1] v Hlen;
    try discriminate.
  - reflexivity.
  - simpl in Hlen. rewrite count_true_cons.
    destruct b; [destruct v as [|y v]|]; simpl.
    + rewrite (IH m1 []) by lia. now rewrite firstn_nil, skipn_nil.
    + rewrite IH by lia. reflexivity.
    + rewrite IH by lia. reflexivity.
Qed.

Lemma clamp_all_length {F : Type} `{Float F} (v : list F)
      (bounds : list (F * F)) :
  length (clamp_all v bounds) = length v.
Proof.
  revert bounds. induction v as [|x v IH]; intros [|b bounds]; simpl; auto.
Qed.

Lemma clamp_all_combine {F : Type} `{Float F} (v : list F)
      (bounds : list (F * F)) :
  length v = length bounds ->
  clamp_all v bounds = map (fun vb => clamp (fst vb) (snd vb)) (combine v bounds).
Proof.
  revert bounds. induction v as [|x v IH]; intros [|b bounds] Hlen;
    try discriminate; [reflexivity|].
  simpl in *. f_equal. apply IH. lia.
Qed.

Section SetHyperparams.
Context {F C : Type} `{Float F}.

Lemma free_params_length (h : hyper F C) :
  length (params h) = length (fixed_params h) ->
  length (free_params h) = count_true (map negb (fixed_params h)).
Proof.
  intros Hlen. unfold free_params. apply mask_select_length.
  now rewrite length_map.
Qed.

Lemma free_param_bounds_length (h : hyper F C) :
  length (param_bounds h) = length (fixed_params h) ->
  length (free_param_bounds h) = count_true (map negb (fixed_params h)).
Proof.
  intros Hlen. unfold free_param_bounds. apply mask_select_length.
  now rewrite length_map.
Qed.

Lemma Kernel_set_hyperparams_ok (h : hyper F C) (new_params : list F) :
  length new_params = length (free_params h) ->
  Kernel_set_hyperparams h new_params =
  (with_params h (scatter (params h) (map negb (fixed_params h))
                          (written_params h new_params)), None).
Proof.
  intros Hlen. unfold Kernel_set_hyperparams, written_params.
  apply Nat.eqb_eq in Hlen. now rewrite Hlen.
Qed.

Lemma Kernel_set_hyperparams_mismatch (h : hyper F C) (new_params : list F) :
  length new_params <> length (free_params h) ->
  Kernel_set_hyperparams h new_params = (h, Some ValueError).
Proof.
  intros Hlen. unfold Kernel_set_hyperparams.
  apply Nat.eqb_neq in Hlen. now rewrite Hlen.
Qed.

Lemma written_params_length (h : hyper F C) (new_params : list F) :
  length (written_params h new_params) = length new_params.
Proof.
  unfold written_params. destruct (enforce_bounds h); [|reflexivity].
  apply clamp_all_length.
Qed.

End SetHyperparams.

Section Combinators.
Context {F C : Type} `{Float F}.

Lemma with_params_same (h : hyper F C) : with_params h (params h) = h.
Proof. now destruct h. Qed.


Lemma set_hyperparams_attributes (k : kernel F C) (new_params : list F) :
  length new_params = length (free_params (attributes k)) ->
  fixed_params (attributes (fst (set_hyperparams k new_params))) =
  fixed_params (attributes k)
  /\ length (params (attributes (fst (set_hyperparams k new_params)))) =
     length (params (attributes k)).
Proof.
  intros Hlen. destruct k as [h|h call|h m|h a|op h k1 k2];
    cbn [set_hyperparams attributes] in *;
    try (rewrite (Kernel_set_hyperparams_ok h new_params Hlen);
         cbn; now rewrite scatter_length).
  apply Nat.eqb_eq in Hlen. rewrite Hlen.
  destruct (set_hyperparams k1 _) as [k1' [e|]];
    [|destruct (set_hyperparams k2 _) as [k2' e2]];
    cbn; now rewrite scatter_length.
Qed.

Lemma splittable_lengths (k : kernel F C) :
  splittable k ->
  length (params (attributes k)) = length (fixed_params (attributes k)).
Proof. destruct k; cbn; tauto. Qed.

(** A kernel whose free parameters can be split accepts every vector of
    the right length, and stays that way. *)
Lemma set_hyperparams_succeeds (k : kernel F C) :
  forall new_params,
    splittable k ->
    length new_params = length (free_params (attributes k)) ->
    snd (set_hyperparams k new_params) = None
    /\ splittable (fst (set_hyperparams k new_params)).
Proof.
  induction k as [h|h call|h m|h a|op h k1 IH1 k2 IH2];
    intros new_params Hs Hlen;
    try (cbn [set_hyperparams attributes] in *;
         rewrite (Kernel_set_hyperparams_ok h new_params Hlen);
         cbn in *; rewrite scatter_length; tauto).
  cbn [splittable attributes] in Hs.
  destruct Hs as (Hp & Hfix & Hs1 & Hs2).
  pose proof (splittable_lengths _ Hs1) as Hp1.
  pose proof (splittable_lengths _ Hs2) as Hp2.
  cbn [attributes] in Hlen.
  rewrite free_params_length in Hlen by assumption.
  rewrite Hfix, map_app, count_true_app in Hlen.
  set (c := count_true (map negb (fixed_params (attributes k1)))) in *.
  assert (Hl1 : length (firstn c new_params) =
                length (free_params (attributes k1))).
  { rewrite free_params_length by assumption. rewrite length_firstn.
    fold c. lia. }
  assert (Hl2 : length (skipn c new_params) =
                length (free_params (attributes k2))).
  { rewrite free_params_length by assumption. rewrite length_skipn. lia. }
  destruct (IH1 _ Hs1 Hl1) as [E1 S1]. destruct (IH2 _ Hs2 Hl2) as [E2 S2].
  destruct (set_hyperparams_attributes k1 _ Hl1) as [F1 _].
  destruct (set_hyperparams_attributes k2 _ Hl2) as [F2 _].
  cbn [set_hyperparams].
  assert (Hlen' : (length new_params =? length (free_params h)) = true).
  { apply Nat.eqb_eq. rewrite free_params_length by assumption.
    rewrite Hfix, map_app, count_true_app. exact Hlen. }
  rewrite Hlen'. fold c.
  destruct (set_hyperparams k1 (firstn c new_params)) as [k1' e1].
  cbn [fst snd] in *. subst e1.
  destruct (set_hyperparams k2 (skipn c new_params)) as [k2' e2].
  cbn [fst snd] in *. subst e2. split; [reflexivity|].
  cbn. rewrite scatter_length, F1, F2. tauto.
Qed.

Lemma well_formed_splittable (k : kernel F C) :
  well_formed k -> splittable k.
Proof.
  induction k as [h|h call|h m|h a|op h k1 IH1 k2 IH2]; cbn;
    try (intros [[Hp _] _]; tauto).
  intros [[Hp _] [(_ & Hfix & _) [W1 W2]]]. auto.
Qed.



End Combinators.


(** ** The chain-rule kernel *)

Lemma zip_map_same {A B D E : Type} (f : B -> D -> E) (g1 : A -> B)
      (g2 : A -> D) (l : list A) :
  map (fun uv => f (fst uv) (snd uv)) (combine (map g1 l) (map g2 l)) =
  map (fun r => f (g1 r) (g2 r)) l.
Proof. induction l as [|r l IH]; simpl; [reflexivity | now rewrite IH]. Qed.

Lemma zip_map_right {A D E : Type} (f : A -> D -> E) (g : A -> D)
      (l : list A) :
  map (fun uv => f (fst uv) (snd uv)) (combine l (map g l)) =
  map (fun r => f r (g r)) l.
Proof. induction l as [|r l IH]; simpl; [reflexivity | now rewrite IH]. Qed.

Lemma inplace2_map {A B : Type} (f : B -> B -> B) (g1 g2 : A -> B)
      (l : list A) :
  inplace2 f (map g1 l) (map g2 l) = Ok (map (fun r => f (g1 r) (g2 r)) l).
Proof.
  unfold inplace2. rewrite !length_map, Nat.eqb_refl. now rewrite zip_map_same.
Qed.

Lemma broadcast2_map {A B : Type} (f : B -> B -> B) (g1 g2 : A -> B)
      (l : list A) :
  broadcast2 f (map g1 l) (map g2 l) = Ok (map (fun r => f (g1 r) (g2 r)) l).
Proof.
  unfold broadcast2. rewrite !length_map, Nat.eqb_refl.
  now rewrite zip_map_same.
Qed.

Lemma broadcast2_scalar {A : Type} (f : A -> A -> A) (u : A) (b : list A) :
  broadcast2 f [u] b = Ok (map (f u) b).
Proof.
  unfold broadcast2. destruct b as [|v [|w b]]; reflexivity.
Qed.

Lemma mask_select_map {A B : Type} (g : A -> B) (P : A -> bool) (l : list A) :
  mask_select (map g l) (map P l) = map g (filter P l).
Proof.
  induction l as [|x l IH]; simpl; [reflexivity|].
  destruct (P x); simpl; now rewrite IH.
Qed.

Lemma count_true_map {A : Type} (P : A -> bool) (l : list A) :
  count_true (map P l) = length (filter P l).
Proof.
  unfold count_true. induction l as [|x l IH]; simpl; [reflexivity|].
  destruct (P x); simpl; now rewrite IH.
Qed.

Lemma scatter_map {A B : Type} (f g : A -> B) (P : A -> bool) (l : list A) :
  scatter (map f l) (map P l) (map g (filter P l)) =
  map (fun x => if P x then g x else f x) l.
Proof.
  induction l as [|x l IH]; simpl; [reflexivity|].
  destruct (P x); simpl; now rewrite IH.
Qed.

Lemma mask_assign_map {A B : Type} (f g : A -> B) (P : A -> bool)
      (l : list A) :
  mask_assign (map f l) (map P l) (map g (filter P l)) =
  Ok (map (fun x => if P x then g x else f x) l).
Proof.
  unfold mask_assign. rewrite length_map, count_true_map, Nat.eqb_refl.
  now rewrite scatter_map.
Qed.

Lemma row_eqb_eq (a b : row) : row_eqb a b = true <-> a = b.
Proof.
  unfold row_eqb. revert b. induction a as [|x a IH]; intros [|y b]; simpl;
    try (split; [discriminate | discriminate]); [tauto|].
  specialize (IH b). rewrite andb_true_iff in *. rewrite andb_true_iff.
  rewrite Nat.eqb_eq in *. rewrite Z.eqb_eq. split.
  - intros [Hl [-> Hf]]. f_equal. apply IH. split; [lia | assumption].
  - intros [= -> ->]. split; [reflexivity|]. split; [reflexivity|].
    now apply IH.
Qed.

Lemma deriv_pattern_from_nil (n : list Z) (idx : nat) :
  Forall (fun z => (z <= 0)%Z) n -> deriv_pattern_from idx n = [].
Proof.
  intros Hn. revert idx. induction Hn as [|z n Hz Hn IH]; intros idx; simpl.
  - reflexivity.
  - rewrite IH. replace (Z.to_nat z) with 0 by lia. reflexivity.
Qed.

Lemma deriv_pattern_from_cons (n : list Z) (idx : nat) :
  Forall (fun z => (0 <= z)%Z) n -> Exists (fun z => z <> 0%Z) n ->
  deriv_pattern_from idx n <> [].
Proof.
  intros Hn Hex. revert idx. induction Hex as [z n Hz|z n Hex IH]; intros idx.
  - apply Forall_inv in Hn. simpl.
    destruct (Z.to_nat z) as [|k] eqn:E; [lia | discriminate].
  - simpl. intros E. apply app_eq_nil in E. destruct E as [_ E].
    revert E. apply IH. now apply Forall_inv_tail in Hn.
Qed.

Lemma generate_set_partitions_all {A : Type} (fuel : nat) (set_ : list A) :
  1 <= length set_ -> bell (length set_) <= fuel ->
  generate_set_partitions fuel set_ = Ok (set_partitions set_).
Proof.
  intros Hlen Hfuel. unfold generate_set_partitions, set_partitions.
  rewrite generate_set_partition_strings_all;
    [reflexivity | assumption | now rewrite length_restricted_growth_strings].
Qed.

Section ChainRule.
Context {F C : Type} `{Float F}.
Variable self : hyper F C.
Variable m : chain_rule_methods F C.
Variable pm : point_methods F.
Hypothesis methods_pointwise : pointwise self m pm.

Lemma block_product_pointwise (tau : list (list F)) (p : list (list nat))
      (g : list F -> F) :
  fold_left
    (fun acc b =>
       dk_dtau <- acc ;;
       inplace2 fmul dk_dtau
                (_compute_dy_dtau m self tau b (map (r2l2_at pm) tau)))
    p (Ok (map g tau)) =
  Ok (map (fun t =>
             fold_left
               (fun acc b => fmul acc (dy_dtau_at pm t b (r2l2_at pm t)))
               p (g t))
          tau).
Proof.
  destruct methods_pointwise as (_ & _ & _ & Hdy).
  revert g. induction p as [|b p IH]; intros g; [reflexivity|].
  cbn [fold_left bind]. rewrite Hdy by now rewrite length_map.
  rewrite (zip_map_right (fun t r => dy_dtau_at pm t b r) (r2l2_at pm) tau).
  rewrite (inplace2_map fmul g
             (fun t => dy_dtau_at pm t b (r2l2_at pm t)) tau).
  apply IH.
Qed.

Lemma _compute_dk_dtau_on_partition_pointwise (tau : list (list F))
      (p : list (list nat)) :
  _compute_dk_dtau_on_partition self m tau p =
  Ok (map (fun t => partition_term pm t p) tau).
Proof.
  destruct methods_pointwise as (_ & Hy & Hdk & _).
  unfold _compute_dk_dtau_on_partition, partition_term.
  rewrite Hy, Hdk, map_map. apply block_product_pointwise.
Qed.

Lemma partition_sum_pointwise (tau : list (list F))
      (parts : list (list (list nat))) (g : list F -> F) :
  fold_left
    (fun acc partition =>
       dk_dtau <- acc ;;
       term <- _compute_dk_dtau_on_partition self m tau partition ;;
       inplace2 fadd dk_dtau term)
    parts (Ok (map g tau)) =
  Ok (map (fun t => fold_left (fun acc p => fadd acc (partition_term pm t p))
                              parts (g t))
          tau).
Proof.
  revert g. induction parts as [|p parts IH]; intros g; [reflexivity|].
  cbn [fold_left bind]. rewrite _compute_dk_dtau_on_partition_pointwise.
  cbn [bind]. rewrite inplace2_map. apply IH.
Qed.

(** With a budget that covers the partitions of the pattern,
    [_compute_dk_dtau] returns the derivative at every point. *)
Lemma _compute_dk_dtau_pointwise (fuel : nat) (tau : list (list F))
      (n : list Z) :
  (length (deriv_pattern n) <> 0 -> bell (length (deriv_pattern n)) <= fuel) ->
  _compute_dk_dtau fuel self m tau n = Ok (map (fun t => dk_dtau_at pm t n) tau).
Proof.
  intros Hfuel. unfold _compute_dk_dtau, dk_dtau_at.
  destruct (Nat.eqb_spec (length (deriv_pattern n)) 0) as [E|E].
  - destruct methods_pointwise as (Hk & _). now rewrite Hk.
  - rewrite generate_set_partitions_all by (auto || lia).
    cbn [bind]. rewrite repeat_map_const.
    apply partition_sum_pointwise.
Qed.

End ChainRule.

(** *** The loop over the distinct multi-indices *)

Lemma map_fst_combine {A B D : Type} (f : A -> D) (a : list A) (b : list B) :
  length a = length b -> map f a = map (fun it => f (fst it)) (combine a b).
Proof.
  revert b. induction a as [|x a IH]; intros [|y b] Hlen; try discriminate;
    [reflexivity|]. simpl in *. f_equal. apply IH. lia.
Qed.

Lemma map_snd_combine {A B D : Type} (f : B -> D) (a : list A) (b : list B) :
  length a = length b -> map f b = map (fun it => f (snd it)) (combine a b).
Proof.
  revert b. induction a as [|x a IH]; intros [|y b] Hlen; try discriminate;
    [reflexivity|]. simpl in *. f_equal. apply IH. lia.
Qed.

Lemma same_shape_length {A B : Type} (a : list (list A)) (b : list (list B)) :
  same_shape a b = true -> length a = length b.
Proof.
  unfold same_shape. intros E. apply andb_true_iff in E.
  now apply Nat.eqb_eq.
Qed.

(** Assigning to the rows of each state in turn leaves every row with
    the value of the last state it equals. *)
Lemma fold_assign_covered {A : Type} (D : row -> A) (x : row)
      (states : list row) (v0 : A) :
  In x states ->
  fold_left (fun v s => if row_eqb x s then D s else v) states v0 = D x.
Proof.
  assert (Hfix : forall l, fold_left (fun v s => if row_eqb x s then D s else v)
                                     l (D x) = D x).
  { induction l as [|s l IH]; simpl; [reflexivity|].
    destruct (row_eqb x s) eqn:E; [|exact IH].
    apply row_eqb_eq in E. subst s. exact IH. }
  revert v0. induction states as [|s states IH]; intros v0 Hin; [destruct Hin|].
  simpl. destruct (row_eqb x s) eqn:E.
  - apply row_eqb_eq in E. subst s. apply Hfix.
  - apply IH. destruct Hin as [->|Hin]; [|exact Hin].
    assert (row_eqb x x = true) by now apply row_eqb_eq. congruence.
Qed.

Section Evaluate.
Context {F C : Type} `{Float F}.
Variable self : hyper F C.
Variable m : chain_rule_methods F C.
Variable pm : point_methods F.
Hypothesis methods_pointwise : pointwise self m pm.

Lemma state_loop_pointwise {A : Type} (fuel : nat) (items : list A)
      (tau_of : A -> list F) (n_of : A -> row) (states : list row)
      (g : A -> F) :
  (forall s, In s states ->
             length (deriv_pattern s) <> 0 ->
             bell (length (deriv_pattern s)) <= fuel) ->
  fold_left
    (fun acc n_combined_state =>
       k <- acc ;;
       let idxs := map (fun r => row_eqb r n_combined_state)
                       (map n_of items) in
       dk <- _compute_dk_dtau fuel self m
                              (mask_select (map tau_of items) idxs)
                              n_combined_state ;;
       mask_assign k idxs dk)
    states (Ok (map g items)) =
  Ok (map (fun it =>
             fold_left
               (fun v s => if row_eqb (n_of it) s
                           then dk_dtau_at pm (tau_of it) s else v)
               states (g it))
          items).
Proof.
  revert g. induction states as [|s states IH]; intros g Hfuel;
    [reflexivity|].
  cbn [fold_left bind]. rewrite map_map.
  rewrite (mask_select_map tau_of (fun it => row_eqb (n_of it) s) items).
  rewrite (_compute_dk_dtau_pointwise self m pm methods_pointwise)
    by (intros Hne; apply Hfuel; [left; reflexivity | exact Hne]).
  cbn [bind]. rewrite map_map.
  rewrite (mask_assign_map g (fun it => dk_dtau_at pm (tau_of it) s)
                           (fun it => row_eqb (n_of it) s) items).
  rewrite IH by (intros s' Hs' Hne; apply Hfuel; [now right | exact Hne]).
  reflexivity.
Qed.

End Evaluate.

Section EvaluateStates.
Context {F C : Type} `{Float F}.
Variable self : hyper F C.
Variable m : chain_rule_methods F C.
Variable pm : point_methods F.
Hypothesis methods_pointwise : pointwise self m pm.

(** [evaluate] on [M] pairs of points, in terms of the rows that
    [unique_rows] returns. *)
Lemma ChainRuleKernel_evaluate_states (cmp : row -> row -> Z) (fuel : nat)
      (p0 : F) (Xi Xj : list (list F)) (ni nj : list (list Z)) :
  nth_error (params self) 0 = Some p0 ->
  same_shape Xi Xj = true ->
  length ni = length Xi ->
  same_shape ni nj = true ->
  (forall r, In r (combine ni nj) ->
             length (deriv_pattern (row_add (fst r) (snd r))) <> 0 ->
             bell (length (deriv_pattern (row_add (fst r) (snd r)))) <= fuel) ->
  ChainRuleKernel_evaluate cmp fuel self m Xi Xj ni nj =
  Ok (map (fun it =>
             fmul (fmul (fpow p0 (of_int 2))
                        (fpow (of_int (-1)) (of_int (zsum (snd (snd it))))))
                  (fold_left
                     (fun v s =>
                        if row_eqb (row_add (fst (snd it)) (snd (snd it))) s
                        then dk_dtau_at pm (row_sub (fst (fst it))
                                                    (snd (fst it))) s
                        else v)
                     (unique_rows cmp
                        (map (fun r : list Z * list Z =>
                                row_add (fst r) (snd r))
                             (combine ni nj)))
                     fzero))
          (combine (combine Xi Xj) (combine ni nj))).
Proof.
  intros Hp0 HX Hlen Hn Hfuel.
  pose proof (same_shape_length _ _ HX) as HlX.
  pose proof (same_shape_length _ _ Hn) as Hln.
  unfold ChainRuleKernel_evaluate, matrix2. rewrite HX, Hn. cbn [bind].
  set (items := combine (combine Xi Xj) (combine ni nj)).
  set (tau_of := fun it : (list F * list F) * (row * row) =>
                   row_sub (fst (fst it)) (snd (fst it))).
  set (n_of := fun it : (list F * list F) * (row * row) =>
                 row_add (fst (snd it)) (snd (snd it))).
  assert (Hl2 : length (combine Xi Xj) = length (combine ni nj))
    by (rewrite !length_combine; lia).
  assert (Htau : map (fun rs : list F * list F =>
                        map (fun uv => fsub (fst uv) (snd uv))
                            (combine (fst rs) (snd rs)))
                     (combine Xi Xj) = map tau_of items)
    by (apply (map_fst_combine (fun rs => row_sub (fst rs) (snd rs))), Hl2).
  assert (Hnc : map (fun rs : list Z * list Z =>
                       map (fun uv => (fst uv + snd uv)%Z)
                           (combine (fst rs) (snd rs)))
                    (combine ni nj) = map n_of items)
    by (apply (map_snd_combine (fun rs => row_add (fst rs) (snd rs))), Hl2).
  assert (Hnc' : map (fun r : list Z * list Z => row_add (fst r) (snd r))
                     (combine ni nj) = map n_of items) by exact Hnc.
  assert (Hnj : map zsum nj = map (fun it => zsum (snd (snd it))) items).
  { rewrite (map_snd_combine zsum ni nj Hln).
    apply (map_snd_combine (fun rs : row * row => zsum (snd rs))), Hl2. }
  assert (Hzero : repeat fzero (length Xi) = map (fun _ => fzero) items).
  { rewrite <- repeat_map_const. f_equal. unfold items.
    rewrite !length_combine. lia. }
  rewrite Hnc'. rewrite Htau, Hnc, Hnj, Hzero.
  rewrite (state_loop_pointwise self m pm methods_pointwise).
  - cbn [bind]. unfold get_item. rewrite Hp0. cbn [bind].
    rewrite broadcast2_scalar. cbn [bind]. rewrite !map_map.
    now rewrite (broadcast2_map fmul).
  - intros s Hs.
    apply unique_rows_sound_any in Hs.
    rewrite <- Hnc in Hs. apply in_map_iff in Hs.
    destruct Hs as (r & <- & Hr). now apply Hfuel.
Qed.

End EvaluateStates.

(** The sums of two tables of one shape have the width of the first. *)
Lemma row_add_width (N : nat) (ni nj : list (list Z)) :
  same_shape ni nj = true ->
  Forall (fun r => length r = N) ni ->
  Forall (fun r => length r = N)
         (map (fun r => row_add (fst r) (snd r)) (combine ni nj)).
Proof.
  intros Hn Hwidth. apply Forall_forall. intros r Hr.
  apply in_map_iff in Hr. destruct Hr as ([a b] & <- & Hab).
  unfold row_add. rewrite length_map, length_combine. cbn [fst snd].
  pose proof (in_combine_l _ _ _ _ Hab) as Ha.
  rewrite Forall_forall in Hwidth. rewrite (Hwidth a Ha).
  unfold same_shape in Hn. apply andb_true_iff in Hn. destruct Hn as [_ Hn'].
  rewrite forallb_forall in Hn'. specialize (Hn' _ Hab). cbn in Hn'.
  apply Nat.eqb_eq in Hn'. rewrite (Hwidth a Ha) in Hn'. lia.
Qed.

Section EvaluateRows.
Context {F C : Type} `{Float F}.
Context {N : nat} {O : RowOrder N}.
Variable self : hyper F C.
Variable m : chain_rule_methods F C.
Variable pm : point_methods F.
Hypothesis methods_pointwise : pointwise self m pm.

(** [evaluate] on [M] pairs of points with at least one coordinate, pair
    by pair. *)
Lemma ChainRuleKernel_evaluate_pointwise (fuel : nat) (p0 : F)
      (Xi Xj : list (list F)) (ni nj : list (list Z)) :
  1 <= N ->
  nth_error (params self) 0 = Some p0 ->
  same_shape Xi Xj = true ->
  length ni = length Xi ->
  same_shape ni nj = true ->
  Forall (fun r => length r = N) ni ->
  (forall r, In r (combine ni nj) ->
             length (deriv_pattern (row_add (fst r) (snd r))) <> 0 ->
             bell (length (deriv_pattern (row_add (fst r) (snd r)))) <= fuel) ->
  ChainRuleKernel_evaluate cmp fuel self m Xi Xj ni nj =
  Ok (map (fun it =>
             fmul (fmul (fpow p0 (of_int 2))
                        (fpow (of_int (-1)) (of_int (zsum (snd (snd it))))))
                  (dk_dtau_at pm (row_sub (fst (fst it)) (snd (fst it)))
                                 (row_add (fst (snd it)) (snd (snd it)))))
          (combine (combine Xi Xj) (combine ni nj))).
Proof.
  intros HN Hp0 HX Hlen Hn Hwidth Hfuel.
  pose proof (row_add_width N ni nj Hn Hwidth) as Hw.
  rewrite (ChainRuleKernel_evaluate_states self m pm methods_pointwise
             cmp fuel p0 Xi Xj ni nj Hp0 HX Hlen Hn Hfuel).
  f_equal. apply map_ext_in. intros it Hit. f_equal.
    apply (fold_assign_covered
             (dk_dtau_at pm (row_sub (fst (fst it)) (snd (fst it))))).
    apply (unique_rows_complete _ Hw _ HN).
    apply in_map_iff. exists (snd it). split; [reflexivity|].
    destruct it as [x r]. exact (in_combine_r _ _ _ _ Hit).
Qed.

(** Without coordinates there is no row to loop over, and every
    covariance is the scaled zero the loop starts from. *)
Lemma ChainRuleKernel_evaluate_no_columns (fuel : nat) (p0 : F)
      (Xi Xj : list (list F)) (ni nj : list (list Z)) :
  N = 0 ->
  nth_error (params self) 0 = Some p0 ->
  same_shape Xi Xj = true ->
  length ni = length Xi ->
  same_shape ni nj = true ->
  Forall (fun r => length r = N) ni ->
  ChainRuleKernel_evaluate cmp fuel self m Xi Xj ni nj =
  Ok (map (fun it =>
             fmul (fmul (fpow p0 (of_int 2))
                        (fpow (of_int (-1)) (of_int (zsum (snd (snd it))))))
                  fzero)
          (combine (combine Xi Xj) (combine ni nj))).
Proof.
  intros HN Hp0 HX Hlen Hn Hwidth.
  pose proof (row_add_width N ni nj Hn Hwidth) as Hw.
  assert (Hrows : forall r : list Z * list Z,
             In r (combine ni nj) -> row_add (fst r) (snd r) = []).
  { intros r Hr. apply length_zero_iff_nil. rewrite Forall_forall in Hw.
    rewrite (Hw (row_add (fst r) (snd r))); [exact HN|].
    apply in_map_iff. now exists r. }
  rewrite (ChainRuleKernel_evaluate_states self m pm methods_pointwise
             cmp fuel p0 Xi Xj ni nj Hp0 HX Hlen Hn).
  - rewrite unique_rows_no_columns; [reflexivity|].
    eapply Forall_impl; [|exact Hw]. cbn beta. intros r Hr. lia.
  - intros r Hr Hne. rewrite (Hrows r Hr) in Hne. now contradiction Hne.
Qed.

End EvaluateRows.


(** ** The numerically differentiated kernel *)

Lemma set_item_length {A : Type} (j : nat) (v : A) (l : list A) :
  length (set_item j v l) = length l.
Proof.
  unfold set_item. rewrite <- (firstn_skipn j l) at 3.
  rewrite !length_app. f_equal. now destruct (skipn j l).
Qed.

Lemma put_each_length {A : Type} (idxs : list nat) (v l : list A) :
  length (put_each l idxs v) = length l.
Proof.
  revert v l. induction idxs as [|i idxs IH]; intros [|y v] l; simpl; auto.
  now rewrite IH, set_item_length.
Qed.

Lemma put_items_length {A : Type} (idxs : list nat) (v l l' : list A) :
  put_items l idxs v = Ok l' -> length l' = length l.
Proof.
  unfold put_items. destruct (negb _); [discriminate|].
  destruct (length v =? length idxs).
  - intros [= <-]. apply put_each_length.
  - destruct v as [|y [|z v]]; try discriminate.
    intros [= <-]. apply put_each_length.
Qed.

Lemma take_items_length {A : Type} (l : list A) (idxs : list nat)
      (sel : list A) :
  take_items l idxs = Ok sel -> length sel = length idxs.
Proof.
  revert sel. induction idxs as [|i idxs IH]; intros sel; simpl.
  - now intros [= <-].
  - destruct (get_item l i); try discriminate. cbn [bind].
    destruct (take_items l idxs) as [xs| |]; try discriminate.
    cbn [bind]. intros [= <-]. simpl. f_equal. now apply IH.
Qed.

Lemma take_items_in_range {A : Type} (l : list A) (idxs : list nat)
      (sel : list A) :
  take_items l idxs = Ok sel -> forallb (fun i => i <? length l) idxs = true.
Proof.
  revert sel. induction idxs as [|i idxs IH]; intros sel; simpl; [reflexivity|].
  unfold get_item. destruct (nth_error l i) eqn:E; try discriminate.
  cbn [bind]. destruct (take_items l idxs) as [xs| |]; try discriminate.
  intros _. apply andb_true_iff. split.
  - apply Nat.ltb_lt, nth_error_Some. congruence.
  - eapply IH; eauto.
Qed.

Section SerialAndPool.
Context {F : Type}.
Variable X_cat : list (list F).
Variable d : list F -> F.

Lemma serial_loop_cons (i : nat) (idxs : list nat) (acc : result (list F)) :
  serial_loop X_cat d (i :: idxs) acc =
  serial_loop X_cat d idxs
              (k <- acc ;;
               X_cat_row <- get_item X_cat i ;;
               put_item k i (d X_cat_row)).
Proof. reflexivity. Qed.

Lemma serial_loop_not_Ok (idxs : list nat) (acc : result (list F)) :
  (forall k, acc <> Ok k) -> serial_loop X_cat d idxs acc = acc.
Proof.
  revert acc. induction idxs as [|i idxs IH]; intros acc Hacc; [reflexivity|].
  rewrite serial_loop_cons.
  destruct acc as [k| |]; [now contradiction (Hacc k) | |];
    cbn [bind]; apply IH; discriminate.
Qed.

(** One assignment per index in turn is the assignment of all results at
    their indices. *)
Lemma serial_loop_put_items (idxs : list nat) :
  forall k, length k = length X_cat ->
    serial_loop X_cat d idxs (Ok k) =
    (X_sel <- take_items X_cat idxs ;; put_items k idxs (map d X_sel)).
Proof.
  induction idxs as [|i idxs IH]; intros k Hk; [reflexivity|].
  rewrite serial_loop_cons. cbn [bind take_items].
  unfold get_item at 1 2. destruct (nth_error X_cat i) as [r|] eqn:E.
  - cbn [bind]. unfold put_item.
    assert (Hi : i < length k).
    { rewrite Hk. apply nth_error_Some. congruence. }
    apply Nat.ltb_lt in Hi. rewrite Hi.
    rewrite IH by now rewrite set_item_length.
    destruct (take_items X_cat idxs) as [sel| |] eqn:Es; try reflexivity.
    cbn [bind map]. unfold put_items.
    cbn [forallb length]. rewrite set_item_length, Hi. cbn [andb].
    rewrite !length_map. cbn [Nat.eqb].
    rewrite (take_items_length _ _ _ Es), Nat.eqb_refl.
    destruct (negb (forallb (fun i0 => i0 <? length k) idxs)); reflexivity.
  - cbn [bind]. apply serial_loop_not_Ok. discriminate.
Qed.

Lemma serial_loop_length (idxs : list nat) (k k' : list F) :
  serial_loop X_cat d idxs (Ok k) = Ok k' -> length k' = length k.
Proof.
  revert k. induction idxs as [|i idxs IH]; intros k.
  - now intros [= <-].
  - rewrite serial_loop_cons. cbn [bind].
    destruct (get_item X_cat i) as [r| |]; cbn [bind];
      try (rewrite serial_loop_not_Ok by discriminate; discriminate).
    unfold put_item. destruct (i <? length k).
    + intros E. apply IH in E. now rewrite set_item_length in E.
    + rewrite serial_loop_not_Ok by discriminate. discriminate.
Qed.

End SerialAndPool.

Lemma fold_left_bind_not_Ok {A B : Type} (f : A -> B -> result A)
      (l : list B) (acc : result A) :
  (forall k, acc <> Ok k) ->
  fold_left (fun acc s => k <- acc ;; f k s) l acc = acc.
Proof.
  revert acc. induction l as [|s l IH]; intros acc Hacc; [reflexivity|].
  simpl. destruct acc as [k| |]; [now contradiction (Hacc k) | |];
    cbn [bind]; apply IH; discriminate.
Qed.

(** Two loop bodies that agree on every state that satisfies an
    invariant they keep run to the same result. *)
Lemma fold_left_bind_invariant {A B : Type} (Inv : A -> Prop)
      (f g : A -> B -> result A) (l : list B) :
  (forall k s, Inv k -> f k s = g k s) ->
  (forall k s k', Inv k -> f k s = Ok k' -> Inv k') ->
  forall k, Inv k ->
    fold_left (fun acc s => k <- acc ;; f k s) l (Ok k) =
    fold_left (fun acc s => k <- acc ;; g k s) l (Ok k).
Proof.
  intros Hfg Hinv. induction l as [|s l IH]; intros k Hk; [reflexivity|].
  simpl. rewrite <- (Hfg k s Hk). destruct (f k s) as [k'| |] eqn:E.
  - apply IH. eapply Hinv; eauto.
  - now rewrite !fold_left_bind_not_Ok by discriminate.
  - now rewrite !fold_left_bind_not_Ok by discriminate.
Qed.

(** ** The claim about the numerically differentiated kernel *)

(** C10: with a pool whose [map] returns the results of the tasks in
    the order of the tasks, [evaluate] of a numerically differentiated
    kernel returns the same for [num_proc = 0] and for every
    [num_proc > 1], on every input: the same vector of covariances, or
    the same exception. *)
Theorem ArbitraryKernel_serial_equals_pool
        {F C : Type} `{Float F} `{Mpmath F}
        (cmp : row -> row -> Z)
        (pool_map : (list F -> F) -> list (list F) -> list F)
        (self : hyper F C) (a : arbitrary_methods F) (p : Z)
        (Xi Xj : list (list F)) (ni nj : list (list Z)) :
  (forall f l, pool_map f l = map f l) ->
  (1 < p)%Z ->
  ArbitraryKernel_evaluate cmp pool_map self (with_num_proc a 0) Xi Xj ni nj =
  ArbitraryKernel_evaluate cmp pool_map self (with_num_proc a p) Xi Xj ni nj
  /\ kernel_call cmp pool_map 0 (ArbitraryKernel self (with_num_proc a 0))
       [PyFloatArray Xi; PyFloatArray Xj; PyIntArray ni; PyIntArray nj] [] =
     kernel_call cmp pool_map 0 (ArbitraryKernel self (with_num_proc a p))
       [PyFloatArray Xi; PyFloatArray Xj; PyIntArray ni; PyIntArray nj] [].
Proof.
  intros Hpool Hp.
  assert (E : ArbitraryKernel_evaluate cmp pool_map self (with_num_proc a 0)
                                       Xi Xj ni nj =
              ArbitraryKernel_evaluate cmp pool_map self (with_num_proc a p)
                                       Xi Xj ni nj).
  { unfold ArbitraryKernel_evaluate.
    destruct (concatenate_columns ni nj) as [n_cat| |]; try reflexivity.
    destruct (concatenate_columns Xi Xj) as [X_cat| |] eqn:EX; try reflexivity.
    cbn [bind].
    assert (HX : length X_cat = length Xi).
    { unfold concatenate_columns in EX.
      destruct (Nat.eqb_spec (length Xi) (length Xj)); [|discriminate].
      injection EX as <-. rewrite length_map, length_combine. lia. }
    apply (fold_left_bind_invariant (fun k => length k = length X_cat)).
    - intros k s Hk. cbn [num_proc cov_func cov_func_at with_num_proc].
      destruct (forallb (fun z => (z =? 0)%Z) s); [reflexivity|].
      replace (0 <? 0)%Z with false by reflexivity.
      replace (0 <? p)%Z with true by (symmetry; apply Z.ltb_lt; lia).
      cbn [andb].
      destruct (1 <? length _); [|reflexivity].
      rewrite serial_loop_put_items by assumption.
      destruct (take_items X_cat _) as [sel| |]; try reflexivity.
      cbn [bind]. now rewrite Hpool.
    - intros k s k' Hk. cbn [num_proc cov_func cov_func_at with_num_proc].
      destruct (forallb (fun z => (z =? 0)%Z) s).
      + destruct (take_items Xi _); try discriminate. cbn [bind].
        destruct (take_items Xj _); try discriminate. cbn [bind].
        intros E. apply put_items_length in E. congruence.
      + cbn [andb Z.ltb Z.compare]. intros E.
        apply serial_loop_length in E. congruence.
    - rewrite repeat_length. now symmetry. }
  split; [exact E|]. cbn [kernel_call]. unfold ArbitraryKernel_call.
  cbn. exact E.
Qed.

Lemma ArbitraryKernel_serial_equals_pool_witness :
  ArbitraryKernel_evaluate Row_cmp (@map (list Z) Z) cubic_attributes
    (with_num_proc product_covariance 0)
    [[1]; [2]; [3]]%Z [[4]; [5]; [6]]%Z [[1]; [0]; [1]]%Z [[0]; [0]; [0]]%Z =
  ArbitraryKernel_evaluate Row_cmp (@map (list Z) Z) cubic_attributes
    (with_num_proc product_covariance 4)
    [[1]; [2]; [3]]%Z [[4]; [5]; [6]]%Z [[1]; [0]; [1]]%Z [[0]; [0]; [0]]%Z.
Proof.
  apply ArbitraryKernel_serial_equals_pool.
  - reflexivity.
  - lia.
Defined.


(** ** The claim about the set-partition generator *)

(** C2: for every [n >= 1] and every iteration budget of at least
    [bell n] passes of the loop, [generate_set_partition_strings] returns
    a list of exactly [bell n] strings, which are the restricted growth
    strings of length [n], each once, in lexicographic order; the Bell
    numbers of 1, 2, 3 and 4 are 1, 2, 5 and 15; for [n = 0] it returns
    the empty list. *)
Theorem generate_set_partition_strings_bell (n fuel : nat) :
  1 <= n -> bell n <= fuel ->
  (exists strings,
      generate_set_partition_strings fuel n = Ok strings
      /\ length strings = bell n
      /\ strings = restricted_growth_strings n
      /\ NoDup strings
      /\ forall s, In s strings <-> length s = n /\ is_rgs s)
  /\ [bell 1; bell 2; bell 3; bell 4] = [1; 2; 5; 15]
  /\ generate_set_partition_strings fuel 0 = Ok [].
Proof.
  intros Hn Hfuel. split; [|split; reflexivity].
  exists (restricted_growth_strings n).
  split; [|split; [|split; [|split]]].
  - apply generate_set_partition_strings_all; [assumption|].
    now rewrite length_restricted_growth_strings.
  - apply length_restricted_growth_strings.
  - reflexivity.
  - apply NoDup_rgs_tails.
  - intros s. apply in_restricted_growth_strings.
Qed.

Lemma generate_set_partition_strings_bell_witness :
  exists strings,
    generate_set_partition_strings 5 3 = Ok strings
    /\ length strings = bell 3
    /\ strings = restricted_growth_strings 3
    /\ NoDup strings
    /\ forall s, In s strings <-> length s = 3 /\ is_rgs s.
Proof.
  assert (H1 : 1 <= 3) by lia.
  assert (H2 : bell 3 <= 5) by (vm_compute; lia).
  exact (proj1 (generate_set_partition_strings_bell 3 5 H1 H2)).
Defined.


(** ** The claim about the incomplete Bell polynomial *)

(** C3: on an argument array [x] with at least [n - k + 1] columns
    whenever [n, k >= 1], [incomplete_bell_poly] returns, for every row
    of [x], the polynomial [B_{n,k}] of that row, where [B_{0,0} = 1],
    [B_{n,0} = 0] for [n >= 1], [B_{0,k} = 0] for [k >= 1] and, for
    [n, k >= 1], [B_{n,k}] is the sum over [m = 1..n-k+1] of
    [x_m * C(n-1, m-1) * B_{n-m,k-1}]; the result is a vector of ones for
    [n = k = 0] and of zeros in the other two base cases; and it is the
    same for the array cut down to any [c >= n - k + 1] of its
    columns. *)
Theorem incomplete_bell_poly_recurrence {F : Type} `{Float F}
        (n k : nat) (x : array2 F) :
  (1 <= n -> 1 <= k -> S n - k <= shape1 x) ->
  incomplete_bell_poly n k x = Ok (map (bell_poly k n) (rows x))
  /\ (n = 0 -> k = 0 ->
      incomplete_bell_poly n k x = Ok (repeat fone (length (rows x))))
  /\ (1 <= n -> k = 0 ->
      incomplete_bell_poly n k x = Ok (repeat fzero (length (rows x))))
  /\ (n = 0 -> 1 <= k ->
      incomplete_bell_poly n k x = Ok (repeat fzero (length (rows x))))
  /\ (forall xs : list F,
         bell_poly 0 0 xs = fone
         /\ (1 <= n -> bell_poly 0 n xs = fzero)
         /\ (1 <= k -> bell_poly k 0 xs = fzero)
         /\ (1 <= n -> 1 <= k ->
             bell_poly k n xs =
             fold_left
               (fun acc m =>
                  fadd acc (fmul (fmul (nth (m - 1) xs fzero)
                                       (binom (n - 1) (m - 1)))
                                 (bell_poly (k - 1) (n - m) xs)))
               (seq 1 (S n - k)) fzero))
  /\ (forall c, S n - k <= c ->
                incomplete_bell_poly n k (truncate_columns c x) =
                incomplete_bell_poly n k x).
Proof.
  intros Hcols.
  assert (Hrow : incomplete_bell_poly n k x = Ok (map (bell_poly k n) (rows x)))
    by (apply incomplete_bell_poly_rowwise; intros Hk Hn; now apply Hcols).
  split; [exact Hrow|]. split; [|split; [|split; [|split]]].
  - intros -> ->. reflexivity.
  - intros Hn ->. destruct n; [lia | reflexivity].
  - intros -> Hk. destruct k; [lia | reflexivity].
  - intros xs. split; [reflexivity|]. split; [|split].
    + intros Hn. destruct n; [lia | reflexivity].
    + intros Hk. destruct k; [lia | reflexivity].
    + intros Hn Hk. destruct k as [|k']; [lia|]. destruct n as [|n']; [lia|].
      cbn [bell_poly Nat.eqb]. replace (S k' - 1) with k' by lia.
      reflexivity.
  - intros c Hc. rewrite Hrow.
    rewrite incomplete_bell_poly_rowwise.
    + cbn [rows truncate_columns]. rewrite map_map. f_equal.
      apply map_ext. intros xs. now apply bell_poly_truncate.
    + intros Hk Hn. cbn [shape1 truncate_columns]. specialize (Hcols Hn Hk).
      lia.
Qed.

Lemma incomplete_bell_poly_recurrence_witness :
  incomplete_bell_poly 4 2
    {| shape1 := 4; rows := [[1; 2; 3; 4]; [5; 6; 7; 8]]%Z |} =
  Ok [24; 248]%Z.
Proof.
  assert (Hcols : 1 <= 4 -> 1 <= 2 ->
                  S 4 - 2 <= shape1 {| shape1 := 4;
                                       rows := [[1; 2; 3; 4]; [5; 6; 7; 8]]%Z |})
    by (intros _ _; simpl; lia).
  exact (proj1 (@incomplete_bell_poly_recurrence Z Z_Float 4 2 _ Hcols)).
Defined.


(** ** The claim about row deduplication *)

(** C9 as stated does not hold for a table without columns: the view of
    the table of two empty rows has no item, so that no index and no row
    is returned, whatever the order of the sort, although the empty row
    occurs in the table. *)
Lemma unique_rows_no_columns_drops_rows :
  In (@nil Z) [[]; []]
  /\ (forall cmp : row -> row -> Z, unique_rows cmp [[]; []] = [])
  /\ ~ (forall r : row,
           In r [[]; []] -> In r (unique_rows Row_cmp [[]; []])).
Proof.
  split; [now left|]. split; [reflexivity|].
  intros Hall. exact (Hall [] (or_introl eq_refl)).
Qed.




(** *** Construction of a combinator *)

Lemma check_length_Ok {A : Type} (l : list A) (n : Z) (u : unit) :
  check_length l n = Ok u -> Z.of_nat (length l) = n.
Proof.
  unfold check_length. destruct (Z.eqb_spec (Z.of_nat (length l)) n);
    [auto | discriminate].
Qed.

(** [BinaryKernel.__init__] establishes the invariant, and the
    combinator itself never enforces bounds. *)
Lemma BinaryKernel_init_concatenates {F C : Type} `{Float F} `{KernelEnv F C}
      (op : binary_op) (k1 k2 k : kernel F C) :
  BinaryKernel_init op k1 k2 = Ok k ->
  k = BinaryKernel op (attributes k) k1 k2
  /\ concatenation_invariant k
  /\ enforce_bounds (attributes k) = false
  /\ num_dim (attributes k1) = num_dim (attributes k2).
Proof.
  unfold BinaryKernel_init, Kernel_init.
  destruct (Z.eqb_spec (num_dim (attributes k1)) (num_dim (attributes k2)));
    [|discriminate]. cbn [negb].
  destruct (_ <? 0)%Z; [discriminate|].
  destruct (_ <? 1)%Z; [discriminate|].
  repeat match goal with
         | |- context [check_length ?l ?n] =>
             destruct (check_length l n); cbn [bind]; try discriminate
         end.
  intros [= <-]. cbn. repeat split; auto.
Qed.

(** ** The claims about the hyperparameters *)

(** C6: [set_hyperparams] of any kernel, given as many values as there
    are free parameters, writes them to the free positions of [params]
    (read back in order they are the incoming values, each clamped to the
    bound it lies beyond when the kernel enforces its bounds, which a
    combinator never does), leaves the fixed positions and every other
    attribute as they were, and succeeds on a kernel that is not a
    combinator; given any other number of values it raises a ValueError
    and changes nothing.  A value below the lower bound is clamped to
    the lower bound, one above the upper bound to the upper bound, any
    other is kept. *)
Theorem set_hyperparams_writes_free_params {F C : Type} `{Float F}
        (k : kernel F C) (new_params : list F) :
  consistent (attributes k) ->
  match k with
  | BinaryKernel _ h _ _ => enforce_bounds h = false
  | _ => True
  end ->
  let h := attributes k in
  let h' := attributes (fst (set_hyperparams k new_params)) in
  (length new_params = length (free_params h) ->
   free_params h' =
   (if enforce_bounds h
    then map (fun vb => clamp (fst vb) (snd vb))
             (combine new_params (free_param_bounds h))
    else new_params)
   /\ (forall i, nth_error (fixed_params h) i = Some true ->
                 nth_error (params h') i = nth_error (params h) i)
   /\ h' = with_params h (params h')
   /\ match k with
      | BinaryKernel _ _ _ _ => True
      | _ => snd (set_hyperparams k new_params) = None
      end)
  /\ (length new_params <> length (free_params h) ->
      set_hyperparams k new_params = (k, Some ValueError))
  /\ (forall v lo hi : F,
         (fltb v lo = true -> clamp v (lo, hi) = lo)
         /\ (fltb v lo = false -> fltb hi v = true -> clamp v (lo, hi) = hi)
         /\ (fltb v lo = false -> fltb hi v = false -> clamp v (lo, hi) = v)).
Proof.
  intros [Hp Hb] Hcomb h h'. split; [|split].
  - intros Hlen.
    assert (Hw : params h' = scatter (params h) (map negb (fixed_params h))
                                     (written_params h new_params)
                 /\ h' = with_params h (params h')
                 /\ match k with
                    | BinaryKernel _ _ _ _ => True
                    | _ => snd (set_hyperparams k new_params) = None
                    end).
    { subst h h'. destruct k as [h|h call|h m|h a|op h k1 k2];
        cbn [set_hyperparams attributes] in *;
        try (rewrite (Kernel_set_hyperparams_ok h new_params Hlen);
             cbn; auto).
      apply Nat.eqb_eq in Hlen. rewrite Hlen.
      unfold written_params. rewrite Hcomb.
      destruct (set_hyperparams k1 _) as [k1' [e|]];
        [|destruct (set_hyperparams k2 _) as [k2' e2]]; cbn; auto. }
    destruct Hw as (Hw & Hframe & Hok).
    assert (Hwl : length (written_params h new_params) =
                  count_true (map negb (fixed_params h))).
    { rewrite written_params_length, Hlen. now apply free_params_length. }
    repeat split; try assumption.
    + unfold free_params at 1. rewrite Hframe.
      cbn [fixed_params params with_params].
      rewrite Hw, mask_select_scatter by (rewrite ?length_map; assumption).
      unfold written_params. destruct (enforce_bounds h); [|reflexivity].
      apply clamp_all_combine. rewrite Hlen.
      rewrite free_params_length, free_param_bounds_length by assumption.
      reflexivity.
    + intros i Hi. rewrite Hw. apply scatter_unselected.
      rewrite nth_error_map, Hi. discriminate.
  - intros Hlen. subst h.
    destruct k as [h|h call|h m|h a|op h k1 k2];
      cbn [set_hyperparams attributes] in *;
      try (rewrite (Kernel_set_hyperparams_mismatch h new_params Hlen);
           reflexivity).
    apply Nat.eqb_neq in Hlen. now rewrite Hlen.
  - intros v lo hi. unfold clamp. cbn [fst snd].
    repeat split; intros; repeat match goal with
                                 | E : fltb _ _ = _ |- _ => rewrite E; clear E
                                 end; reflexivity.
Qed.

Lemma set_hyperparams_writes_free_params_witness :
  let k := one_parameter_kernel true in
  let h' := attributes (fst (set_hyperparams k [20%Z])) in
  consistent (attributes k)
  /\ free_params h' = [10%Z]
  /\ snd (set_hyperparams k [20%Z]) = None
  /\ set_hyperparams k [20%Z; 5%Z] = (k, Some ValueError).
Proof.
  intros k h'.
  assert (Hc : consistent (attributes k)) by (split; reflexivity).
  destruct (set_hyperparams_writes_free_params k [20%Z] Hc I)
    as (Hok & _ & _).
  destruct (set_hyperparams_writes_free_params k [20%Z; 5%Z] Hc I)
    as (_ & Hbad & _).
  destruct (Hok eq_refl) as (Hfree & _ & _ & Hnone).
  split; [exact Hc|]. split; [exact Hfree|]. split; [exact Hnone|].
  apply Hbad. discriminate.
Defined.

(** C7: a combinator whose mask of fixed parameters is the
    concatenation of those of its children, given as many values as it
    has free parameters, cuts the vector after as many values as [k1] has
    free parameters, hands the first part to [k1.set_hyperparams] and the
    rest to [k2.set_hyperparams], both of which get as many values as
    they have free parameters and succeed; given any other number of
    values it raises a ValueError. *)
Theorem BinaryKernel_set_hyperparams_splits {F C : Type} `{Float F}
        (op : binary_op) (h : hyper F C) (k1 k2 : kernel F C)
        (new_params : list F) :
  splittable (BinaryKernel op h k1 k2) ->
  let num_fixed_k1 := count_true (map negb (fixed_params (attributes k1))) in
  let first := firstn num_fixed_k1 new_params in
  let rest := skipn num_fixed_k1 new_params in
  (length new_params = length (free_params h) ->
   length first = length (free_params (attributes k1))
   /\ length rest = length (free_params (attributes k2))
   /\ snd (set_hyperparams k1 first) = None
   /\ snd (set_hyperparams k2 rest) = None
   /\ set_hyperparams (BinaryKernel op h k1 k2) new_params =
      (BinaryKernel op
         (with_params h (scatter (params h) (map negb (fixed_params h))
                                 new_params))
         (fst (set_hyperparams k1 first))
         (fst (set_hyperparams k2 rest)),
       None))
  /\ (length new_params <> length (free_params h) ->
      set_hyperparams (BinaryKernel op h k1 k2) new_params =
      (BinaryKernel op h k1 k2, Some ValueError)).
Proof.
  intros Hs c first rest. cbn [splittable attributes] in Hs.
  destruct Hs as (Hp & Hfix & Hs1 & Hs2). split.
  - intros Hlen.
    pose proof (splittable_lengths _ Hs1) as Hp1.
    pose proof (splittable_lengths _ Hs2) as Hp2.
    pose proof Hlen as Hlen0.
    rewrite free_params_length in Hlen by assumption.
    rewrite Hfix, map_app, count_true_app in Hlen. fold c in Hlen.
    assert (Hl1 : length first = length (free_params (attributes k1))).
    { rewrite free_params_length by assumption. unfold first.
      rewrite length_firstn. fold c. lia. }
    assert (Hl2 : length rest = length (free_params (attributes k2))).
    { rewrite free_params_length by assumption. unfold rest.
      rewrite length_skipn. lia. }
    destruct (set_hyperparams_succeeds k1 _ Hs1 Hl1) as [E1 _].
    destruct (set_hyperparams_succeeds k2 _ Hs2 Hl2) as [E2 _].
    repeat split; try assumption.
    cbn [set_hyperparams]. apply Nat.eqb_eq in Hlen0. rewrite Hlen0.
    fold c first rest.
    destruct (set_hyperparams k1 first) as [k1' e1].
    cbn [fst snd] in *. subst e1.
    destruct (set_hyperparams k2 rest) as [k2' e2].
    cbn [fst snd] in *. subst e2. reflexivity.
  - intros Hlen. cbn [set_hyperparams].
    apply Nat.eqb_neq in Hlen. now rewrite Hlen.
Qed.

Lemma BinaryKernel_set_hyperparams_splits_witness :
  snd (set_hyperparams (one_parameter_kernel false) [20%Z]) = None
  /\ snd (set_hyperparams (one_parameter_kernel false) [5%Z]) = None
  /\ snd (set_hyperparams sum_of_two [20; 5]%Z) = None
  /\ set_hyperparams sum_of_two [2; 3; 4]%Z = (sum_of_two, Some ValueError).
Proof.
  assert (Hs : splittable sum_of_two) by (cbn; tauto).
  destruct (BinaryKernel_set_hyperparams_splits
              Sum _ _ _ [20; 5]%Z Hs) as [Hok _].
  destruct (BinaryKernel_set_hyperparams_splits
              Sum _ _ _ [2; 3; 4]%Z Hs) as [_ Hbad].
  destruct (Hok eq_refl) as (_ & _ & H1 & H2 & H3).
  split; [exact H1|]. split; [exact H2|]. split.
  - unfold sum_of_two. rewrite H3. reflexivity.
  - apply Hbad. discriminate.
Defined.

(** ** The claim about the invariant of the combinators *)

(** C4, where the code departs from the claim: a sum of two kernels with
    one free parameter each, the first enforcing its bounds [(0, 10)],
    satisfies the invariant after construction; after
    [set_hyperparams([20, 5])] the combinator holds [params = [20, 5]]
    while its children hold [10] and [5], so the invariant is lost. *)
Theorem combinator_params_miss_clamping :
  exists k k1' k2' h',
    BinaryKernel_init Sum (one_parameter_kernel true)
                      (one_parameter_kernel false) = Ok k
    /\ well_formed k
    /\ set_hyperparams k [20; 5]%Z = (BinaryKernel Sum h' k1' k2', None)
    /\ params h' = [20; 5]%Z
    /\ params (attributes k1') = [10]%Z
    /\ params (attributes k2') = [5]%Z
    /\ ~ concatenation_invariant (BinaryKernel Sum h' k1' k2').
Proof.
  do 4 eexists. split; [reflexivity|].
  split; [cbn; unfold consistent; cbn; repeat split|].
  split; [reflexivity|]. split; [reflexivity|]. split; [reflexivity|].
  split; [reflexivity|]. cbn. intros (E & _). discriminate E.
Qed.


Lemma methods_of_points_pointwise {F C : Type} (self : hyper F C)
      (pm : point_methods F) :
  pointwise self (methods_of_points pm) pm.
Proof. repeat split. Qed.

Lemma list_max_bound {A : Type} (f : A -> nat) (l : list A) (x : A) :
  In x l -> f x <= list_max (map f l).
Proof.
  intros Hx. pose proof (list_max_le (map f l) (list_max (map f l))) as [Hle _].
  specialize (Hle (Nat.le_refl _)). rewrite Forall_forall in Hle.
  apply Hle, in_map, Hx.
Qed.

Lemma nth_map_in_range {A B : Type} (f : A -> B) (l : list A) (d : B)
      (d' : A) (i : nat) :
  i < length l -> nth i (map f l) d = f (nth i l d').
Proof.
  intros Hi. rewrite (nth_indep _ d (f d')) by now rewrite length_map.
  apply map_nth.
Qed.

Lemma ChainRuleKernel_call_positional {F C : Type} `{Float F}
      (cmp : row -> row -> Z) (fuel : nat)
      (self : hyper F C) (m : chain_rule_methods F C)
      (Xi Xj : list (list F)) (ni nj : list (list Z)) :
  ChainRuleKernel_call cmp fuel self m
    [PyFloatArray Xi; PyFloatArray Xj; PyIntArray ni; PyIntArray nj] [] =
  ChainRuleKernel_evaluate cmp fuel self m Xi Xj ni nj.
Proof. reflexivity. Qed.

(** ** The claims about the chain-rule kernel *)

(** C1: for a chain-rule kernel whose methods work point by point, with
    first hyperparameter [p0], called on [M] pairs of points with
    derivative orders of one width, [evaluate] returns, for every
    sufficiently large iteration budget, a vector of [M] covariances
    whose entry for a pair with non-negative and not all-zero combined
    derivative orders [n = ni + nj] is [p0 ** 2] times [(-1) ** sum(nj)]
    times the sum, over all set partitions of the derivative pattern of
    [n], of the derivative of the base covariance of order the number of
    blocks times the product over the blocks of the derivatives of [y],
    at [tau = Xi - Xj]. *)
Theorem ChainRuleKernel_evaluate_faa_di_bruno
        {F C : Type} `{Float F} `{Mpmath F} {N : nat} {O : RowOrder N}
        (self : hyper F C) (m : chain_rule_methods F C)
        (pm : point_methods F) (p0 : F)
        (Xi Xj : list (list F)) (ni nj : list (list Z)) :
  pointwise self m pm ->
  nth_error (params self) 0 = Some p0 ->
  same_shape Xi Xj = true ->
  length ni = length Xi ->
  same_shape ni nj = true ->
  Forall (fun r => length r = N) ni ->
  exists fuel0, forall fuel, fuel0 <= fuel ->
  exists K,
    ChainRuleKernel_evaluate cmp fuel self m Xi Xj ni nj = Ok K
    /\ kernel_call cmp (@map (list F) F) fuel (ChainRuleKernel self m)
         [PyFloatArray Xi; PyFloatArray Xj; PyIntArray ni; PyIntArray nj] []
       = Ok K
    /\ length K = length Xi
    /\ forall i, i < length Xi ->
         let tau := row_sub (nth i Xi []) (nth i Xj []) in
         let n := row_add (nth i ni []) (nth i nj []) in
         Forall (fun z => (0 <= z)%Z) n ->
         Exists (fun z => z <> 0%Z) n ->
         nth i K fzero =
         fmul (fmul (fpow p0 (of_int 2))
                    (fpow (of_int (-1)) (of_int (zsum (nth i nj [])))))
              (fold_left
                 (fun acc p =>
                    fadd acc
                         (fold_left
                            (fun term b =>
                               fmul term (dy_dtau_at pm tau b (r2l2_at pm tau)))
                            p
                            (dk_dy_at pm (y_at pm tau) (length p))))
                 (set_partitions (deriv_pattern n))
                 fzero).
Proof.
  intros Hpm Hp0 HX Hlen Hn Hwidth.
  exists (list_max (map (fun r : list Z * list Z =>
                           bell (length (deriv_pattern
                                           (row_add (fst r) (snd r)))))
                        (combine ni nj))).
  intros fuel Hfuel.
  assert (Hrows : forall r : list Z * list Z,
             In r (combine ni nj) ->
             length (deriv_pattern (row_add (fst r) (snd r))) <> 0 ->
             bell (length (deriv_pattern (row_add (fst r) (snd r)))) <= fuel).
  { intros r Hr _.
    pose proof (list_max_bound
                  (fun r : list Z * list Z =>
                     bell (length (deriv_pattern (row_add (fst r) (snd r)))))
                  _ r Hr) as Hb. cbn beta in Hb. lia. }
  pose proof (same_shape_length _ _ HX) as HlX.
  pose proof (same_shape_length _ _ Hn) as Hln.
  destruct (Nat.eq_dec N 0) as [HN|HN].
  { pose proof (ChainRuleKernel_evaluate_no_columns
                  self m pm Hpm fuel p0 Xi Xj ni nj HN Hp0 HX Hlen Hn Hwidth)
      as E.
    eexists. split; [exact E|]. split.
    { cbn [kernel_call]. rewrite ChainRuleKernel_call_positional. exact E. }
    split.
    { rewrite length_map, !length_combine. lia. }
    intros i Hi tau n Hpos Hnz. exfalso.
    assert (Ei : nth i ni [] = []).
    { apply length_zero_iff_nil. rewrite Forall_forall in Hwidth.
      rewrite (Hwidth (nth i ni [])); [exact HN | apply nth_In; lia]. }
    unfold n in Hnz. rewrite Ei in Hnz. inversion Hnz. }
  assert (HN1 : 1 <= N) by lia.
  pose proof (ChainRuleKernel_evaluate_pointwise
                self m pm Hpm fuel p0 Xi Xj ni nj HN1 Hp0 HX Hlen Hn Hwidth
                Hrows)
    as E.
  rewrite E.
  eexists. split; [reflexivity|]. split.
  { cbn [kernel_call]. rewrite ChainRuleKernel_call_positional. exact E. }
  split.
  { rewrite length_map, !length_combine. lia. }
  intros i Hi tau n Hpos Hnz.
  match goal with
  | |- nth i (map ?f ?l) _ = _ =>
      rewrite (nth_map_in_range f l fzero (([], []), ([], [])) i)
        by (rewrite !length_combine; lia)
  end.
  rewrite !combine_nth by (rewrite ?length_combine; lia).
  cbn [fst snd]. fold tau n. f_equal.
  unfold dk_dtau_at.
  destruct (Nat.eqb_spec (length (deriv_pattern n)) 0) as [E0|_];
    [|reflexivity].
  exfalso. apply length_zero_iff_nil in E0. revert E0.
  now apply deriv_pattern_from_cons.
Qed.

Lemma ChainRuleKernel_evaluate_faa_di_bruno_witness :
  exists fuel0, forall fuel, fuel0 <= fuel ->
  exists K,
    ChainRuleKernel_evaluate Row_cmp fuel cubic_attributes
      (methods_of_points cubic_points)
      [[1; 2]]%Z [[0; 0]]%Z [[1; 0]]%Z [[0; 1]]%Z = Ok K
    /\ nth 0 K 0%Z = (-2160)%Z.
Proof.
  destruct (@ChainRuleKernel_evaluate_faa_di_bruno
              Z unit Z_Float Z_Mpmath 2 (Row_order 2)
              cubic_attributes (methods_of_points cubic_points) cubic_points
              3%Z [[1; 2]]%Z [[0; 0]]%Z [[1; 0]]%Z [[0; 1]]%Z
              (methods_of_points_pointwise _ _) eq_refl eq_refl eq_refl eq_refl)
    as [fuel0 Hfuel0].
  { repeat constructor. }
  exists fuel0. intros fuel Hfuel.
  destruct (Hfuel0 fuel Hfuel) as (K & HK & _ & _ & Hval).
  exists K. split; [exact HK|].
  assert (Hlt : 0 < length [[1; 2]]%Z) by (simpl; lia).
  assert (Hpos : Forall (fun z => (0 <= z)%Z) (row_add [1; 0] [0; 1])%Z)
    by (repeat constructor; cbn; lia).
  assert (Hnz : Exists (fun z => z <> 0%Z) (row_add [1; 0] [0; 1])%Z)
    by (constructor; cbn; lia).
  exact (Hval 0 Hlt Hpos Hnz).
Defined.

(** C8: for derivative orders that are all zero, [_compute_dk_dtau]
    returns the base covariance [_compute_k(tau)] whatever the iteration
    budget of the partition generator, also with no budget at all, with
    which every pattern of two or more entries would not get past the
    first partition. *)
Theorem _compute_dk_dtau_zero_order {F C : Type} `{Float F}
        (self : hyper F C) (m : chain_rule_methods F C)
        (tau : list (list F)) (n : list Z) :
  Forall (fun z => z = 0%Z) n ->
  (forall fuel, _compute_dk_dtau fuel self m tau n = Ok (_compute_k m self tau))
  /\ (forall n', 2 <= length (deriv_pattern n') ->
                 _compute_dk_dtau 0 self m tau n' = OutOfFuel).
Proof.
  intros Hn. split.
  - intros fuel. unfold _compute_dk_dtau, deriv_pattern.
    rewrite deriv_pattern_from_nil; [reflexivity|].
    eapply Forall_impl; [|exact Hn]. intros z ->. lia.
  - intros n' Hn'. unfold _compute_dk_dtau, generate_set_partitions.
    destruct (length (deriv_pattern n')) as [|[|k]]; [lia | lia | reflexivity].
Qed.

Lemma _compute_dk_dtau_zero_order_witness :
  _compute_dk_dtau 0 cubic_attributes (methods_of_points cubic_points)
                   [[1; 2]]%Z [0; 0]%Z = Ok [125%Z].
Proof.
  assert (Hn : Forall (fun z => z = 0%Z) [0; 0]%Z) by (repeat constructor).
  exact (proj1 (_compute_dk_dtau_zero_order
                  cubic_attributes (methods_of_points cubic_points)
                  [[1; 2]]%Z [0; 0]%Z Hn) 0).
Defined.

(** In [evaluate], a call in which every pair has all-zero combined
    derivative orders needs no budget: every entry is the scaled base
    covariance at [tau], for points with at least one coordinate. *)
Lemma ChainRuleKernel_evaluate_zero_order
      {F C : Type} `{Float F} {N : nat} {O : RowOrder N}
      (self : hyper F C) (m : chain_rule_methods F C)
      (pm : point_methods F) (p0 : F)
      (Xi Xj : list (list F)) (ni nj : list (list Z)) :
  pointwise self m pm ->
  nth_error (params self) 0 = Some p0 ->
  same_shape Xi Xj = true ->
  length ni = length Xi ->
  same_shape ni nj = true ->
  1 <= N ->
  Forall (fun r => length r = N) ni ->
  (forall r, In r (combine ni nj) ->
             Forall (fun z => z = 0%Z) (row_add (fst r) (snd r))) ->
  ChainRuleKernel_evaluate cmp 0 self m Xi Xj ni nj =
  Ok (map (fun it =>
             fmul (fmul (fpow p0 (of_int 2))
                        (fpow (of_int (-1)) (of_int (zsum (snd (snd it))))))
                  (k_at pm (row_sub (fst (fst it)) (snd (fst it)))))
          (combine (combine Xi Xj) (combine ni nj))).
Proof.
  intros Hpm Hp0 HX Hlen Hn HN Hwidth Hzero.
  assert (Hpat : forall r, In r (combine ni nj) ->
                           deriv_pattern (row_add (fst r) (snd r)) = []).
  { intros r Hr. apply deriv_pattern_from_nil.
    eapply Forall_impl; [|exact (Hzero r Hr)]. intros z ->. lia. }
  rewrite (ChainRuleKernel_evaluate_pointwise
             self m pm Hpm 0 p0 Xi Xj ni nj HN Hp0 HX Hlen Hn Hwidth).
  - f_equal. apply map_ext_in. intros [x r] Hit. f_equal.
    unfold dk_dtau_at. cbn [fst snd].
    pose proof (Hpat r (in_combine_r _ _ _ _ Hit)) as E.
    match goal with
    | |- context [deriv_pattern ?t] =>
        replace (deriv_pattern t) with (@nil nat) by (symmetry; exact E)
    end.
    reflexivity.
  - intros r Hr Hne. rewrite (Hpat r Hr) in Hne. now contradiction Hne.
Qed.


(** ** The claim about requests for hyperparameter derivatives *)




(** Among the kernels of [kernel.core] itself every leaf rejects the
    request, so a sum of them raises NotImplementedError also when
    [hyper_deriv] comes by position. *)
Lemma library_kernel_rejects_hyper_deriv {F C : Type} `{Float F} `{Mpmath F}
      (cmp : row -> row -> Z)
      (pool_map : (list F -> F) -> list (list F) -> list F)
      (fuel : nat) (k : kernel F C)
      (args : list (pyobj F)) (kwargs : keywords F) (b : bound_args F) :
  library_kernel k ->
  bind_signature args kwargs = Ok b ->
  is_None (arg_hyper_deriv b) = false ->
  kernel_call cmp pool_map fuel k args kwargs = Raise NotImplementedError.
Proof.
  intros Hk Hb Hd. induction k as [h|h call|h m|h a|op h k1 IH1 k2 IH2];
    cbn [kernel_call library_kernel] in *.
  - now rewrite Hb.
  - contradiction.
  - unfold ChainRuleKernel_call. rewrite Hb. cbn [bind]. now rewrite Hd.
  - unfold ArbitraryKernel_call. rewrite Hb. cbn [bind]. now rewrite Hd.
  - destruct Hk as [H1 H2]. destruct op.
    + destruct (match lookup "hyper_deriv" kwargs with
                | Some v => negb (is_None v)
                | None => false
                end); [reflexivity|]. now rewrite IH1.
    + now rewrite IH1.
Qed.


(** * Part III: further properties *)

(** ** Dictionaries *)

Lemma dict_get_pop_same {V : Type} (key : string) (d : dict V) :
  dict_get key (dict_pop key d) = None.
Proof.
  induction d as [|[k v] d IH]; [reflexivity|].
  cbn [dict_pop filter fst]. destruct (String.eqb_spec k key) as [E|E].
  - exact IH.
  - cbn [negb dict_get]. destruct (String.eqb_spec k key); [contradiction|].
    exact IH.
Qed.

Lemma dict_get_pop_other {V : Type} (key key' : string) (d : dict V) :
  key <> key' -> dict_get key (dict_pop key' d) = dict_get key d.
Proof.
  intros Hne. induction d as [|[k v] d IH]; [reflexivity|].
  cbn [dict_pop filter fst dict_get].
  destruct (String.eqb_spec k key') as [->|E]; cbn [negb].
  - destruct (String.eqb_spec key' key); [congruence | exact IH].
  - cbn [dict_get]. destruct (String.eqb_spec k key); [reflexivity | exact IH].
Qed.

Lemma dict_get_app {V : Type} (key : string) (a b : dict V) :
  dict_get key (a ++ b) =
  match dict_get key a with
  | Some v => Some v
  | None => dict_get key b
  end.
Proof.
  induction a as [|[k v] a IH]; [reflexivity|].
  cbn [app dict_get]. now destruct (String.eqb k key).
Qed.

Lemma dict_get_set {V : Type} (key k : string) (v : V) (d : dict V) :
  dict_get key (dict_set k v d) =
  if String.eqb k key then Some v else dict_get key d.
Proof.
  unfold dict_set. cbn [dict_get].
  destruct (String.eqb_spec k key) as [->|E]; [reflexivity|].
  apply dict_get_pop_other. congruence.
Qed.

Lemma dict_get_None {V : Type} (key : string) (d : dict V) :
  dict_get key d = None <-> ~ In key (map fst d).
Proof.
  induction d as [|[k v] d IH]; [simpl; tauto|].
  cbn [dict_get map fst In]. destruct (String.eqb_spec k key) as [->|E].
  - split; [discriminate | tauto].
  - rewrite IH. tauto.
Qed.

Lemma dict_pop_keys {V : Type} (key k : string) (d : dict V) :
  In k (map fst (dict_pop key d)) -> In k (map fst d) /\ k <> key.
Proof.
  unfold dict_pop. rewrite !in_map_iff.
  intros ([k' v] & <- & Hin). apply filter_In in Hin.
  destruct Hin as [Hin Hk]. cbn [fst] in *. split.
  - exists (k', v). auto.
  - destruct (String.eqb_spec k' key); [discriminate | assumption].
Qed.

Lemma dict_pop_NoDup {V : Type} (key : string) (d : dict V) :
  NoDup (map fst d) -> NoDup (map fst (dict_pop key d)).
Proof.
  induction d as [|[k v] d IH]; [constructor|].
  cbn [map fst]. intros Hnd. apply NoDup_cons_iff in Hnd.
  destruct Hnd as [Hk Hnd]. cbn [dict_pop filter fst].
  destruct (negb (String.eqb k key)); [|now apply IH].
  cbn [map fst]. constructor; [|now apply IH].
  intros Hin. apply dict_pop_keys in Hin. tauto.
Qed.

Lemma dict_items_NoDup {V : Type} (d : dict V) : NoDup (map fst (dict_items d)).
Proof.
  induction d as [|[k v] d IH]; [constructor|].
  cbn [dict_items map fst]. constructor.
  - intros Hin. apply dict_pop_keys in Hin. tauto.
  - now apply dict_pop_NoDup.
Qed.

Lemma dict_get_items {V : Type} (key : string) (d : dict V) :
  dict_get key (dict_items d) = dict_get key d.
Proof.
  induction d as [|[k v] d IH]; [reflexivity|].
  cbn [dict_items dict_get]. destruct (String.eqb_spec k key) as [->|E];
    [reflexivity|].
  rewrite dict_get_pop_other by congruence. exact IH.
Qed.

Lemma dict_get_rev {V : Type} (key : string) (d : dict V) :
  NoDup (map fst d) -> dict_get key (rev d) = dict_get key d.
Proof.
  induction d as [|[k v] d IH]; [reflexivity|].
  cbn [map fst]. intros Hnd. apply NoDup_cons_iff in Hnd.
  destruct Hnd as [Hk Hnd]. cbn [rev]. rewrite dict_get_app, (IH Hnd).
  cbn [dict_get]. destruct (String.eqb_spec k key) as [->|E].
  - apply dict_get_None in Hk. now rewrite Hk.
  - now destruct (dict_get key d).
Qed.

Lemma dict_get_fold_set {V : Type} (key : string) (items : list (string * V)) :
  forall d : dict V,
    dict_get key (fold_left (fun d kv => dict_set (fst kv) (snd kv) d)
                            items d) =
    match dict_get key (rev items) with
    | Some v => Some v
    | None => dict_get key d
    end.
Proof.
  induction items as [|[k v] items IH]; intros d; [reflexivity|].
  cbn [fold_left fst snd rev]. rewrite IH, dict_get_app, dict_get_set.
  cbn [dict_get]. destruct (dict_get key (rev items)); [reflexivity|].
  now destruct (String.eqb k key).
Qed.

(** In [dict(a.items() + b.items())] the value of [b] counts for every
    key that [b] holds. *)
Lemma dict_get_merged {V : Type} (key : string) (a b : dict V) :
  dict_get key (dict_of_items (dict_items a ++ dict_items b)) =
  match dict_get key b with
  | Some v => Some v
  | None => dict_get key a
  end.
Proof.
  unfold dict_of_items. rewrite dict_get_fold_set, rev_app_distr, dict_get_app.
  rewrite !dict_get_rev by apply dict_items_NoDup. rewrite !dict_get_items.
  cbn [dict_get]. destruct (dict_get key b); [reflexivity|].
  now destruct (dict_get key a).
Qed.

Lemma dict_has_get {V : Type} (key : string) (d : dict V) :
  dict_has key d = false <-> dict_get key d = None.
Proof.
  unfold dict_has. destruct (dict_get key d); split; congruence.
Qed.

(** ** The wrapper of the optimizer *)

Ltac dict_simpl :=
  repeat first
    [ rewrite dict_get_pop_same
    | rewrite dict_get_pop_other by (try discriminate; try congruence; auto) ].

Lemma add_constraint_accepted {V : Type}
      (cons : list (pyvalue V) * list (pyvalue V)) (con : pyvalue V) :
  accepted_constraint con ->
  add_constraint cons con =
  Returned (fst cons ++ functions_of_type "eq" [con],
            snd cons ++ functions_of_type "ineq" [con]).
Proof.
  intros (ty & f & Hty & Hcase & Hf).
  unfold add_constraint, functions_of_type. cbn [flat_map].
  rewrite Hty, Hf. cbn [and_then]. rewrite !app_nil_r.
  destruct ty as [v|s|items|items]; cbn [is_str] in *;
    try (destruct Hcase; discriminate).
  destruct (String.eqb_spec s "eq") as [->|Hne].
  - cbn. now rewrite app_nil_r.
  - destruct Hcase as [Hc|Hc]; [discriminate|]. rewrite Hc.
    now rewrite app_nil_r.
Qed.

Lemma functions_of_type_app {V : Type} (text : string)
      (a b : list (pyvalue V)) :
  functions_of_type text (a ++ b) =
  functions_of_type text a ++ functions_of_type text b.
Proof. unfold functions_of_type. apply flat_map_app. Qed.

Lemma collect_accepted {V : Type} (cons : list (pyvalue V)) :
  Forall accepted_constraint cons ->
  forall acc,
    fold_left (fun acc con => cons <-- acc ;; add_constraint cons con)
              cons (Returned acc) =
    Returned (fst acc ++ functions_of_type "eq" cons,
              snd acc ++ functions_of_type "ineq" cons).
Proof.
  induction 1 as [|con cons Hcon Hall IH]; intros acc.
  - cbn. rewrite !app_nil_r. now destruct acc.
  - cbn [fold_left and_then]. rewrite (add_constraint_accepted acc con Hcon).
    rewrite IH. cbn [fst snd].
    change (con :: cons) with ([con] ++ cons).
    now rewrite !functions_of_type_app, !app_assoc.
Qed.

Lemma collect_raised {V : Type} (cons : list (pyvalue V)) (e : exception) :
  fold_left (fun acc con => cons <-- acc ;; add_constraint cons con)
            cons (@Raised (list (pyvalue V) * list (pyvalue V)) e) =
  Raised e.
Proof. induction cons as [|con cons IH]; [reflexivity | exact IH]. Qed.

Lemma functions_of_type_count {V : Type} (cons : list (pyvalue V)) :
  Forall accepted_constraint cons ->
  length (functions_of_type "eq" cons) + length (functions_of_type "ineq" cons)
  = length cons.
Proof.
  induction 1 as [|con cons Hcon Hall IH]; [reflexivity|].
  change (con :: cons) with ([con] ++ cons).
  rewrite !functions_of_type_app, !length_app.
  destruct Hcon as (ty & f & Hty & Hcase & Hf).
  unfold functions_of_type at 1 3. cbn [flat_map]. rewrite Hty, Hf.
  rewrite !app_nil_r.
  destruct ty as [v|s|items|items]; cbn [is_str] in *;
    try (destruct Hcase; discriminate).
  destruct (String.eqb_spec s "eq") as [->|Hne].
  - cbn. lia.
  - destruct Hcase as [Hc|Hc]; [discriminate|]. rewrite Hc. cbn. lia.
Qed.

Lemma slsqp_arguments_constraints {V : Type} (opt_kwargs : dict (pyvalue V))
      (v : pyvalue V) (c : slsqp_call V) :
  dict_get "constraints" opt_kwargs = Some v ->
  slsqp_arguments opt_kwargs = Returned c ->
  collect_constraints v = Returned (call_eqcons c, call_ieqcons c).
Proof.
  intros Hv. unfold slsqp_arguments. dict_simpl. rewrite Hv.
  destruct (collect_constraints v) as [cons|e]; cbn [and_then];
    [|discriminate].
  match goal with
  | |- and_then ?m _ = _ -> _ => destruct m as [kw'|e']
  end; cbn [and_then]; [|discriminate].
  intros [= <-]. cbn. now destruct cons.
Qed.

Lemma slsqp_arguments_returns {V : Type} (opt_kwargs : dict (pyvalue V))
      (cons : list (pyvalue V) * list (pyvalue V)) :
  match dict_get "constraints" opt_kwargs with
  | Some v => collect_constraints v
  | None => Returned ([], [])
  end = Returned cons ->
  dict_get "options" opt_kwargs = None ->
  exists c, slsqp_arguments opt_kwargs = Returned c.
Proof.
  intros Hc Ho. unfold slsqp_arguments. dict_simpl. rewrite Hc.
  cbn [and_then].
  assert (E : dict_get "options"
                (match dict_get "tol" opt_kwargs with
                 | Some tol =>
                     dict_set "acc" tol
                       (dict_pop "tol"
                          (dict_pop "jac"
                             (dict_pop "constraints"
                                (dict_pop "method" opt_kwargs))))
                 | None =>
                     dict_pop "jac"
                       (dict_pop "constraints" (dict_pop "method" opt_kwargs))
                 end) = None).
  { destruct (dict_get "tol" opt_kwargs).
    - rewrite dict_get_set. cbn. dict_simpl. exact Ho.
    - dict_simpl. exact Ho. }
  rewrite E. cbn [and_then]. eexists. reflexivity.
Qed.

(** X1: the entry [constraints] of [opt_kwargs], a list of dictionaries
    or one dictionary, which counts as the list of it, is sorted by
    type.  When every constraint has a type [eq] or [ineq] and a
    function, the wrapper returns whenever there are no [options], and
    whenever it returns, [eqcons] holds the functions of the constraints
    of type [eq] and [ieqcons] those of type [ineq], both in the order of
    the constraints, every constraint in one of the two.  At the first
    constraint of another type the wrapper raises a ValueError, whatever
    the optimizer is. *)
Theorem wrap_fmin_slsqp_constraints {V : Type}
        (opt_kwargs : dict (pyvalue V)) (v : pyvalue V)
        (cons : list (pyvalue V)) :
  dict_get "constraints" opt_kwargs = Some v ->
  (v = ListOf cons \/ exists d, v = DictOf d /\ cons = [v]) ->
  (Forall accepted_constraint cons ->
   (dict_get "options" opt_kwargs = None ->
    exists c, slsqp_arguments opt_kwargs = Returned c)
   /\ (forall c, slsqp_arguments opt_kwargs = Returned c ->
                 call_eqcons c = functions_of_type "eq" cons
                 /\ call_ieqcons c = functions_of_type "ineq" cons
                 /\ length (call_eqcons c) + length (call_ieqcons c) =
                    length cons))
  /\ (forall pre con post ty,
         cons = pre ++ con :: post ->
         Forall accepted_constraint pre ->
         item con "type" = Returned ty ->
         is_str ty "eq" = false -> is_str ty "ineq" = false ->
         forall fmin_slsqp fun' guess,
           wrap_fmin_slsqp fmin_slsqp fun' guess opt_kwargs =
           Raised (Exn ValueError)).
Proof.
  intros Hv Hshape.
  assert (Hitems : constraint_items v = Returned cons).
  { destruct Hshape as [->|(d & -> & ->)]; reflexivity. }
  split.
  - intros Hall.
    assert (Hcol : collect_constraints v =
                   Returned (functions_of_type "eq" cons,
                             functions_of_type "ineq" cons)).
    { unfold collect_constraints. rewrite Hitems. cbn [and_then].
      now rewrite (collect_accepted cons Hall ([], [])). }
    split.
    + intros Ho. eapply slsqp_arguments_returns; [|exact Ho].
      rewrite Hv. exact Hcol.
    + intros c Hc.
      pose proof (slsqp_arguments_constraints opt_kwargs v c Hv Hc) as E.
      rewrite Hcol in E. injection E as E1 E2. rewrite <- E1, <- E2.
      split; [reflexivity|]. split; [reflexivity|].
      now apply functions_of_type_count.
  - intros pre con post ty -> Hpre Hty He Hi fmin_slsqp fun' guess.
    unfold wrap_fmin_slsqp, slsqp_arguments. dict_simpl. rewrite Hv.
    unfold collect_constraints. rewrite Hitems. cbn [and_then].
    rewrite fold_left_app, (collect_accepted pre Hpre ([], [])).
    cbn [fold_left and_then]. unfold add_constraint at 2.
    rewrite Hty. cbn [and_then]. rewrite He, Hi.
    now rewrite collect_raised.
Qed.

Lemma wrap_fmin_slsqp_constraints_witness :
  let g : pyvalue nat := Atom 1 in
  let h : pyvalue nat := Atom 2 in
  let cons := [DictOf [("type", Str "ineq"); ("fun", g)];
               DictOf [("type", Str "eq"); ("fun", h)]]%string in
  (exists c, slsqp_arguments [("constraints", ListOf cons)]%string = Returned c)
  /\ forall c, slsqp_arguments [("constraints", ListOf cons)]%string =
               Returned c ->
               call_eqcons c = [h] /\ call_ieqcons c = [g].
Proof.
  intros g h cons.
  assert (Hall : Forall accepted_constraint cons).
  { repeat constructor.
    - exists (Str "ineq"), g. repeat split; auto.
    - exists (Str "eq"), h. repeat split; auto. }
  destruct (wrap_fmin_slsqp_constraints
              [("constraints", ListOf cons)]%string (ListOf cons) cons
              eq_refl (or_introl eq_refl)) as [Hok _].
  destruct (Hok Hall) as [Hex Hsorted]. split.
  - exact (Hex eq_refl).
  - intros c Hc. destruct (Hsorted c Hc) as (E1 & E2 & _).
    split; [exact E1 | exact E2].
Defined.

(** *** The keywords that reach the optimizer *)

Lemma key_in_cons (key k : string) (keys : list string) :
  key_in key (k :: keys) = String.eqb key k || key_in key keys.
Proof. reflexivity. Qed.

Lemma key_in_false (key : string) (keys : list string) :
  key_in key keys = false <-> ~ In key keys.
Proof.
  unfold key_in. induction keys as [|k keys IH]; [simpl; intuition|].
  cbn [existsb In]. rewrite orb_false_iff, IH.
  destruct (String.eqb_spec key k) as [->|E]; intuition congruence.
Qed.

Lemma key_in_true (key : string) (keys : list string) :
  key_in key keys = true <-> In key keys.
Proof.
  destruct (key_in key keys) eqn:E.
  - split; [intros _|reflexivity].
    destruct (in_dec string_dec key keys) as [Hin|Hout]; [exact Hin|].
    apply key_in_false in Hout. congruence.
  - apply key_in_false in E. split; [discriminate | contradiction].
Qed.

Lemma renamed_keywords_get {V : Type} (opt_kwargs : dict V) (key : string) :
  dict_get key (renamed_keywords opt_kwargs) =
  if key_in key ["method"; "constraints"; "jac"; "tol"]%string then None
  else if String.eqb key "acc"
       then match dict_get "tol" opt_kwargs with
            | Some tol => Some tol
            | None => dict_get "acc" opt_kwargs
            end
       else dict_get key opt_kwargs.
Proof.
  unfold renamed_keywords. dict_simpl.
  destruct (key_in key ["method"; "constraints"; "jac"; "tol"]%string) eqn:Hk.
  - apply key_in_true in Hk. cbn [In] in Hk.
    destruct (dict_get "tol" opt_kwargs) as [tol|] eqn:Et.
    + rewrite dict_get_set.
      destruct Hk as [<-|[<-|[<-|[<-|[]]]]]; cbn; dict_simpl; reflexivity.
    + destruct Hk as [<-|[<-|[<-|[<-|[]]]]]; dict_simpl; auto.
  - apply key_in_false in Hk. cbn [In] in Hk.
    assert (Hm : key <> "method"%string) by (intros ->; apply Hk; auto 6).
    assert (Hc : key <> "constraints"%string) by (intros ->; apply Hk; auto 6).
    assert (Hj : key <> "jac"%string) by (intros ->; apply Hk; auto 6).
    assert (Ht : key <> "tol"%string) by (intros ->; apply Hk; auto 6).
    destruct (dict_get "tol" opt_kwargs) as [tol|] eqn:Et.
    + rewrite dict_get_set, (String.eqb_sym key).
      destruct (String.eqb_spec "acc" key) as [<-|Ha]; [reflexivity|].
      now dict_simpl.
    + dict_simpl. destruct (String.eqb_spec key "acc") as [->|Ha];
        reflexivity.
Qed.

Lemma slsqp_arguments_unfold {V : Type} (opt_kwargs : dict (pyvalue V)) :
  slsqp_arguments opt_kwargs =
  (cons <-- match dict_get "constraints" opt_kwargs with
            | Some v => collect_constraints v
            | None => Returned ([], [])
            end ;;
   kw <-- match dict_get "options" opt_kwargs with
          | Some (DictOf opts) =>
              Returned (dict_of_items
                          (dict_items
                             (dict_pop "options" (renamed_keywords opt_kwargs))
                           ++ dict_items opts))
          | Some _ => Raised AttributeError
          | None => Returned (renamed_keywords opt_kwargs)
          end ;;
   Returned {| call_eqcons := fst cons;
               call_ieqcons := snd cons;
               call_kwargs :=
                 dict_pop "callback" (dict_pop "hessp" (dict_pop "hess" kw));
               call_warned := dict_has "jac" opt_kwargs |}).
Proof.
  assert (Ej : dict_has "jac" (dict_pop "constraints"
                                        (dict_pop "method" opt_kwargs)) =
               dict_has "jac" opt_kwargs)
    by (unfold dict_has; now dict_simpl).
  unfold slsqp_arguments, renamed_keywords. cbv zeta. rewrite Ej. dict_simpl.
  destruct (dict_get "tol" opt_kwargs) as [tol|].
  - rewrite dict_get_set.
    change (String.eqb "acc" "options") with false. cbv iota. dict_simpl.
    reflexivity.
  - dict_simpl. reflexivity.
Qed.

Lemma dict_get_popped {V : Type} (kw : dict V) (key : string) :
  dict_get key (dict_pop "callback" (dict_pop "hessp" (dict_pop "hess" kw))) =
  if key_in key ["hess"; "hessp"; "callback"]%string then None else dict_get key kw.
Proof.
  destruct (key_in key ["hess"; "hessp"; "callback"]%string) eqn:Hk.
  - apply key_in_true in Hk. cbn [In] in Hk.
    destruct Hk as [<-|[<-|[<-|[]]]]; now dict_simpl.
  - apply key_in_false in Hk. cbn [In] in Hk.
    rewrite !dict_get_pop_other by (intros ->; apply Hk; auto 6). reflexivity.
Qed.

(** X2: whenever the wrapper gets as far as the optimizer, the keywords
    it passes hold none of [hess], [hessp] and [callback], and it warned
    about the Jacobian exactly when [jac] was given.  Without [options]
    they hold none of [method], [constraints], [jac], [tol] and
    [options] either; [acc] has the value given as [tol], which replaces
    a value given as [acc]; every other keyword is passed as given. *)
Theorem wrap_fmin_slsqp_keywords {V : Type}
        (opt_kwargs : dict (pyvalue V)) (c : slsqp_call V) :
  slsqp_arguments opt_kwargs = Returned c ->
  (forall key, In key ["hess"; "hessp"; "callback"]%string ->
               dict_get key (call_kwargs c) = None)
  /\ call_warned c = dict_has "jac" opt_kwargs
  /\ (dict_get "options" opt_kwargs = None ->
      (forall key,
          In key ["method"; "constraints"; "jac"; "tol"; "options"]%string ->
          dict_get key (call_kwargs c) = None)
      /\ dict_get "acc" (call_kwargs c) =
         match dict_get "tol" opt_kwargs with
         | Some tol => Some tol
         | None => dict_get "acc" opt_kwargs
         end
      /\ (forall key,
             ~ In key ["method"; "constraints"; "jac"; "tol"; "options";
                       "hess"; "hessp"; "callback"; "acc"]%string ->
             dict_get key (call_kwargs c) = dict_get key opt_kwargs)).
Proof.
  rewrite slsqp_arguments_unfold.
  destruct (match dict_get "constraints" opt_kwargs with
            | Some v => collect_constraints v
            | None => Returned ([], [])
            end) as [cons|e]; cbn [and_then]; [|discriminate].
  destruct (dict_get "options" opt_kwargs) as [o|] eqn:Eo.
  - destruct o as [v|s|opts|items]; cbn [and_then]; try discriminate.
    intros [= <-]. cbn [call_kwargs call_warned].
    split; [|split; [reflexivity | discriminate]].
    intros key Hk. rewrite dict_get_popped.
    apply key_in_true in Hk. now rewrite Hk.
  - cbn [and_then]. intros [= <-]. cbn [call_kwargs call_warned].
    split; [|split; [reflexivity|]].
    + intros key Hk. rewrite dict_get_popped.
      apply key_in_true in Hk. now rewrite Hk.
    + intros _. split; [|split].
      * intros key Hk. rewrite dict_get_popped, renamed_keywords_get.
        cbn [In] in Hk.
        destruct Hk as [<-|[<-|[<-|[<-|[<-|[]]]]]]; cbn; auto.
      * rewrite dict_get_popped, renamed_keywords_get. reflexivity.
      * intros key Hk. cbn [In] in Hk.
        rewrite dict_get_popped, renamed_keywords_get.
        assert (H1 : key_in key ["hess"; "hessp"; "callback"]%string = false)
          by (apply key_in_false; cbn [In]; tauto).
        assert (H2 : key_in key ["method"; "constraints"; "jac"; "tol"]%string = false)
          by (apply key_in_false; cbn [In]; tauto).
        rewrite H1, H2.
        destruct (String.eqb_spec key "acc") as [->|Ha]; [|reflexivity].
        exfalso. apply Hk. auto 12.
Qed.

Lemma wrap_fmin_slsqp_keywords_witness :
  let kw : dict (pyvalue nat) :=
    [("method", Str "SLSQP"); ("tol", Atom 3); ("acc", Atom 4);
     ("hess", Atom 5); ("iter", Atom 6)]%string in
  exists c,
    slsqp_arguments kw = Returned c
    /\ dict_get "hess" (call_kwargs c) = None
    /\ dict_get "method" (call_kwargs c) = None
    /\ dict_get "acc" (call_kwargs c) = Some (Atom 3)
    /\ dict_get "iter" (call_kwargs c) = Some (Atom 6).
Proof.
  intros kw.
  assert (Hc : exists c, slsqp_arguments kw = Returned c)
    by (eexists; reflexivity).
  destruct Hc as [c Hc]. exists c.
  destruct (wrap_fmin_slsqp_keywords kw c Hc) as (H1 & _ & H2).
  destruct (H2 eq_refl) as (H3 & H4 & H5).
  split; [exact Hc|]. split; [apply H1; cbn; auto|].
  split; [apply H3; cbn; auto|]. split; [exact H4|].
  apply (H5 "iter"%string). cbn [In].
  intros [E|[E|[E|[E|[E|[E|[E|[E|[E|[]]]]]]]]]]; discriminate E.
Defined.

(** X3: with a dictionary as [options], its entries are merged over the
    keywords that the wrapper would pass without [options]: the wrapper
    returns and raises as it does without them, finds the same
    constraints and warns the same; a keyword other than [hess], [hessp]
    and [callback] has the value [options] gives it, if any, and else the
    value it has without [options].  In particular an entry [tol] of
    [options] is passed on under the name [tol]. *)
Theorem wrap_fmin_slsqp_options {V : Type}
        (opt_kwargs : dict (pyvalue V)) (opts : dict (pyvalue V)) :
  dict_get "options" opt_kwargs = Some (DictOf opts) ->
  match slsqp_arguments (dict_pop "options" opt_kwargs) with
  | Returned c0 =>
      exists c,
        slsqp_arguments opt_kwargs = Returned c
        /\ call_eqcons c = call_eqcons c0
        /\ call_ieqcons c = call_ieqcons c0
        /\ call_warned c = call_warned c0
        /\ (forall key,
               dict_get key (call_kwargs c) =
               if key_in key ["hess"; "hessp"; "callback"]%string then None
               else match dict_get key opts with
                    | Some v => Some v
                    | None => dict_get key (call_kwargs c0)
                    end)
        /\ (forall tol, dict_get "tol" opts = Some tol ->
                        dict_get "tol" (call_kwargs c) = Some tol)
  | Raised e => slsqp_arguments opt_kwargs = Raised e
  end.
Proof.
  intros Ho. rewrite !slsqp_arguments_unfold. dict_simpl. rewrite Ho.
  destruct (match dict_get "constraints" opt_kwargs with
            | Some v => collect_constraints v
            | None => Returned ([], [])
            end) as [cons|e]; cbn [and_then]; [|reflexivity].
  eexists. split; [reflexivity|]. cbn [call_eqcons call_ieqcons call_kwargs
                                         call_warned].
  split; [reflexivity|]. split; [reflexivity|].
  assert (Hkeys : forall key,
             dict_get key
               (dict_pop "callback"
                  (dict_pop "hessp"
                     (dict_pop "hess"
                        (dict_of_items
                           (dict_items
                              (dict_pop "options" (renamed_keywords opt_kwargs))
                            ++ dict_items opts))))) =
             if key_in key ["hess"; "hessp"; "callback"]%string then None
             else match dict_get key opts with
                  | Some v => Some v
                  | None =>
                      dict_get key
                        (dict_pop "callback"
                           (dict_pop "hessp"
                              (dict_pop "hess"
                                 (renamed_keywords
                                    (dict_pop "options" opt_kwargs)))))
                  end).
  { intros key. rewrite !dict_get_popped, dict_get_merged.
    destruct (key_in key ["hess"; "hessp"; "callback"]%string); [reflexivity|].
    destruct (dict_get key opts); [reflexivity|].
    rewrite !renamed_keywords_get. dict_simpl.
    destruct (String.eqb_spec key "options") as [->|Hne].
    - now dict_simpl.
    - rewrite !dict_get_pop_other by (assumption || discriminate).
      now rewrite renamed_keywords_get. }
  split; [|split].
  - unfold dict_has. now dict_simpl.
  - exact Hkeys.
  - intros tol Ht. rewrite Hkeys, Ht. reflexivity.
Qed.

Lemma wrap_fmin_slsqp_options_witness :
  let kw : dict (pyvalue nat) :=
    [("tol", Atom 3);
     ("options", DictOf [("tol", Atom 7); ("hess", Atom 8)])]%string in
  exists c,
    slsqp_arguments kw = Returned c
    /\ dict_get "tol" (call_kwargs c) = Some (Atom 7)
    /\ dict_get "acc" (call_kwargs c) = Some (Atom 3)
    /\ dict_get "hess" (call_kwargs c) = None.
Proof.
  intros kw.
  pose proof (wrap_fmin_slsqp_options kw
                [("tol", Atom 7); ("hess", Atom 8)]%string eq_refl) as H.
  cbv beta iota zeta delta [slsqp_arguments] in H.
  destruct H as (c & Hc & _ & _ & _ & Hkeys & Htol).
  exists c. split; [exact Hc|]. split; [exact (Htol (Atom 7) eq_refl)|].
  split.
  - rewrite (Hkeys "acc"%string). reflexivity.
  - rewrite (Hkeys "hess"%string). reflexivity.
Defined.


(** ** More on row deduplication *)

Lemma lex_cmp_antisym (a b : row) :
  length a = length b -> lex_cmp b a = (- lex_cmp a b)%Z.
Proof.
  revert b. induction a as [|x a IH]; intros [|y b] H; simpl in *;
    try discriminate; [reflexivity|].
  rewrite (Z.eqb_sym y x). destruct (Z.eqb_spec x y) as [->|Hne].
  - apply IH. lia.
  - destruct (Z.gtb_spec x y), (Z.gtb_spec y x); lia.
Qed.

Lemma lex_cmp_range (a b : row) :
  lex_cmp a b = (-1)%Z \/ lex_cmp a b = 0%Z \/ lex_cmp a b = 1%Z.
Proof.
  revert b. induction a as [|x a IH]; intros [|y b]; simpl; auto.
  destruct (x =? y)%Z; [apply IH|]. destruct (x >? y)%Z; auto.
Qed.

Lemma lex_cmp_first_difference (a b : row) (i : nat) :
  firstn i a = firstn i b -> i < length a -> i < length b ->
  nth i a 0%Z <> nth i b 0%Z ->
  lex_cmp a b = if (nth i a 0 >? nth i b 0)%Z then 1%Z else (-1)%Z.
Proof.
  revert a b. induction i as [|i IH]; intros [|x a] [|y b] Hpre Ha Hb Hne;
    simpl in *; try lia.
  - destruct (Z.eqb_spec x y); [contradiction | reflexivity].
  - injection Hpre as -> Hpre. rewrite Z.eqb_refl. apply IH; auto; lia.
Qed.

(** X4: on two rows of one length, [_Row.__cmp__] returns -1, 0 or 1; it
    returns 0 exactly when the rows are equal; exchanging the rows
    negates it; it is decided by the leftmost position at which the rows
    differ; and "less than" is transitive. *)
Theorem Row_cmp_total_order (a b : row) :
  length a = length b ->
  (Row_cmp a b = (-1)%Z \/ Row_cmp a b = 0%Z \/ Row_cmp a b = 1%Z)
  /\ (Row_cmp a b = 0%Z <-> a = b)
  /\ Row_cmp b a = (- Row_cmp a b)%Z
  /\ (forall i, firstn i a = firstn i b -> i < length a ->
                nth i a 0%Z <> nth i b 0%Z ->
                Row_cmp a b = if (nth i a 0 >? nth i b 0)%Z then 1%Z
                              else (-1)%Z)
  /\ (forall c, (Row_cmp a b < 0)%Z -> (Row_cmp b c < 0)%Z ->
                (Row_cmp a c < 0)%Z).
Proof.
  intros Hlen. rewrite !Row_cmp_lex.
  split; [apply lex_cmp_range|].
  split; [now apply lex_cmp_eq|].
  split; [now apply lex_cmp_antisym|].
  split.
  - intros i Hpre Hi Hne. apply lex_cmp_first_difference; auto. lia.
  - intros c. rewrite !Row_cmp_lex. apply lex_cmp_trans.
Qed.

Lemma Row_cmp_total_order_witness :
  Row_cmp [1; 5; 2]%Z [1; 3; 9]%Z = 1%Z
  /\ Row_cmp [1; 3; 9]%Z [1; 5; 2]%Z = (-1)%Z.
Proof.
  destruct (Row_cmp_total_order [1; 5; 2]%Z [1; 3; 9]%Z eq_refl)
    as (_ & _ & Hanti & Hfirst & _).
  assert (E : Row_cmp [1; 5; 2]%Z [1; 3; 9]%Z = 1%Z).
  { apply (Hfirst 1); [reflexivity | simpl; lia | simpl; lia]. }
  split; [exact E|]. rewrite Hanti, E. reflexivity.
Defined.

(** *** The rows come out in ascending order *)

Lemma StronglySorted_map {A B : Type} (R : B -> B -> Prop) (f : A -> B)
      (l : list A) :
  StronglySorted (fun a b => R (f a) (f b)) l -> StronglySorted R (map f l).
Proof.
  induction 1 as [|a l Hs IH Hall]; [constructor|].
  cbn [map]. constructor; [exact IH|].
  apply Forall_forall. intros b Hb. apply in_map_iff in Hb.
  destruct Hb as (a' & <- & Ha'). rewrite Forall_forall in Hall. auto.
Qed.

Section Canonical.
Context {n : nat} {O : RowOrder n}.

Lemma unique_rows_sorted (arr : table) :
  Forall (fun r => length r = n) arr ->
  StronglySorted row_lt (unique_rows cmp arr).
Proof.
  intros Hw. destruct (unique_rows_cases arr Hw) as [-> | ->]; [constructor|].
  unfold take_rows. apply StronglySorted_map.
  now apply unique_index_sorted.
Qed.

Lemma unique_rows_width (arr : table) :
  Forall (fun r => length r = n) arr ->
  Forall (fun r => length r = n) (unique_rows cmp arr).
Proof.
  intros Hw. apply Forall_forall. intros r Hr.
  apply unique_rows_sound in Hr. rewrite Forall_forall in Hw. auto.
Qed.

(** Two strictly ascending lists of rows with the same members are
    equal. *)
Lemma sorted_rows_unique (l1 : list row) :
  forall l2 : list row,
    Forall (fun r => length r = n) l1 -> Forall (fun r => length r = n) l2 ->
    StronglySorted row_lt l1 -> StronglySorted row_lt l2 ->
    (forall r, In r l1 <-> In r l2) -> l1 = l2.
Proof.
  induction l1 as [|x l1 IH]; intros [|y l2] Hw1 Hw2 Hs1 Hs2 Hmem.
  - reflexivity.
  - exfalso. apply (Hmem y). now left.
  - exfalso. apply (Hmem x). now left.
  - apply StronglySorted_inv in Hs1. destruct Hs1 as [Hs1 Hx].
    apply StronglySorted_inv in Hs2. destruct Hs2 as [Hs2 Hy].
    pose proof (Forall_inv Hw1) as Hwx. pose proof (Forall_inv_tail Hw1) as Hw1'.
    pose proof (Forall_inv Hw2) as Hwy. pose proof (Forall_inv_tail Hw2) as Hw2'.
    cbn beta in Hwx, Hwy.
    rewrite Forall_forall in Hx, Hy.
    assert (Exy : x = y).
    { destruct (proj1 (Hmem x) (or_introl eq_refl)) as [E|Hin]; [now symmetry|].
      destruct (proj2 (Hmem y) (or_introl eq_refl)) as [E|Hin']; [exact E|].
      exfalso. apply (row_lt_irrefl x Hwx).
      apply (cmp_trans x y x); auto; [now apply Hx | now apply Hy]. }
    subst y. f_equal. apply IH; auto.
    intros r. split; intros Hr.
    + destruct (proj1 (Hmem r) (or_intror Hr)) as [E|Hin]; [|exact Hin].
      subst r. exfalso. apply (row_lt_irrefl x Hwx). now apply Hx.
    + destruct (proj2 (Hmem r) (or_intror Hr)) as [E|Hin]; [|exact Hin].
      subst r. exfalso. apply (row_lt_irrefl x Hwx). now apply Hy.
Qed.

End Canonical.

(** X5: for tables whose rows have one width [n], sorted by any total
    order on such rows, [unique_rows] returns the rows in strictly
    ascending order; it returns the same for two tables with the same
    rows, whatever their order and their repetitions; applied to its own
    result it returns it unchanged; and it returns at most as many rows
    as the table has. *)
Theorem unique_rows_canonical {n : nat} {O : RowOrder n} (arr arr' : table) :
  Forall (fun r => length r = n) arr ->
  Forall (fun r => length r = n) arr' ->
  StronglySorted row_lt (unique_rows cmp arr)
  /\ ((forall r, In r arr <-> In r arr') ->
      unique_rows cmp arr = unique_rows cmp arr')
  /\ unique_rows cmp (unique_rows cmp arr) = unique_rows cmp arr
  /\ length (unique_rows cmp arr) <= length arr.
Proof.
  intros Hw Hw'.
  assert (Hcanon : forall t t' : table,
             Forall (fun r => length r = n) t ->
             Forall (fun r => length r = n) t' ->
             (forall r, In r t <-> In r t') ->
             unique_rows cmp t = unique_rows cmp t').
  { intros t t' Ht Ht' Hmem. destruct (Nat.eq_dec n 0) as [Hn|Hn].
    { rewrite !unique_rows_no_columns; [reflexivity | |];
        (eapply Forall_impl; [|eassumption]); cbn beta; intros r Hr; lia. }
    assert (Hn1 : 1 <= n) by lia.
    apply sorted_rows_unique.
    - now apply unique_rows_width.
    - now apply unique_rows_width.
    - now apply unique_rows_sorted.
    - now apply unique_rows_sorted.
    - intros r. split; intros Hr.
      + apply unique_rows_complete; [assumption | assumption |]. apply Hmem.
        now apply unique_rows_sound in Hr.
      + apply unique_rows_complete; [assumption | assumption |]. apply Hmem.
        now apply unique_rows_sound in Hr. }
  split; [now apply unique_rows_sorted|].
  split; [now apply Hcanon|]. split.
  - destruct (Nat.eq_dec n 0) as [Hn|Hn].
    { assert (E : unique_rows cmp arr = []).
      { apply unique_rows_no_columns.
        eapply Forall_impl; [|exact Hw]. cbn beta. intros r Hr. lia. }
      rewrite E. reflexivity. }
    apply Hcanon; [now apply unique_rows_width | assumption |].
    intros r. split; intros Hr.
    + now apply unique_rows_sound in Hr.
    + apply unique_rows_complete; [assumption | lia | assumption].
  - apply NoDup_incl_length; [now apply unique_rows_NoDup|].
    intros r Hr. now apply unique_rows_sound in Hr.
Qed.

Lemma unique_rows_canonical_witness :
  unique_rows Row_cmp [[2; 1]; [0; 3]; [2; 1]]%Z =
  unique_rows Row_cmp [[0; 3]; [2; 1]]%Z
  /\ unique_rows Row_cmp (unique_rows Row_cmp [[2; 1]; [0; 3]; [2; 1]]%Z) =
     unique_rows Row_cmp [[2; 1]; [0; 3]; [2; 1]]%Z.
Proof.
  assert (Hw : Forall (fun r : row => length r = 2)
                      [[2; 1]; [0; 3]; [2; 1]]%Z) by (repeat constructor).
  assert (Hw' : Forall (fun r : row => length r = 2) [[0; 3]; [2; 1]]%Z)
    by (repeat constructor).
  destruct (@unique_rows_canonical 2 (Row_order 2) _ _ Hw Hw')
    as (_ & Hsame & Hidem & _).
  split; [|exact Hidem]. apply Hsame.
  intros r. simpl. tauto.
Defined.

(** *** The branch for numpy 1.6.2 and the sort-based branch *)

(** The indices [scipy.unique] returns depend on the comparison only
    through its sign on the rows of the table. *)
Section SameSigns.
Variables c1 c2 : row -> row -> Z.
Variable arr : table.
Hypothesis same_signs :
  forall i j, i < length arr -> j < length arr ->
    (c1 (row_at arr i) (row_at arr j) <? 0)%Z =
    (c2 (row_at arr i) (row_at arr j) <? 0)%Z
    /\ (c1 (row_at arr i) (row_at arr j) =? 0)%Z =
       (c2 (row_at arr i) (row_at arr j) =? 0)%Z.





End SameSigns.





(** ** More on the set partitions *)

(** *** The order of the strings *)

Lemma StronglySorted_app {A : Type} (R : A -> A -> Prop) (l1 l2 : list A) :
  StronglySorted R l1 -> StronglySorted R l2 ->
  (forall a b, In a l1 -> In b l2 -> R a b) ->
  StronglySorted R (l1 ++ l2).
Proof.
  intros H1 H2 Hcross. induction H1 as [|a l1 Hs IH Hall]; [exact H2|].
  cbn [app]. constructor.
  - apply IH. intros u v Hu Hv. apply Hcross; [now right | exact Hv].
  - apply Forall_app. split; [exact Hall|].
    apply Forall_forall. intros v Hv. apply Hcross; [now left | exact Hv].
Qed.

Lemma lex_lt_chunks (f : nat -> list (list nat)) (len : nat) :
  forall start,
    (forall c, StronglySorted lex_lt (f c)) ->
    (forall c s, In s (f c) -> exists t, s = c :: t) ->
    StronglySorted lex_lt (flat_map f (seq start len)).
Proof.
  induction len as [|len IH]; intros start Hs Hhead; [constructor|].
  cbn [seq flat_map]. apply StronglySorted_app; [apply Hs | now apply IH |].
  intros a b Ha Hb. apply Hhead in Ha. destruct Ha as [t ->].
  apply in_flat_map in Hb. destruct Hb as (c & Hc & Hb).
  apply Hhead in Hb. destruct Hb as [u ->]. apply in_seq in Hc.
  cbn [lex_lt]. left. lia.
Qed.

Lemma rgs_tails_sorted (k : nat) :
  forall m, StronglySorted lex_lt (rgs_tails k m).
Proof.
  induction k as [|k IH]; intros m.
  - cbn [rgs_tails]. repeat constructor.
  - cbn [rgs_tails]. apply lex_lt_chunks.
    + intros c. specialize (IH (Nat.max m (c + 1))).
      induction IH as [|a l Hs IHs Hall]; [constructor|].
      cbn [map]. constructor; [exact IHs|].
      apply Forall_forall. intros b Hb. apply in_map_iff in Hb.
      destruct Hb as (b' & <- & Hb'). rewrite Forall_forall in Hall.
      cbn [lex_lt]. right. split; [reflexivity | now apply Hall].
    + intros c s Hin. apply in_map_iff in Hin. destruct Hin as (t & <- & _).
      now exists t.
Qed.

Lemma last_app_nonempty {A : Type} (l1 l2 : list A) (d : A) :
  l2 <> [] -> last (l1 ++ l2) d = last l2 d.
Proof.
  intros Hne. induction l1 as [|a l1 IH]; [reflexivity|].
  cbn [app]. destruct (l1 ++ l2) eqn:E.
  - apply app_eq_nil in E. tauto.
  - rewrite <- IH. reflexivity.
Qed.

Lemma last_map_nonempty {A B : Type} (g : A -> B) (l : list A) (d : A)
      (d' : B) :
  l <> [] -> last (map g l) d' = g (last l d).
Proof.
  induction l as [|a l IH]; [congruence|]. intros _.
  destruct l as [|b l]; [reflexivity|].
  change (last (map g (a :: b :: l)) d') with (last (map g (b :: l)) d').
  change (last (a :: b :: l) d) with (last (b :: l) d).
  apply IH. discriminate.
Qed.

Lemma rgs_tails_last (k : nat) :
  forall m, last (rgs_tails k m) [] = seq m k.
Proof.
  induction k as [|k IH]; intros m; [reflexivity|].
  cbn [rgs_tails]. rewrite seq_S, flat_map_app. cbn [flat_map Nat.add].
  rewrite app_nil_r.
  assert (Hne : rgs_tails k (Nat.max m (m + 1)) <> [])
    by (rewrite rgs_tails_first; discriminate).
  rewrite last_app_nonempty
    by (intros E; apply map_eq_nil in E; contradiction).
  rewrite (last_map_nonempty (cons m) _ []) by exact Hne.
  rewrite IH. cbn [seq]. f_equal. f_equal. lia.
Qed.

(** X7: for [n >= 1] and an iteration budget of the [n]-th Bell number,
    [generate_set_partition_strings] returns its strings in strictly
    ascending lexicographic order; the first is the string of zeros (one
    block), the last is [0, 1, ..., n-1] (every element a block of its
    own). *)
Theorem generate_set_partition_strings_lexicographic (n fuel : nat) :
  1 <= n -> bell n <= fuel ->
  exists strings,
    generate_set_partition_strings fuel n = Ok strings
    /\ StronglySorted lex_lt strings
    /\ hd [] strings = repeat 0 n
    /\ last strings [] = seq 0 n.
Proof.
  intros Hn Hfuel. exists (restricted_growth_strings n). split.
  - apply generate_set_partition_strings_all; [exact Hn|].
    now rewrite length_restricted_growth_strings.
  - unfold restricted_growth_strings. split; [apply rgs_tails_sorted|].
    split; [now rewrite rgs_tails_first | apply rgs_tails_last].
Qed.

Lemma generate_set_partition_strings_lexicographic_witness :
  exists strings,
    generate_set_partition_strings 5 3 = Ok strings
    /\ hd [] strings = [0; 0; 0]
    /\ last strings [] = [0; 1; 2].
Proof.
  assert (H1 : 1 <= 3) by lia.
  assert (H2 : bell 3 <= 5) by (vm_compute; lia).
  destruct (generate_set_partition_strings_lexicographic 3 5 H1 H2)
    as (strings & Hok & _ & Hhd & Hlast).
  exists strings. split; [exact Hok|]. split; [exact Hhd | exact Hlast].
Defined.

(** *** The blocks of the first and of the last string *)

Lemma list_max_repeat_0 (n : nat) : list_max (repeat 0 n) = 0.
Proof. induction n as [|n IH]; [reflexivity|]. cbn [repeat]. exact IH. Qed.

Lemma list_max_seq (k : nat) : forall s, list_max (seq s (S k)) = s + k.
Proof.
  induction k as [|k IH]; intros s; [cbn; lia|].
  change (seq s (S (S k))) with (s :: seq (S s) (S k)).
  change (list_max (s :: seq (S s) (S k)))
    with (Nat.max s (list_max (seq (S s) (S k)))).
  rewrite IH. lia.
Qed.

Lemma filter_all {A : Type} (P : A -> bool) (l : list A) :
  (forall a, In a l -> P a = true) -> filter P l = l.
Proof.
  induction l as [|a l IH]; intros H; [reflexivity|].
  cbn [filter]. rewrite (H a) by now left. f_equal. apply IH.
  intros b Hb. apply H. now right.
Qed.

Lemma mask_select_all {A : Type} (l : list A) (n : nat) :
  length l = n -> mask_select l (map (fun a => a =? 0) (repeat 0 n)) = l.
Proof.
  revert n. induction l as [|a l IH]; intros [|n] H; try discriminate;
    [reflexivity|].
  cbn [repeat map mask_select Nat.eqb]. f_equal. apply IH. simpl in H. lia.
Qed.

Lemma blocks_of_zeros {A : Type} (set_ : list A) :
  1 <= length set_ -> blocks_of set_ (repeat 0 (length set_)) = [set_].
Proof.
  intros Hn. unfold blocks_of, unique_labels. rewrite list_max_repeat_0.
  cbn [seq filter].
  assert (E : existsb (Nat.eqb 0) (repeat 0 (length set_)) = true)
    by (destruct (length set_); [lia | reflexivity]).
  rewrite E. cbn [map]. f_equal. now apply mask_select_all.
Qed.

Lemma mask_select_one {A : Type} (l : list A) (d : A) (v : nat) :
  forall s,
    mask_select l (map (fun a => a =? v) (seq s (length l))) =
    if (s <=? v) && (v <? s + length l) then [nth (v - s) l d] else [].
Proof.
  induction l as [|x l IH]; intros s.
  - cbn [length seq map mask_select].
    destruct (Nat.leb_spec s v) as [H1|H1]; cbn [andb]; [|reflexivity].
    destruct (Nat.ltb_spec v (s + 0)) as [H2|H2]; [lia | reflexivity].
  - cbn [length seq map mask_select]. rewrite IH.
    destruct (Nat.eqb_spec s v) as [->|Hne].
    + rewrite Nat.sub_diag. cbn [nth].
      destruct (Nat.leb_spec (S v) v); [lia|]. cbn [andb].
      destruct (Nat.leb_spec v v); [|lia].
      destruct (Nat.ltb_spec v (v + S (length l))); [reflexivity | lia].
    + destruct (Nat.leb_spec (S s) v) as [H1|H1],
               (Nat.leb_spec s v) as [H2|H2]; try lia; cbn [andb].
      * destruct (Nat.ltb_spec v (S s + length l)) as [H3|H3],
                 (Nat.ltb_spec v (s + S (length l))) as [H4|H4]; try lia.
        -- replace (v - s) with (S (v - S s)) by lia. reflexivity.
        -- reflexivity.
      * reflexivity.
Qed.

Lemma map_seq_nth {A B : Type} (g : A -> B) (l : list A) (d : A) :
  map (fun v => g (nth v l d)) (seq 0 (length l)) = map g l.
Proof.
  induction l as [|a l IH]; [reflexivity|].
  cbn [length seq map nth]. f_equal.
  rewrite <- seq_shift, map_map. exact IH.
Qed.

Lemma unique_labels_seq (n : nat) : unique_labels (seq 0 n) = seq 0 n.
Proof.
  destruct n as [|k]; [reflexivity|].
  unfold unique_labels. rewrite list_max_seq. cbn [Nat.add].
  apply filter_all. intros v Hv. apply existsb_exists. exists v.
  split; [exact Hv | apply Nat.eqb_refl].
Qed.

Lemma blocks_of_seq {A : Type} (set_ : list A) :
  1 <= length set_ ->
  blocks_of set_ (seq 0 (length set_)) = map (fun a => [a]) set_.
Proof.
  intros Hn. destruct set_ as [|d set0] eqn:E; [simpl in Hn; lia|].
  rewrite <- E in *. unfold blocks_of. rewrite unique_labels_seq.
  rewrite <- (map_seq_nth (fun a => [a]) set_ d).
  apply map_ext_in. intros v Hv. apply in_seq in Hv.
  rewrite (mask_select_one set_ d v 0). cbn [Nat.leb andb Nat.add].
  destruct (Nat.ltb_spec v (length set_)); [|lia].
  now rewrite Nat.sub_0_r.
Qed.

Lemma hd_map {A B : Type} (g : A -> B) (l : list A) (d : A) (d' : B) :
  l <> [] -> hd d' (map g l) = g (hd d l).
Proof. destruct l; [congruence | reflexivity]. Qed.

(** X8: with an iteration budget of the Bell number of its length,
    [generate_set_partitions] returns: for the empty set the empty list,
    for a set of [m >= 1] elements as many partitions as the [m]-th Bell
    number.  The blocks of every partition are not empty and hold
    together every element of the set exactly once.  The first partition
    is the set as one block, the last one has every element in a block of
    its own. *)
Theorem generate_set_partitions_blocks {A : Type} (fuel : nat)
        (set_ : list A) :
  bell (length set_) <= fuel ->
  exists partitions,
    generate_set_partitions fuel set_ = Ok partitions
    /\ length partitions =
       (if length set_ =? 0 then 0 else bell (length set_))
    /\ (forall p, In p partitions ->
                  Permutation (concat p) set_
                  /\ Forall (fun b => b <> []) p)
    /\ (1 <= length set_ ->
        hd [] partitions = [set_]
        /\ last partitions [] = map (fun a => [a]) set_).
Proof.
  intros Hfuel. destruct (Nat.eqb_spec (length set_) 0) as [E|E].
  - destruct set_; [|discriminate]. exists []. split; [reflexivity|].
    split; [reflexivity|]. split; [intros p []|]. simpl. lia.
  - assert (Hn : 1 <= length set_) by lia.
    exists (set_partitions set_).
    split; [now apply generate_set_partitions_all|].
    assert (Hne : restricted_growth_strings (length set_) <> []).
    { unfold restricted_growth_strings. rewrite rgs_tails_first.
      discriminate. }
    split; [|split].
    + unfold set_partitions.
      now rewrite length_map, length_restricted_growth_strings.
    + intros p. apply set_partitions_partition.
    + intros _. unfold set_partitions. split.
      * rewrite (hd_map _ _ []) by exact Hne.
        unfold restricted_growth_strings. rewrite rgs_tails_first.
        cbn [hd]. now apply blocks_of_zeros.
      * rewrite (last_map_nonempty _ _ []) by exact Hne.
        unfold restricted_growth_strings. rewrite rgs_tails_last.
        now apply blocks_of_seq.
Qed.

Lemma generate_set_partitions_blocks_witness :
  exists partitions,
    generate_set_partitions 5 [7; 8; 9]%Z = Ok partitions
    /\ length partitions = 5
    /\ hd [] partitions = [[7; 8; 9]]%Z
    /\ last partitions [] = [[7]; [8]; [9]]%Z.
Proof.
  assert (Hfuel : bell (length [7; 8; 9]%Z) <= 5) by (vm_compute; lia).
  destruct (generate_set_partitions_blocks 5 [7; 8; 9]%Z Hfuel)
    as (partitions & Hok & Hlen & _ & Hends).
  assert (Hn : 1 <= length [7; 8; 9]%Z) by (simpl; lia).
  destruct (Hends Hn) as [Hhd Hlast].
  exists partitions. split; [exact Hok|]. split; [exact Hlen|].
  split; [exact Hhd | exact Hlast].
Defined.

(** *** Distinct partitions *)

Lemma list_max_map_S (l : list nat) :
  l <> [] -> list_max (map S l) = S (list_max l).
Proof.
  induction l as [|y l IH]; [congruence|]. intros _. cbn [map].
  change (list_max (S y :: map S l))
    with (Nat.max (S y) (list_max (map S l))).
  change (list_max (y :: l)) with (Nat.max y (list_max l)).
  destruct l as [|z l]; [cbn; lia|].
  rewrite IH by discriminate. lia.
Qed.

Lemma rgs_labels_used (s : list nat) :
  forall m v, is_rgs_from m s -> v < bound_after m s -> v < m \/ In v s.
Proof.
  induction s as [|x s IH]; intros m v Hrgs Hv.
  - left. exact Hv.
  - destruct Hrgs as [Hx Hrgs]. rewrite bound_after_cons in Hv.
    destruct (IH _ v Hrgs Hv) as [H|H].
    + destruct (Nat.eq_dec v x) as [->|Hne]; [right; now left|].
      left. lia.
    + right. now right.
Qed.

Lemma unique_labels_rgs (s : list nat) :
  is_rgs s -> s <> [] -> unique_labels s = seq 0 (S (list_max s)).
Proof.
  intros Hrgs Hne. unfold unique_labels. apply filter_all.
  intros v Hv. apply in_seq in Hv. apply existsb_exists. exists v.
  split; [|apply Nat.eqb_refl].
  destruct (rgs_labels_used s 0 v Hrgs) as [H|H]; [|lia|exact H].
  rewrite bound_after_list_max, list_max_map_S by exact Hne. lia.
Qed.

Lemma in_mask_select {A : Type} (P : nat -> bool) (l : list A) (a : A) :
  forall s : list nat,
    length s = length l ->
    (In a (mask_select l (map P s)) <->
     exists j, nth_error l j = Some a /\ P (nth j s 0) = true).
Proof.
  induction l as [|y l IH]; intros [|c s] Hlen; try discriminate.
  - cbn. split; [tauto|]. intros ([|j] & Hj & _); discriminate.
  - cbn [map mask_select]. injection Hlen as Hlen. split.
    + intros Hin. destruct (P c) eqn:Ec.
      * destruct Hin as [->|Hin].
        -- exists 0. split; [reflexivity | exact Ec].
        -- apply IH in Hin; [|exact Hlen]. destruct Hin as (j & Hj & Hp).
           exists (S j). split; assumption.
      * apply IH in Hin; [|exact Hlen]. destruct Hin as (j & Hj & Hp).
        exists (S j). split; assumption.
    + intros ([|j] & Hj & Hp); cbn [nth_error nth] in *.
      * injection Hj as ->. rewrite Hp. now left.
      * assert (Hin : In a (mask_select l (map P s)))
          by (apply IH; [exact Hlen | now exists j]).
        destruct (P c); [now right | exact Hin].
Qed.

Lemma list_max_nth (l : list nat) (i : nat) :
  i < length l -> nth i l 0 <= list_max l.
Proof.
  intros Hi. pose proof (list_max_le l (list_max l)) as [H _].
  specialize (H (Nat.le_refl _)). rewrite Forall_forall in H.
  apply H, nth_In, Hi.
Qed.

Lemma blocks_of_injective {A : Type} (set_ : list A) (s s' : list nat) :
  NoDup set_ ->
  length s = length set_ -> length s' = length set_ ->
  is_rgs s -> is_rgs s' ->
  blocks_of set_ s = blocks_of set_ s' -> s = s'.
Proof.
  intros Hnd Hlen Hlen' Hrgs Hrgs' Heq.
  destruct set_ as [|x0 set0] eqn:Eset.
  { destruct s, s'; try discriminate. reflexivity. }
  rewrite <- Eset in *.
  assert (Hne : s <> []) by (intros ->; rewrite Eset in Hlen; discriminate).
  assert (Hne' : s' <> []) by (intros ->; rewrite Eset in Hlen'; discriminate).
  unfold blocks_of in Heq.
  rewrite (unique_labels_rgs s Hrgs Hne), (unique_labels_rgs s' Hrgs' Hne')
    in Heq.
  assert (Hmax : list_max s = list_max s').
  { apply (f_equal (@length _)) in Heq.
    rewrite !length_map, !length_seq in Heq. lia. }
  assert (Half : forall (t t' : list nat),
             length t = length set_ -> length t' = length set_ ->
             (forall v, v <= list_max t ->
                mask_select set_ (map (fun a => a =? v) t) =
                mask_select set_ (map (fun a => a =? v) t')) ->
             forall i, i < length set_ -> nth i t' 0 = nth i t 0).
  { intros t t' Ht Ht' Hblocks i Hi.
    destruct (nth_error set_ i) as [a|] eqn:Ea;
      [|apply nth_error_None in Ea; lia].
    assert (Hin : In a (mask_select set_
                          (map (fun c => c =? nth i t 0) t))).
    { apply in_mask_select; [exact Ht|]. exists i.
      split; [exact Ea | apply Nat.eqb_refl]. }
    rewrite Hblocks in Hin by (apply list_max_nth; lia).
    apply in_mask_select in Hin; [|exact Ht'].
    destruct Hin as (j & Hj & Hp). apply Nat.eqb_eq in Hp.
    assert (i = j).
    { rewrite <- Hj in Ea. apply (proj1 (NoDup_nth_error set_) Hnd); auto. }
    subst j. exact Hp. }
  assert (Hblocks : forall v, v <= list_max s ->
             mask_select set_ (map (fun a => a =? v) s) =
             mask_select set_ (map (fun a => a =? v) s')).
  { intros v Hv.
    pose proof (f_equal (fun l => nth v l []) Heq) as E. cbn beta in E.
    rewrite !(nth_indep _ []
                (mask_select set_ (map (fun a => a =? 0) s))) in E
      by (rewrite length_map, length_seq; lia).
    rewrite (map_nth (fun v => mask_select set_ (map (fun a => a =? v) s)))
      in E.
    rewrite (nth_indep _ _
               (mask_select set_ (map (fun a => a =? 0) s'))) in E
      by (rewrite length_map, length_seq; lia).
    rewrite (map_nth (fun v => mask_select set_ (map (fun a => a =? v) s')))
      in E.
    rewrite !seq_nth in E by lia. exact E. }
  symmetry. apply (nth_ext _ _ 0 0); [lia|].
  intros i Hi. apply (Half s s'); auto. lia.
Qed.

(** X9: for a set without repeated elements, and an iteration budget of
    the Bell number of its length, no partition is returned twice by
    [generate_set_partitions]. *)
Theorem generate_set_partitions_distinct {A : Type} (fuel : nat)
        (set_ : list A) :
  NoDup set_ -> bell (length set_) <= fuel ->
  exists partitions,
    generate_set_partitions fuel set_ = Ok partitions /\ NoDup partitions.
Proof.
  intros Hnd Hfuel. destruct (Nat.eqb_spec (length set_) 0) as [E|E].
  - destruct set_; [|discriminate]. exists []. split; [reflexivity|].
    constructor.
  - exists (set_partitions set_).
    split; [apply generate_set_partitions_all; [lia | exact Hfuel]|].
    unfold set_partitions. apply NoDup_map_NoDup_ForallPairs.
    + intros s s' Hs Hs' Heq.
      apply in_restricted_growth_strings in Hs, Hs'.
      apply (blocks_of_injective set_); tauto.
    + apply NoDup_rgs_tails.
Qed.

Lemma generate_set_partitions_distinct_witness :
  exists partitions,
    generate_set_partitions 5 [7; 8; 9]%Z = Ok partitions
    /\ NoDup partitions.
Proof.
  assert (Hnd : NoDup [7; 8; 9]%Z).
  { repeat constructor; simpl; intuition discriminate. }
  assert (Hfuel : bell (length [7; 8; 9]%Z) <= 5) by (vm_compute; lia).
  exact (generate_set_partitions_distinct 5 [7; 8; 9]%Z Hnd Hfuel).
Defined.


(** ** More on the incomplete Bell polynomial *)

Section BellErrors.
Context {F : Type} `{Float F}.

Lemma column_outcome (x : array2 F) (m : nat) :
  (exists v, column x m = Ok v) \/ column x m = Raise IndexError.
Proof.
  unfold column. destruct (m <? shape1 x); [left; eauto | now right].
Qed.

Lemma bell_loop_outcome (x : array2 F) (n k' : nat) (l : list nat)
      (acc : result (list F)) :
  (forall m, (exists v, incomplete_bell_poly (n - (m + 1)) k' x = Ok v)
             \/ incomplete_bell_poly (n - (m + 1)) k' x = Raise IndexError) ->
  (exists v, acc = Ok v) \/ acc = Raise IndexError ->
  let r := fold_left
             (fun acc m =>
                result <- acc ;;
                col <- column x m ;;
                rec <- incomplete_bell_poly (n - (m + 1)) k' x ;;
                Ok (vzip fadd result
                         (vzip fmul (vscale col (binom (n - 1) m)) rec)))
             l acc in
  (exists v, r = Ok v) \/ r = Raise IndexError.
Proof.
  intros Hrec. revert acc. induction l as [|m l IH]; intros acc Hacc;
    [exact Hacc|].
  cbn [fold_left]. apply IH.
  destruct Hacc as [[v ->]| ->]; [|now right]. cbn [bind].
  destruct (column_outcome x m) as [[c ->]| ->]; [|now right]. cbn [bind].
  destruct (Hrec m) as [[r ->]| ->]; [|now right]. cbn [bind]. left. eauto.
Qed.

Lemma incomplete_bell_poly_outcome (k : nat) :
  forall (n : nat) (x : array2 F),
    (exists v, incomplete_bell_poly n k x = Ok v)
    \/ incomplete_bell_poly n k x = Raise IndexError.
Proof.
  induction k as [|k' IH]; intros n x; cbn [incomplete_bell_poly].
  - destruct (n =? 0); left; eauto.
  - destruct (n =? 0); [left; eauto|].
    apply bell_loop_outcome; [intros m; apply IH | left; eauto].
Qed.

(** X10: for [1 <= k <= n] and an array with fewer than [n - k + 1]
    columns, [incomplete_bell_poly] raises an IndexError, whatever the
    number of rows. *)
Theorem incomplete_bell_poly_too_few_columns (n k : nat) (x : array2 F) :
  1 <= k -> k <= n -> shape1 x < S n - k ->
  incomplete_bell_poly n k x = Raise IndexError.
Proof.
  intros Hk Hkn Hcols. destruct k as [|k']; [lia|].
  cbn [incomplete_bell_poly].
  destruct (Nat.eqb_spec n 0) as [->|Hn]; [lia|].
  replace (S n - S k') with (shape1 x + S (S n - S k' - shape1 x - 1)) by lia.
  rewrite seq_app, fold_left_app. cbn [seq fold_left Nat.add].
  match goal with
  | |- fold_left ?f _ (bind ?acc _) = _ =>
      assert (Hacc : (exists v, acc = Ok v) \/ acc = Raise IndexError)
  end.
  { apply bell_loop_outcome;
      [intros m; apply incomplete_bell_poly_outcome | left; eauto]. }
  rewrite fold_left_bind_not_Ok.
  - destruct Hacc as [[v ->]| ->]; [|reflexivity]. cbn [bind].
    unfold column. rewrite Nat.ltb_irrefl. reflexivity.
  - intros v0. destruct Hacc as [[v ->]| ->]; [|discriminate]. cbn [bind].
    unfold column. rewrite Nat.ltb_irrefl. discriminate.
Qed.

End BellErrors.

Lemma incomplete_bell_poly_too_few_columns_witness :
  incomplete_bell_poly 4 2 {| shape1 := 2; rows := [[1; 2]; [5; 6]]%Z |} =
  Raise IndexError.
Proof.
  apply (@incomplete_bell_poly_too_few_columns Z Z_Float 4 2); simpl; lia.
Defined.

(** *** Two closed forms on natural numbers *)

Lemma choose_gt (n : nat) : forall k, n < k -> choose n k = 0.
Proof.
  induction n as [|n IH]; intros [|k] Hk; try lia; [reflexivity|].
  cbn [choose]. rewrite !IH by lia. reflexivity.
Qed.


Lemma choose_0 (n : nat) : choose n 0 = 1.
Proof. destruct n; reflexivity. Qed.

Section ExactArithmetic.
Context {F : Type} `{Float F}.
Variable B : nat.
Hypothesis exact : exact_up_to B.


(** A sum of floats of natural numbers that stays within the bound. *)
Lemma fold_fadd_exact (g : nat -> F) (h : nat -> nat) (l : list nat) :
  forall s0,
    (forall m, In m l -> g m = of_nat (h m)) ->
    s0 + list_sum (map h l) <= B ->
    fold_left (fun acc m => fadd acc (g m)) l (of_nat s0) =
    of_nat (s0 + list_sum (map h l)).
Proof.
  destruct exact as (Hadd & _ & _).
  induction l as [|m l IH]; intros s0 Hg Hb.
  - cbn [fold_left map]. change (list_sum []) with 0.
    now rewrite Nat.add_0_r.
  - cbn [fold_left map] in *.
    change (list_sum (h m :: map h l)) with (h m + list_sum (map h l)) in *.
    rewrite (Hg m) by now left.
    rewrite Hadd by lia. rewrite IH; [f_equal; lia | | lia].
    intros m' Hm'. apply Hg. now right.
Qed.

(** One term of the loop. *)
Lemma bell_term_exact (a N j s : nat) :
  a <= B -> choose N j <= B -> a * choose N j <= B -> s <= B ->
  a * choose N j * s <= B ->
  fmul (fmul (of_nat a) (binom N j)) (of_nat s) =
  of_nat (a * choose N j * s).
Proof.
  destruct exact as (_ & Hmul & Hbinom). intros Ha Hc Hac Hs Hacs.
  rewrite Hbinom by exact Hc. rewrite Hmul by assumption.
  now rewrite Hmul by assumption.
Qed.



End ExactArithmetic.


Lemma Z_Float_exact (B : nat) : @exact_up_to Z Z_Float B.
Proof.
  unfold exact_up_to, of_nat. cbn.
  split; [|split]; intros; lia.
Qed.


(** ** The robust statistics *)

Section ComputeStats.
Context {F : Type} `{Float F} `{NumpyFloat F} `{Statistics F}.

Lemma nan_checked_loop_channels (rest : list (list F)) :
  forall (pre : list (list F)) (done : list F),
    length done = length pre ->
    nan_checked_loop (pre ++ rest) (seq (length pre) (length rest))
                     (Ok (done ++ repeat fzero (length rest))) =
    (r <- channel_ranges rest ;; Ok (done ++ r)).
Proof.
  unfold nan_checked_loop, get_item.
  induction rest as [|ch rest IH]; intros pre done Hlen.
  - cbn. reflexivity.
  - cbn [length seq repeat channel_ranges].
    cbn [fold_left bind].
    rewrite nth_error_app2, Nat.sub_diag by lia. cbn [nth_error].
    assert (Estep :
              (if existsb (fun b => b) (map (fun v => negb (isnan v)) ch)
               then iqr <- interquartile_range
                             (mask_select ch (map (fun v => negb (isnan v)) ch)) ;;
                    put_item (done ++ fzero :: repeat fzero (length rest))
                             (length pre) iqr
               else put_item (done ++ fzero :: repeat fzero (length rest))
                             (length pre) nan) =
              (v <- channel_range ch ;;
               Ok ((done ++ [v]) ++ repeat fzero (length rest)))).
    { assert (Eput : forall v,
                 put_item (done ++ fzero :: repeat fzero (length rest))
                          (length pre) v =
                 Ok ((done ++ [v]) ++ repeat fzero (length rest))).
      { intros v. unfold put_item. rewrite length_app. cbn [length].
        destruct (Nat.ltb_spec (length pre)
                               (length done + S (length (repeat fzero
                                                           (length rest)))));
          [|lia].
        rewrite <- Hlen, set_item_app, <- app_assoc. reflexivity. }
      unfold channel_range.
      destruct (existsb (fun b => b) (map (fun v => negb (isnan v)) ch)).
      - destruct (interquartile_range _); cbn [bind]; auto.
      - cbn [bind]. apply Eput. }
    cbn [bind]. rewrite Estep.
    destruct (channel_range ch) as [v|e|]; cbn [bind].
    + replace (pre ++ ch :: rest) with ((pre ++ [ch]) ++ rest)
        by (now rewrite <- app_assoc).
      replace (S (length pre)) with (length (pre ++ [ch]))
        by (rewrite length_app; simpl; lia).
      rewrite IH by (rewrite !length_app; simpl; lia).
      destruct (channel_ranges rest); cbn [bind]; try reflexivity.
      now rewrite <- app_assoc.
    + apply fold_left_bind_not_Ok. discriminate.
    + apply fold_left_bind_not_Ok. discriminate.
Qed.

Lemma channel_ranges_length (vals : list (list F)) (r : list F) :
  channel_ranges vals = Ok r -> length r = length vals.
Proof.
  revert r. induction vals as [|ch vals IH]; intros r.
  - cbn. now intros [= <-].
  - cbn [channel_ranges]. destruct (channel_range ch); cbn [bind];
      try discriminate.
    destruct (channel_ranges vals) as [r'| |]; cbn [bind]; try discriminate.
    intros [= <-]. cbn [length]. f_equal. now apply IH.
Qed.

Lemma channel_range_clean (ch : list F) :
  ch <> [] -> forallb (fun v => negb (isnan v)) ch = true ->
  channel_range ch = interquartile_range ch.
Proof.
  intros Hne Hclean. unfold channel_range.
  assert (Emask : mask_select ch (map (fun v => negb (isnan v)) ch) = ch).
  { clear Hne. induction ch as [|v ch IH]; [reflexivity|].
    cbn [forallb] in Hclean. apply andb_true_iff in Hclean.
    destruct Hclean as [Hv Hclean]. cbn [map mask_select]. rewrite Hv.
    f_equal. now apply IH. }
  rewrite Emask. destruct ch as [|v ch]; [congruence|].
  cbn [forallb] in Hclean. apply andb_true_iff in Hclean.
  destruct Hclean as [Hv _]. cbn [map existsb]. rewrite Hv. reflexivity.
Qed.

Lemma channel_ranges_clean (vals : list (list F)) :
  Forall (fun ch => ch <> []
                    /\ forallb (fun v => negb (isnan v)) ch = true) vals ->
  channel_ranges vals = unchecked_ranges vals.
Proof.
  induction 1 as [|ch vals [Hne Hclean] Hall IH]; [reflexivity|].
  cbn [channel_ranges unchecked_ranges].
  rewrite (channel_range_clean ch Hne Hclean), IH. reflexivity.
Qed.

Lemma compute_stats_nan_checked
      (draw : list (list F) -> list F -> list F -> Z -> result unit)
      (vals : list (list F)) (plot_QQ : bool) (bins : Z) (m : list F) :
  nanmedian vals 1 = Ok m ->
  compute_stats draw vals true true 1 plot_QQ bins =
  (r <- channel_ranges vals ;;
   let stats := (m, map (fun s => fdiv s IQR_TO_STD) r) in
   _ <- (if plot_QQ then draw vals (fst stats) (snd stats) bins else Ok tt) ;;
   Ok stats).
Proof.
  intros Hm. unfold compute_stats. cbn [Z.eqb Pos.eqb negb andb].
  rewrite Hm. cbn [bind].
  pose proof (nan_checked_loop_channels vals [] [] eq_refl) as E.
  cbn [app length] in E. rewrite E.
  destruct (channel_ranges vals); reflexivity.
Qed.

End ComputeStats.

(** X12: with [robust] and [check_nan] and [axis = 1], once the median
    that ignores [nan] is found, the deviation of every channel is found
    from the values of that channel that are not [nan], each divided by
    [IQR_TO_STD], an exception of the first channel that raises one being
    passed on.  A channel without a value that is not [nan] gets [nan]
    without a percentile being asked for, and a result has one deviation
    per channel. *)
Theorem compute_stats_robust_check_nan
        {F : Type} `{Float F} `{NumpyFloat F} `{Statistics F}
        (draw : list (list F) -> list F -> list F -> Z -> result unit)
        (vals : list (list F)) (plot_QQ : bool) (bins : Z) (m : list F) :
  nanmedian vals 1 = Ok m ->
  compute_stats draw vals true true 1 plot_QQ bins =
  (r <- channel_ranges vals ;;
   let stats := (m, map (fun s => fdiv s IQR_TO_STD) r) in
   _ <- (if plot_QQ then draw vals (fst stats) (snd stats) bins else Ok tt) ;;
   Ok stats)
  /\ (forall ch, forallb isnan ch = true -> channel_range ch = Ok nan)
  /\ (forall mean std,
         compute_stats draw vals true true 1 plot_QQ bins = Ok (mean, std) ->
         mean = m /\ length std = length vals).
Proof.
  intros Hm.
  pose proof (compute_stats_nan_checked draw vals plot_QQ bins m Hm) as E.
  split; [exact E|]. split.
  - intros ch Hnan. unfold channel_range.
    assert (Eno : existsb (fun b => b) (map (fun v => negb (isnan v)) ch)
                  = false).
    { induction ch as [|v ch IH]; [reflexivity|].
      cbn [forallb] in Hnan. apply andb_true_iff in Hnan.
      destruct Hnan as [Hv Hnan]. cbn [map existsb]. rewrite Hv.
      cbn [negb orb]. now apply IH. }
    now rewrite Eno.
  - intros mean0 std0. rewrite E.
    destruct (channel_ranges vals) as [r| |] eqn:Er; cbn [bind];
      try discriminate.
    cbv zeta. cbn [fst snd].
    destruct (if plot_QQ
              then draw vals m (map (fun s => fdiv s IQR_TO_STD) r) bins
              else Ok tt); cbn [bind]; try discriminate.
    intros [= <- <-]. split; [reflexivity|].
    rewrite length_map. now apply channel_ranges_length.
Qed.

Lemma compute_stats_robust_check_nan_witness :
  compute_stats (fun _ _ _ _ => Ok tt) [[4; -1; 6]; [-1; -1]]%Z
                true true 1 false 15 =
  Ok ([9; -2]%Z, [100; -1]%Z).
Proof.
  assert (Hm : nanmedian [[4; -1; 6]; [-1; -1]]%Z 1 = Ok [9; -2]%Z)
    by reflexivity.
  destruct (compute_stats_robust_check_nan
              (fun _ _ _ _ => Ok tt) [[4; -1; 6]; [-1; -1]]%Z false 15
              [9; -2]%Z Hm) as [E _].
  rewrite E. reflexivity.
Defined.

(** X13: with [robust] and [axis = 1], on values without any [nan] and
    without an empty channel, for which both medians are found, the
    deviations are the same with and without [check_nan], and so is an
    exception of a percentile. *)
Theorem compute_stats_check_nan_irrelevant
        {F : Type} `{Float F} `{NumpyFloat F} `{Statistics F}
        (draw : list (list F) -> list F -> list F -> Z -> result unit)
        (vals : list (list F)) (bins : Z) (m1 m2 : list F) :
  Forall (fun ch => ch <> []
                    /\ forallb (fun v => negb (isnan v)) ch = true) vals ->
  nanmedian vals 1 = Ok m1 ->
  median vals 1 = Ok m2 ->
  second (compute_stats draw vals true true 1 false bins) =
  second (compute_stats draw vals false true 1 false bins).
Proof.
  intros Hclean Hm1 Hm2.
  rewrite (compute_stats_nan_checked draw vals false bins m1 Hm1).
  rewrite (channel_ranges_clean vals Hclean).
  unfold compute_stats. cbn [Z.eqb Pos.eqb negb andb]. rewrite Hm2.
  cbn [bind]. unfold second.
  destruct (unchecked_ranges vals); reflexivity.
Qed.

Lemma compute_stats_check_nan_irrelevant_witness :
  second (compute_stats (fun _ _ _ _ => Ok tt) [[4; 1; 6]; [3; 2]]%Z
                        true true 1 false 15) =
  second (compute_stats (fun _ _ _ _ => Ok tt) [[4; 1; 6]; [3; 2]]%Z
                        false true 1 false 15).
Proof.
  assert (Hclean : Forall (fun ch : list Z =>
                             ch <> []
                             /\ forallb (fun v => negb (isnan v)) ch = true)
                          [[4; 1; 6]; [3; 2]]%Z).
  { repeat constructor; discriminate. }
  exact (compute_stats_check_nan_irrelevant
           (fun _ _ _ _ => Ok tt) [[4; 1; 6]; [3; 2]]%Z 15
           [11; 5]%Z [11; 5]%Z Hclean eq_refl eq_refl).
Defined.


(** ** More on the hyperparameter container *)

Lemma mask_select_none_fixed {A : Type} (l : list A) (n : nat) :
  length l = n -> mask_select l (map negb (repeat false n)) = l.
Proof.
  revert n. induction l as [|a l IH]; intros [|n] Hn; try discriminate;
    [reflexivity|].
  cbn [repeat map negb mask_select]. f_equal. apply IH. simpl in Hn. lia.
Qed.

Lemma length_repeat_Z {A : Type} (a : A) (n : Z) :
  (0 <= n)%Z -> Z.of_nat (length (repeat a (Z.to_nat n))) = n.
Proof. intros Hn. rewrite repeat_length. lia. Qed.

(** X14: [Kernel.__init__] returns exactly for the arguments it accepts:
    [num_params >= 0], [num_dim >= 1], no [fixed_params] without
    [initial_params], and every list that is given of length
    [num_params].  The kernel it returns has all its per-parameter
    attributes of length [num_params], holds the arguments that were
    given and the defaults for the others (parameters 1, nothing fixed,
    bounds [(0, double_max)], uniform priors on the bounds, all priors
    logarithmic), and with no [fixed_params] given all its parameters are
    free.  Otherwise it raises GPArgumentError when the two numbers are
    valid and [fixed_params] is given without [initial_params], and
    ValueError in every other case. *)
Theorem Kernel_init_outcome {F C : Type} `{Float F} `{KernelEnv F C}
        (d p : Z)
        (initial : option (list F))
        (fixed : option (list bool))
        (given_bounds : option (list (F * F)))
        (enforce : bool)
        (priors : option (list C))
        (logs : option (list bool))
        (pots : list C) :
  match Kernel_init d p initial fixed given_bounds enforce priors logs
                    pots with
  | Ok h =>
      accepted_arguments d p initial fixed given_bounds priors logs
      /\ sized h
      /\ h = (let bounds :=
                or_default given_bounds
                           (repeat (fzero, double_max) (Z.to_nat p)) in
              {| num_dim := d;
                 num_params := p;
                 enforce_bounds := enforce;
                 params := or_default initial (repeat fone (Z.to_nat p));
                 fixed_params :=
                   or_default fixed (repeat false (Z.to_nat p));
                 param_bounds := bounds;
                 hyperpriors :=
                   or_default priors (map UniformPrior bounds);
                 is_log := or_default logs (repeat true (Z.to_nat p));
                 potentials := pots |})
      /\ (fixed = None ->
          free_params h = params h
          /\ free_param_bounds h = param_bounds h)
  | Raise e =>
      ~ accepted_arguments d p initial fixed given_bounds priors logs
      /\ (e = GPArgumentError <->
          (0 <= p)%Z /\ (1 <= d)%Z /\ initial = None /\ fixed <> None)
      /\ (e = ValueError \/ e = GPArgumentError)
  | OutOfFuel => False
  end.
Proof.
  unfold Kernel_init, accepted_arguments, check_length, sized.
  destruct (Z.ltb_spec p 0) as [Hnp|Hnp].
  { split; [lia|]. split; [|now left]. split; [discriminate | lia]. }
  destruct (Z.ltb_spec d 1) as [Hnd|Hnd].
  { split; [lia|]. split; [|now left]. split; [discriminate | lia]. }
  destruct initial as [ip|], fixed as [fp|];
    cbn [bind given_length or_default];
    try (destruct (Z.eqb_spec (Z.of_nat (length ip)) p));
    try (destruct (Z.eqb_spec (Z.of_nat (length fp)) p));
    cbn [bind fst snd];
    try (split; [intuition (try lia; try discriminate)|];
         split; [|auto]; split; intuition (try discriminate; try congruence);
         fail);
    (destruct given_bounds as [pb|]; cbn [bind given_length or_default];
     try (destruct (Z.eqb_spec (Z.of_nat (length pb)) p));
     cbn [bind];
     try (split; [intuition (try lia; try discriminate)|];
          split; [|auto]; split; intuition (try discriminate; try congruence);
          fail));
    (destruct priors as [hp|]; cbn [bind given_length or_default];
     try (destruct (Z.eqb_spec (Z.of_nat (length hp)) p));
     cbn [bind];
     try (split; [intuition (try lia; try discriminate)|];
          split; [|auto]; split; intuition (try discriminate; try congruence);
          fail));
    (destruct logs as [il|]; cbn [bind given_length or_default];
     try (destruct (Z.eqb_spec (Z.of_nat (length il)) p));
     cbn [bind];
     try (split; [intuition (try lia; try discriminate)|];
          split; [|auto]; split; intuition (try discriminate; try congruence);
          fail));
    cbn [num_dim num_params params fixed_params param_bounds hyperpriors
         is_log];
    rewrite ?length_map, ?length_repeat_Z by assumption;
    (split; [intuition (try discriminate; try congruence)|]);
    (split; [intuition (try lia; try congruence)|]);
    (split; [reflexivity|]);
    intros Hfp; try discriminate Hfp;
    unfold free_params, free_param_bounds;
    cbn [params fixed_params param_bounds];
    split; apply mask_select_none_fixed;
    rewrite ?repeat_length; lia.
Qed.

(** *** Reading the free parameters and writing them back *)

Lemma scatter_mask_select {A : Type} (l : list A) :
  forall mask : list bool,
    length l = length mask -> scatter l mask (mask_select l mask) = l.
Proof.
  induction l as [|a l IH]; intros [|c mask] Hlen; try discriminate;
    [reflexivity|].
  injection Hlen as Hlen. destruct c; cbn [mask_select scatter];
    f_equal; now apply IH.
Qed.

Lemma firstn_length_app {A : Type} (a b : list A) :
  firstn (length a) (a ++ b) = a.
Proof.
  rewrite firstn_app, firstn_all, Nat.sub_diag, firstn_O. apply app_nil_r.
Qed.

Lemma skipn_length_app {A : Type} (a b : list A) :
  skipn (length a) (a ++ b) = b.
Proof.
  rewrite skipn_app, skipn_all, Nat.sub_diag, skipn_O. reflexivity.
Qed.

Section RoundTrip.
Context {F C : Type} `{Float F}.

Lemma free_params_concatenated (h h1 h2 : hyper F C) :
  params h = params h1 ++ params h2 ->
  fixed_params h = fixed_params h1 ++ fixed_params h2 ->
  length (params h1) = length (fixed_params h1) ->
  free_params h = free_params h1 ++ free_params h2.
Proof.
  intros Ep Ef Hl. unfold free_params. rewrite Ep, Ef, map_app.
  apply mask_select_app. now rewrite length_map.
Qed.

Lemma well_formed_lengths (k : kernel F C) :
  well_formed k ->
  length (params (attributes k)) = length (fixed_params (attributes k)).
Proof. intros Hw. now apply splittable_lengths, well_formed_splittable. Qed.

Lemma set_hyperparams_same (k : kernel F C) :
  well_formed k -> never_enforces k ->
  set_hyperparams k (free_params (attributes k)) = (k, None).
Proof.
  induction k as [h|h call|h m|h a|op h k1 IH1 k2 IH2]; intros Hw Hne;
    try (cbn [set_hyperparams attributes never_enforces] in *;
         rewrite (Kernel_set_hyperparams_ok h (free_params h) eq_refl);
         unfold written_params; rewrite Hne;
         unfold free_params; rewrite scatter_mask_select
           by (rewrite length_map; apply (well_formed_lengths _ Hw));
         now rewrite with_params_same).
  pose proof (well_formed_lengths _ Hw) as Hl.
  cbn [well_formed never_enforces attributes concatenation_invariant]
    in Hw, Hne, Hl.
  destruct Hw as (Hc & (Ip & Ifix & _) & W1 & W2). destruct Hne as [N1 N2].
  pose proof (well_formed_lengths _ W1) as Hl1.
  cbn [set_hyperparams attributes]. rewrite Nat.eqb_refl.
  rewrite (free_params_concatenated h _ _ Ip Ifix Hl1).
  rewrite <- (free_params_length (attributes k1)) by exact Hl1.
  rewrite firstn_length_app, skipn_length_app, (IH1 W1 N1), (IH2 W2 N2).
  rewrite <- (free_params_concatenated h _ _ Ip Ifix Hl1).
  unfold free_params. rewrite scatter_mask_select
    by (rewrite length_map; exact Hl).
  now rewrite with_params_same.
Qed.

End RoundTrip.

(** X15: for a kernel in which every combinator holds the concatenation
    of the attributes of its children and no kernel enforces its bounds,
    [set_hyperparams] with the free parameters the kernel reports
    raises nothing and leaves the kernel and all kernels below it as
    they are. *)
Theorem set_hyperparams_free_params_round_trip {F C : Type} `{Float F}
        (k : kernel F C) :
  well_formed k -> never_enforces k ->
  set_hyperparams k (free_params (attributes k)) = (k, None).
Proof. apply set_hyperparams_same. Qed.

Lemma set_hyperparams_free_params_round_trip_witness :
  set_hyperparams sum_of_two (free_params (attributes sum_of_two)) =
  (sum_of_two, None).
Proof.
  apply set_hyperparams_free_params_round_trip.
  - cbn. unfold consistent. cbn. tauto.
  - cbn. tauto.
Defined.


(** *** Kernels as objects in a store *)

Section KernelObjects.
Context {F C : Type} `{Float F}.

Lemma store_set_same (s : store F C) (id : nat) (h : hyper F C) :
  store_set s id h id = h.
Proof. unfold store_set. now rewrite Nat.eqb_refl. Qed.

Lemma store_set_other (s : store F C) (id j : nat) (h : hyper F C) :
  j <> id -> store_set s id h j = s j.
Proof.
  intros Hne. unfold store_set.
  destruct (Nat.eqb_spec j id); [contradiction | reflexivity].
Qed.






Lemma scatter_twice {A : Type} (l : list A) :
  forall (mask : list bool) (v1 v2 : list A),
    length v1 = count_true mask -> length v2 = count_true mask ->
    scatter (scatter l mask v1) mask v2 = scatter l mask v2.
Proof.
  induction l as [|x l IH]; intros [|b mask] v1 v2 H1 H2; try reflexivity.
  rewrite count_true_cons in H1, H2.
  destruct b; [destruct v1 as [|y1 v1]; [discriminate|];
               destruct v2 as [|y2 v2]; [discriminate|]|];
    cbn [scatter]; f_equal; apply IH; cbn [length] in *; lia.
Qed.

End KernelObjects.



(** X26: when both operands of a combinator are one object [a] that is
    no combinator and does not enforce its bounds, and the combinator
    holds the parameters and the mask of [a] twice, [set_hyperparams]
    with a vector [v1 ++ v2] of two halves, each with one value per free
    parameter of [a], raises nothing and leaves the combinator with the
    free parameters [v1 ++ v2] and the object [a] with [v2]: the second
    call on [a] overwrites what the first wrote.  The parameters of the
    combinator are those of its operands, one after the other, only when
    the two halves are equal. *)
Theorem set_hyperparams_shared_operand {F C : Type} `{Float F}
        (op : binary_op) (id a : nat) (s : store F C) (v1 v2 : list F) :
  id <> a ->
  enforce_bounds (s a) = false ->
  length (params (s a)) = length (fixed_params (s a)) ->
  params (s id) = params (s a) ++ params (s a) ->
  fixed_params (s id) = fixed_params (s a) ++ fixed_params (s a) ->
  length v1 = length (free_params (s a)) ->
  length v2 = length (free_params (s a)) ->
  let k := BinaryRef op id (LeafRef a) (LeafRef a) in
  let s' := fst (set_hyperparams_in k (v1 ++ v2) s) in
  snd (set_hyperparams_in k (v1 ++ v2) s) = None
  /\ free_params (s' id) = v1 ++ v2
  /\ free_params (s' a) = v2
  /\ (params (s' id) = params (s' a) ++ params (s' a) <-> v1 = v2).
Proof.
  intros Hid Hne Hl Hp Hf H1 H2 k s'.
  pose proof (free_params_length (s a) Hl) as Hfree.
  set (mask := map negb (fixed_params (s a))) in *.
  assert (Hlm : length (params (s a)) = length mask)
    by (unfold mask; now rewrite length_map).
  assert (Hc1 : length v1 = count_true mask) by lia.
  assert (Hc2 : length v2 = count_true mask) by lia.
  assert (Hfree_id : length (free_params (s id)) = length (v1 ++ v2)).
  { unfold free_params. rewrite Hp, Hf, map_app. fold mask.
    rewrite mask_select_app by exact Hlm.
    rewrite !length_app, !mask_select_length by exact Hlm. lia. }
  set (hid := with_params (s id)
                (scatter (params (s id)) (map negb (fixed_params (s id)))
                         (v1 ++ v2))).
  set (ha1 := with_params (s a) (scatter (params (s a)) mask v1)).
  set (ha2 := with_params (s a) (scatter (params (s a)) mask v2)).
  assert (E : set_hyperparams_in k (v1 ++ v2) s =
              (store_set (store_set (store_set s id hid) a ha1) a ha2, None)).
  { unfold k. cbn [set_hyperparams_in ref_id].
    rewrite <- Hfree_id, Nat.eqb_refl. fold hid.
    rewrite (store_set_other s id a hid) by congruence. fold mask.
    rewrite <- Hc1, firstn_length_app, skipn_length_app.
    unfold Kernel_set_hyperparams at 1.
    rewrite H1, Nat.eqb_refl, Hne. fold mask. fold ha1.
    unfold Kernel_set_hyperparams. rewrite store_set_same.
    assert (Ef : free_params ha1 = v1).
    { unfold free_params, ha1. cbn [params fixed_params with_params].
      fold mask. now apply mask_select_scatter. }
    rewrite Ef, H2, <- H1, Nat.eqb_refl.
    unfold ha1. cbn [params fixed_params with_params enforce_bounds].
    rewrite Hne. fold mask. rewrite scatter_twice by assumption.
    reflexivity. }
  subst s'. rewrite E. cbn [fst snd].
  rewrite store_set_same.
  rewrite !(store_set_other _ a id) by exact Hid.
  rewrite store_set_same.
  unfold free_params, hid, ha2. cbn [params fixed_params with_params].
  rewrite Hp, Hf, map_app. fold mask.
  rewrite scatter_app by exact Hlm.
  rewrite <- Hc1, firstn_length_app, skipn_length_app.
  split; [reflexivity|]. split.
  { rewrite mask_select_app by (rewrite scatter_length; exact Hlm).
    now rewrite !mask_select_scatter by assumption. }
  split.
  { now apply mask_select_scatter. }
  split.
  - intros E'. apply app_inv_tail in E'.
    rewrite <- (mask_select_scatter (params (s a)) mask v1 Hlm Hc1).
    rewrite E'. now apply mask_select_scatter.
  - now intros ->.
Qed.

Lemma set_hyperparams_shared_operand_witness :
  let s : store Z unit := fun id =>
    match id with
    | 0 => attributes sum_of_two
    | _ => attributes (one_parameter_kernel false)
    end in
  let k := BinaryRef Sum 0 (LeafRef 1) (LeafRef 1) in
  let s' := fst (set_hyperparams_in k [2; 3]%Z s) in
  params (s' 0) = [2; 3]%Z /\ params (s' 1) = [3]%Z
  /\ free_params (s' 0) = [2; 3]%Z /\ free_params (s' 1) = [3]%Z.
Proof.
  intros s k s'.
  assert (Hid : 0 <> 1) by discriminate.
  destruct (set_hyperparams_shared_operand Sum 0 1 s [2]%Z [3]%Z Hid
              eq_refl eq_refl eq_refl eq_refl eq_refl eq_refl)
    as (_ & Hfree & Hfree_a & _).
  split; [reflexivity|]. split; [reflexivity|].
  split; [exact Hfree | exact Hfree_a].
Defined.

(** *** The operators on kernels *)

Lemma BinaryKernel_init_sized {F C : Type} `{Float F} `{KernelEnv F C}
      (op : binary_op) (k1 k2 : kernel F C) :
  sized (attributes k1) -> sized (attributes k2) ->
  num_dim (attributes k1) = num_dim (attributes k2) ->
  BinaryKernel_init op k1 k2 =
  Ok (BinaryKernel op
        {| num_dim := num_dim (attributes k1);
           num_params := num_params (attributes k1)
                         + num_params (attributes k2);
           enforce_bounds := false;
           params := params (attributes k1) ++ params (attributes k2);
           fixed_params := fixed_params (attributes k1)
                           ++ fixed_params (attributes k2);
           param_bounds := param_bounds (attributes k1)
                           ++ param_bounds (attributes k2);
           hyperpriors := hyperpriors (attributes k1)
                          ++ hyperpriors (attributes k2);
           is_log := is_log (attributes k1) ++ is_log (attributes k2);
           potentials := [] |}
        k1 k2).
Proof.
  intros (S1 & S2 & S3 & S4 & S5 & S6 & S7) (T1 & T2 & T3 & T4 & T5 & T6 & T7)
         Hdim.
  unfold BinaryKernel_init. rewrite Hdim, Z.eqb_refl. cbn [negb].
  unfold Kernel_init, check_length.
  rewrite !length_app, !Nat2Z.inj_add, S3, S4, S5, S6, S7, T3, T4, T5, T6, T7.
  rewrite Z.eqb_refl.
  destruct (Z.ltb_spec (num_params (attributes k1)
                        + num_params (attributes k2)) 0); [lia|].
  destruct (Z.ltb_spec (num_dim (attributes k2)) 1); [lia|].
  reflexivity.
Qed.

(** X17: for two kernels whose attributes agree with their parameter
    counts, [k1 + k2] and [k1 * k2] return a combinator when the two have
    the same number of dimensions, and raise a ValueError when they have
    not.  The combinator has the parameters, the mask of fixed
    parameters, the bounds, the priors and the log flags of [k1] followed
    by those of [k2], as many parameters as both together, and hence the
    free parameters and the free bounds of [k1] followed by those of
    [k2]; it does not enforce bounds and it has no potentials, whatever
    the two kernels do and have. *)
Theorem Kernel_add_mul_outcome {F C : Type} `{Float F} `{KernelEnv F C}
        (k1 k2 : kernel F C) :
  sized (attributes k1) -> sized (attributes k2) ->
  let h1 := attributes k1 in
  let h2 := attributes k2 in
  (num_dim h1 = num_dim h2 ->
   exists h,
     Kernel_add k1 k2 = Ok (BinaryKernel Sum h k1 k2)
     /\ Kernel_mul k1 k2 = Ok (BinaryKernel Product h k1 k2)
     /\ sized h
     /\ concatenation_invariant (BinaryKernel Sum h k1 k2)
     /\ num_params h = (num_params h1 + num_params h2)%Z
     /\ num_dim h = num_dim h1
     /\ enforce_bounds h = false
     /\ potentials h = []
     /\ free_params h = free_params h1 ++ free_params h2
     /\ free_param_bounds h = free_param_bounds h1 ++ free_param_bounds h2)
  /\ (num_dim h1 <> num_dim h2 ->
      Kernel_add k1 k2 = Raise ValueError
      /\ Kernel_mul k1 k2 = Raise ValueError).
Proof.
  intros Hs1 Hs2 h1 h2. subst h1 h2. split.
  - intros Hdim. eexists.
    split; [apply (BinaryKernel_init_sized Sum k1 k2 Hs1 Hs2 Hdim)|].
    split; [apply (BinaryKernel_init_sized Product k1 k2 Hs1 Hs2 Hdim)|].
    destruct Hs1 as (S1 & S2 & S3 & S4 & S5 & S6 & S7).
    destruct Hs2 as (T1 & T2 & T3 & T4 & T5 & T6 & T7).
    split.
    { unfold sized.
      cbn [num_params num_dim params fixed_params param_bounds hyperpriors
           is_log].
      rewrite !length_app, !Nat2Z.inj_add. lia. }
    split; [cbn; tauto|].
    split; [reflexivity|]. split; [reflexivity|]. split; [reflexivity|].
    split; [reflexivity|].
    unfold free_params, free_param_bounds. cbn. rewrite map_app. split.
    + apply mask_select_app. rewrite length_map. lia.
    + apply mask_select_app. rewrite length_map. lia.
  - intros Hdim. unfold Kernel_add, Kernel_mul, BinaryKernel_init.
    destruct (Z.eqb_spec (num_dim (attributes k1)) (num_dim (attributes k2)));
      [contradiction|]. split; reflexivity.
Qed.

Lemma Kernel_add_mul_outcome_witness :
  exists h,
    Kernel_add (one_parameter_kernel true) (one_parameter_kernel false) =
    Ok (BinaryKernel Sum h (one_parameter_kernel true)
                     (one_parameter_kernel false))
    /\ enforce_bounds h = false
    /\ free_params h = [1; 1]%Z.
Proof.
  assert (S1 : sized (attributes (one_parameter_kernel true)))
    by (unfold sized; cbn; lia).
  assert (S2 : sized (attributes (one_parameter_kernel false)))
    by (unfold sized; cbn; lia).
  destruct (Kernel_add_mul_outcome (one_parameter_kernel true)
                                   (one_parameter_kernel false) S1 S2)
    as [Hsame _].
  destruct (Hsame eq_refl) as (h & Hadd & _ & _ & _ & _ & _ & He & _ & Hf & _).
  exists h. split; [exact Hadd|]. split; [exact He | exact Hf].
Defined.


(** ** More on the chain-rule kernel *)

Lemma same_shape_nth {A B : Type} (a : list (list A)) (b : list (list B))
      (i : nat) :
  same_shape a b = true -> i < length a ->
  same_shape [nth i a []] [nth i b []] = true.
Proof.
  intros Hs Hi. pose proof (same_shape_length _ _ Hs) as Hl.
  unfold same_shape in *. apply andb_true_iff in Hs. destruct Hs as [_ Hs].
  rewrite forallb_forall in Hs. cbn [length combine forallb fst snd].
  rewrite Nat.eqb_refl, andb_true_r. cbn [andb].
  apply (Hs (nth i a [], nth i b [])).
  rewrite <- combine_nth by exact Hl. apply nth_In.
  rewrite length_combine. lia.
Qed.

(** With a budget that covers the partitions of every pair, the
    covariance of a pair in a batch is the covariance of the pair
    alone. *)
Lemma ChainRuleKernel_evaluate_entries
      {F C : Type} `{Float F} {N : nat} {O : RowOrder N}
      (self : hyper F C) (m : chain_rule_methods F C)
      (pm : point_methods F) (p0 : F) (fuel : nat)
      (Xi Xj : list (list F)) (ni nj : list (list Z)) :
  pointwise self m pm ->
  nth_error (params self) 0 = Some p0 ->
  same_shape Xi Xj = true ->
  length ni = length Xi ->
  same_shape ni nj = true ->
  Forall (fun r => length r = N) ni ->
  list_max (map (fun r : list Z * list Z =>
                   bell (length (deriv_pattern (row_add (fst r) (snd r)))))
                (combine ni nj)) <= fuel ->
  exists K,
    ChainRuleKernel_evaluate cmp fuel self m Xi Xj ni nj = Ok K
    /\ length K = length Xi
    /\ forall i, i < length Xi ->
         ChainRuleKernel_evaluate cmp fuel self m
           [nth i Xi []] [nth i Xj []] [nth i ni []] [nth i nj []] =
         Ok [nth i K fzero].
Proof.
  intros Hpm Hp0 HX Hlen Hn Hwidth Hfuel.
  assert (Hrows : forall r : list Z * list Z,
             In r (combine ni nj) ->
             length (deriv_pattern (row_add (fst r) (snd r))) <> 0 ->
             bell (length (deriv_pattern (row_add (fst r) (snd r)))) <= fuel).
  { intros r Hr _.
    pose proof (list_max_bound
                  (fun r : list Z * list Z =>
                     bell (length (deriv_pattern (row_add (fst r) (snd r)))))
                  _ r Hr) as Hb. cbn beta in Hb. lia. }
  pose proof (same_shape_length _ _ HX) as HlX.
  pose proof (same_shape_length _ _ Hn) as Hln.
  assert (Hwi : forall i, i < length Xi ->
                          Forall (fun r => length r = N) [nth i ni []]).
  { intros i Hi. constructor; [|constructor].
    rewrite Forall_forall in Hwidth. apply Hwidth, nth_In. lia. }
  destruct (Nat.eq_dec N 0) as [HN|HN].
  { rewrite (ChainRuleKernel_evaluate_no_columns
               self m pm Hpm fuel p0 Xi Xj ni nj HN Hp0 HX Hlen Hn Hwidth).
    eexists. split; [reflexivity|]. split.
    { rewrite length_map, !length_combine. lia. }
    intros i Hi.
    rewrite (ChainRuleKernel_evaluate_no_columns self m pm Hpm fuel p0
               [nth i Xi []] [nth i Xj []] [nth i ni []] [nth i nj []]
               HN Hp0 (same_shape_nth Xi Xj i HX Hi) eq_refl
               (same_shape_nth ni nj i Hn ltac:(lia)) (Hwi i Hi)).
    cbn [combine map]. f_equal. f_equal.
    match goal with
    | |- _ = nth i (map ?f ?l) _ =>
        rewrite (nth_map_in_range f l fzero (([], []), ([], [])) i)
          by (rewrite !length_combine; lia)
    end.
    rewrite !combine_nth by (rewrite ?length_combine; lia).
    reflexivity. }
  assert (HN1 : 1 <= N) by lia.
  rewrite (ChainRuleKernel_evaluate_pointwise
             self m pm Hpm fuel p0 Xi Xj ni nj HN1 Hp0 HX Hlen Hn Hwidth
             Hrows).
  eexists. split; [reflexivity|]. split.
  { rewrite length_map, !length_combine. lia. }
  intros i Hi.
  rewrite (ChainRuleKernel_evaluate_pointwise self m pm Hpm fuel p0).
  - cbn [combine map]. f_equal. f_equal.
    match goal with
    | |- _ = nth i (map ?f ?l) _ =>
        rewrite (nth_map_in_range f l fzero (([], []), ([], [])) i)
          by (rewrite !length_combine; lia)
    end.
    rewrite !combine_nth by (rewrite ?length_combine; lia).
    reflexivity.
  - exact HN1.
  - exact Hp0.
  - now apply same_shape_nth.
  - reflexivity.
  - apply same_shape_nth; [exact Hn | lia].
  - now apply Hwi.
  - intros r Hr. cbn [combine In] in Hr. destruct Hr as [<-|[]].
    apply Hrows. rewrite <- combine_nth by exact Hln. apply nth_In.
    rewrite length_combine. lia.
Qed.

(** *** The derivative pattern *)

Lemma count_occ_repeat_same (d k : nat) :
  count_occ Nat.eq_dec (repeat d k) d = k.
Proof.
  induction k as [|k IH]; [reflexivity|].
  cbn [repeat]. rewrite count_occ_cons_eq by reflexivity. now rewrite IH.
Qed.

Lemma count_occ_repeat_other (c d k : nat) :
  c <> d -> count_occ Nat.eq_dec (repeat c k) d = 0.
Proof.
  intros Hne. induction k as [|k IH]; [reflexivity|].
  cbn [repeat]. now rewrite count_occ_cons_neq.
Qed.

Lemma deriv_pattern_from_below (n : list Z) :
  forall idx d, d < idx ->
    count_occ Nat.eq_dec (deriv_pattern_from idx n) d = 0.
Proof.
  induction n as [|z n IH]; intros idx d Hd; [reflexivity|].
  cbn [deriv_pattern_from]. rewrite count_occ_app, IH by lia.
  rewrite count_occ_repeat_other by lia. reflexivity.
Qed.

Lemma deriv_pattern_from_count (n : list Z) :
  forall idx d,
    count_occ Nat.eq_dec (deriv_pattern_from idx n) (idx + d) =
    Z.to_nat (nth d n 0%Z).
Proof.
  induction n as [|z n IH]; intros idx d.
  - destruct d; reflexivity.
  - cbn [deriv_pattern_from]. rewrite count_occ_app. destruct d as [|d].
    + rewrite Nat.add_0_r, count_occ_repeat_same.
      rewrite deriv_pattern_from_below by lia. cbn [nth]. lia.
    + rewrite count_occ_repeat_other by lia.
      replace (idx + S d) with (S idx + d) by lia. now rewrite IH.
Qed.

Lemma deriv_pattern_from_ge (n : list Z) :
  forall idx, Forall (fun d => idx <= d) (deriv_pattern_from idx n).
Proof.
  induction n as [|z n IH]; intros idx; [constructor|].
  cbn [deriv_pattern_from]. apply Forall_app. split.
  - apply Forall_forall. intros d Hd. apply repeat_spec in Hd. lia.
  - eapply Forall_impl; [|apply (IH (S idx))]. cbn beta. intros d Hd. lia.
Qed.

Lemma deriv_pattern_from_sorted (n : list Z) :
  forall idx, StronglySorted le (deriv_pattern_from idx n).
Proof.
  induction n as [|z n IH]; intros idx; [constructor|].
  cbn [deriv_pattern_from].
  induction (Z.to_nat z) as [|k IHk]; [apply IH|].
  cbn [repeat app]. constructor; [exact IHk|].
  apply Forall_app. split.
  - apply Forall_forall. intros d Hd. apply repeat_spec in Hd. lia.
  - eapply Forall_impl; [|apply (deriv_pattern_from_ge n (S idx))].
    cbn beta. intros d Hd. lia.
Qed.

Lemma deriv_pattern_from_clip (n : list Z) :
  forall idx,
    deriv_pattern_from idx (clip_orders n) = deriv_pattern_from idx n.
Proof.
  unfold clip_orders.
  induction n as [|z n IH]; intros idx; [reflexivity|].
  cbn [map deriv_pattern_from]. rewrite IH. f_equal. f_equal. lia.
Qed.

Lemma zsum_cons (z : Z) (l : list Z) : zsum (z :: l) = (z + zsum l)%Z.
Proof.
  unfold zsum. cbn [fold_left].
  assert (E : forall (l : list Z) (a b : Z),
             fold_left Z.add l (a + b)%Z = (a + fold_left Z.add l b)%Z).
  { clear. induction l as [|x l IH]; intros a b; [reflexivity|].
    cbn [fold_left]. rewrite <- Z.add_assoc. apply IH. }
  replace (0 + z)%Z with (z + 0)%Z by lia. apply E.
Qed.

Lemma deriv_pattern_from_length (n : list Z) :
  forall idx,
    Z.of_nat (length (deriv_pattern_from idx n)) = zsum (clip_orders n).
Proof.
  induction n as [|z n IH]; intros idx; [reflexivity|].
  cbn [deriv_pattern_from]. unfold clip_orders in *. cbn [map].
  rewrite zsum_cons, length_app, repeat_length, Nat2Z.inj_add, IH. lia.
Qed.

(** X18: the derivative pattern that [_compute_dk_dtau] builds from the
    orders [n] holds the index of every dimension as often as the order
    of that dimension says, and not at all for a negative order; it is
    ascending and as long as the sum of the orders that are positive.
    [_compute_dk_dtau] hence returns for orders with negative entries
    what it returns with these entries set to 0; when no entry is
    positive this is [_compute_k(tau)], whatever the iteration budget. *)
Theorem _compute_dk_dtau_pattern {F C : Type} `{Float F}
        (fuel : nat) (self : hyper F C) (m : chain_rule_methods F C)
        (tau : list (list F)) (n : list Z) :
  (forall d, count_occ Nat.eq_dec (deriv_pattern n) d =
             Z.to_nat (nth d n 0%Z))
  /\ StronglySorted le (deriv_pattern n)
  /\ Z.of_nat (length (deriv_pattern n)) = zsum (clip_orders n)
  /\ _compute_dk_dtau fuel self m tau n =
     _compute_dk_dtau fuel self m tau (clip_orders n)
  /\ (zsum (clip_orders n) = 0%Z ->
      _compute_dk_dtau fuel self m tau n = Ok (_compute_k m self tau)).
Proof.
  split; [intros d; apply (deriv_pattern_from_count n 0 d)|].
  split; [apply deriv_pattern_from_sorted|].
  split; [apply deriv_pattern_from_length|].
  split.
  - unfold _compute_dk_dtau, deriv_pattern.
    now rewrite deriv_pattern_from_clip.
  - intros Hz. unfold _compute_dk_dtau.
    pose proof (deriv_pattern_from_length n 0) as Hl. fold (deriv_pattern n) in Hl.
    destruct (Nat.eqb_spec (length (deriv_pattern n)) 0); [reflexivity | lia].
Qed.

Lemma _compute_dk_dtau_pattern_witness :
  deriv_pattern [2; -1; 1]%Z = [0; 0; 2]
  /\ _compute_dk_dtau 0 cubic_attributes (methods_of_points cubic_points)
                      [[1; 2]]%Z [-2; 0]%Z = Ok [125%Z].
Proof.
  split; [reflexivity|].
  destruct (_compute_dk_dtau_pattern
              0 cubic_attributes (methods_of_points cubic_points)
              [[1; 2]]%Z [-2; 0]%Z) as (_ & _ & _ & _ & Hzero).
  exact (Hzero eq_refl).
Defined.

(** ** More on the numerically differentiated kernel *)

Lemma put_each_nonzero {A : Type} (l : list A) :
  forall (mask : list bool) (pre v : list A),
    length mask = length l -> length v = count_true mask ->
    put_each (pre ++ l) (nonzero_from (length pre) mask) v =
    pre ++ scatter l mask v.
Proof.
  unfold count_true.
  induction l as [|x l IH]; intros [|c mask] pre v Hm Hv; try discriminate.
  - reflexivity.
  - injection Hm as Hm. destruct c; cbn [nonzero_from scatter filter] in *.
    + destruct v as [|y v]; [discriminate|]. injection Hv as Hv.
      cbn [put_each]. rewrite set_item_app.
      replace (pre ++ y :: l) with ((pre ++ [y]) ++ l)
        by now rewrite <- app_assoc.
      replace (S (length pre)) with (length (pre ++ [y]))
        by (rewrite length_app; simpl; lia).
      rewrite IH by assumption. now rewrite <- app_assoc.
    + replace (pre ++ x :: l) with ((pre ++ [x]) ++ l)
        by now rewrite <- app_assoc.
      replace (S (length pre)) with (length (pre ++ [x]))
        by (rewrite length_app; simpl; lia).
      rewrite IH by assumption. now rewrite <- app_assoc.
Qed.

Lemma nonzero_from_length (mask : list bool) :
  forall i, length (nonzero_from i mask) = count_true mask.
Proof.
  unfold count_true.
  induction mask as [|c mask IH]; intros i; [reflexivity|].
  destruct c; cbn [nonzero_from filter length]; now rewrite IH.
Qed.

Lemma nonzero_from_in_range (mask : list bool) :
  forall i n, i + length mask <= n ->
    forallb (fun j => j <? n) (nonzero_from i mask) = true.
Proof.
  induction mask as [|c mask IH]; intros i n Hn; [reflexivity|].
  cbn [length] in Hn. destruct c; cbn [nonzero_from forallb].
  - rewrite IH by lia. destruct (Nat.ltb_spec i n); [reflexivity | lia].
  - apply IH. lia.
Qed.

Lemma put_items_nonzero {A : Type} (k : list A) (mask : list bool)
      (v : list A) :
  length mask = length k -> length v = count_true mask ->
  put_items k (nonzero mask) v = Ok (scatter k mask v).
Proof.
  intros Hm Hv. unfold put_items, nonzero.
  rewrite nonzero_from_in_range by lia. cbn [negb].
  rewrite nonzero_from_length, Hv, Nat.eqb_refl.
  f_equal. exact (put_each_nonzero k mask [] v Hm Hv).
Qed.

Lemma put_items_nonzero_map {A B : Type} (f g : A -> B) (P : A -> bool)
      (l : list A) :
  put_items (map f l) (nonzero (map P l)) (map g (filter P l)) =
  Ok (map (fun x => if P x then g x else f x) l).
Proof.
  rewrite put_items_nonzero.
  - now rewrite scatter_map.
  - now rewrite !length_map.
  - now rewrite length_map, count_true_map.
Qed.

Lemma take_items_nonzero_map {A B : Type} (f : A -> B) (P : A -> bool)
      (l : list A) :
  take_items (map f l) (nonzero (map P l)) = Ok (map f (filter P l)).
Proof.
  unfold nonzero. rewrite <- mask_select_map.
  apply (take_items_nonzero (map f l) (map P l) []).
  now rewrite !length_map.
Qed.

Section ArbitraryLoop.
Context {F C : Type} `{Float F} `{Mpmath F}.
Variable pool_map : (list F -> F) -> list (list F) -> list F.
Variable self : hyper F C.
Variable a : arbitrary_methods F.
Hypothesis pool_map_in_order : forall f l, pool_map f l = map f l.
Hypothesis cov_func_pairwise :
  forall X Y : list (list F),
    length X = length Y ->
    cov_func a X Y (params self) =
    map (fun xy => cov_func_at a (fst xy) (snd xy) (params self))
        (combine X Y).

(** The loop over the distinct derivative orders, on items that hold
    the two points and the orders of a pair. *)
Lemma arbitrary_loop_pairwise {A : Type} (items : list A)
      (xi_of xj_of : A -> list F) (n_of : A -> row) (states : list row)
      (g : A -> F) :
  fold_left
    (fun acc n_cat_state =>
       k <- acc ;;
       let idxs := nonzero (map (fun r => row_eqb r n_cat_state)
                                (map n_of items)) in
       if forallb (fun z => (z =? 0)%Z) n_cat_state then
         Xi_sel <- take_items (map xi_of items) idxs ;;
         Xj_sel <- take_items (map xj_of items) idxs ;;
         put_items k idxs (cov_func a Xi_sel Xj_sel (params self))
       else if (0 <? num_proc a)%Z && (1 <? length idxs) then
         X_sel <- take_items (map (fun it => xi_of it ++ xj_of it) items)
                             idxs ;;
         put_items k idxs
                   (pool_map (_ArbitraryKernelEval self a n_cat_state) X_sel)
       else
         serial_loop (map (fun it => xi_of it ++ xj_of it) items)
                     (fun X_cat_row =>
                        mp_chop (mp_diff (_mask_cov_func self a) X_cat_row
                                         n_cat_state))
                     idxs (Ok k))
    states (Ok (map g items)) =
  Ok (map (fun it =>
             fold_left
               (fun v s =>
                  if row_eqb (n_of it) s then
                    if forallb (fun z => (z =? 0)%Z) s
                    then cov_func_at a (xi_of it) (xj_of it) (params self)
                    else mp_chop (mp_diff (_mask_cov_func self a)
                                          (xi_of it ++ xj_of it) s)
                  else v)
               states (g it))
          items).
Proof.
  revert g. induction states as [|s states IH]; intros g; [reflexivity|].
  cbn [fold_left bind]. rewrite map_map.
  set (P := fun it : A => row_eqb (n_of it) s).
  assert (Estep :
    (if forallb (fun z => (z =? 0)%Z) s then
       Xi_sel <- take_items (map xi_of items) (nonzero (map P items)) ;;
       Xj_sel <- take_items (map xj_of items) (nonzero (map P items)) ;;
       put_items (map g items) (nonzero (map P items))
                 (cov_func a Xi_sel Xj_sel (params self))
     else if (0 <? num_proc a)%Z && (1 <? length (nonzero (map P items))) then
       X_sel <- take_items (map (fun it => xi_of it ++ xj_of it) items)
                           (nonzero (map P items)) ;;
       put_items (map g items) (nonzero (map P items))
                 (pool_map (_ArbitraryKernelEval self a s) X_sel)
     else
       serial_loop (map (fun it => xi_of it ++ xj_of it) items)
                   (fun X_cat_row =>
                      mp_chop (mp_diff (_mask_cov_func self a) X_cat_row s))
                   (nonzero (map P items)) (Ok (map g items))) =
    Ok (map (fun it =>
               if P it then
                 if forallb (fun z => (z =? 0)%Z) s
                 then cov_func_at a (xi_of it) (xj_of it) (params self)
                 else mp_chop (mp_diff (_mask_cov_func self a)
                                       (xi_of it ++ xj_of it) s)
               else g it) items)).
  { destruct (forallb (fun z => (z =? 0)%Z) s).
    - rewrite !take_items_nonzero_map. cbn [bind].
      rewrite cov_func_pairwise by now rewrite !length_map.
      rewrite (map_fst_combine xi_of (filter P items)
                               (map xj_of (filter P items)))
        by now rewrite length_map.
      assert (Ec : forall l : list A,
                 combine (map xi_of l) (map xj_of l) =
                 map (fun it => (xi_of it, xj_of it)) l).
      { induction l as [|x l IHl]; [reflexivity|]. cbn [map combine].
        now rewrite IHl. }
      rewrite <- (map_fst_combine xi_of (filter P items)
                                  (map xj_of (filter P items)))
        by now rewrite length_map.
      rewrite Ec, map_map. cbn [fst snd].
      apply (put_items_nonzero_map g).
    - assert (Eboth :
        (X_sel <- take_items (map (fun it => xi_of it ++ xj_of it) items)
                             (nonzero (map P items)) ;;
         put_items (map g items) (nonzero (map P items))
                   (map (fun X_cat_row =>
                           mp_chop (mp_diff (_mask_cov_func self a)
                                            X_cat_row s)) X_sel)) =
        Ok (map (fun it =>
                   if P it
                   then mp_chop (mp_diff (_mask_cov_func self a)
                                         (xi_of it ++ xj_of it) s)
                   else g it) items)).
      { rewrite take_items_nonzero_map. cbn [bind]. rewrite map_map.
        apply (put_items_nonzero_map g). }
      destruct ((0 <? num_proc a)%Z && (1 <? length (nonzero (map P items)))).
      + rewrite <- Eboth.
        destruct (take_items _ _); try reflexivity. cbn [bind].
        now rewrite pool_map_in_order.
      + rewrite serial_loop_put_items by now rewrite !length_map.
        exact Eboth. }
  rewrite Estep. rewrite IH. reflexivity.
Qed.

End ArbitraryLoop.

(** The covariances of all pairs of points with at least one
    coordinate, one by one. *)
Lemma ArbitraryKernel_evaluate_pairwise
        {F C : Type} `{Float F} `{Mpmath F} {N : nat} {O : RowOrder (N + N)}
        (pool_map : (list F -> F) -> list (list F) -> list F)
        (self : hyper F C) (a : arbitrary_methods F)
        (Xi Xj : list (list F)) (ni nj : list (list Z)) :
  1 <= N ->
  (forall f l, pool_map f l = map f l) ->
  (forall X Y : list (list F),
      length X = length Y ->
      cov_func a X Y (params self) =
      map (fun xy => cov_func_at a (fst xy) (snd xy) (params self))
          (combine X Y)) ->
  length Xj = length Xi -> length ni = length Xi -> length nj = length Xi ->
  Forall (fun r => length r = N) ni ->
  Forall (fun r => length r = N) nj ->
  ArbitraryKernel_evaluate cmp pool_map self a Xi Xj ni nj =
  Ok (map (fun it =>
             let xi := fst (fst it) in
             let xj := snd (fst it) in
             let n := fst (snd it) ++ snd (snd it) in
             if forallb (fun z => (z =? 0)%Z) n
             then cov_func_at a xi xj (params self)
             else mp_chop (mp_diff (_mask_cov_func self a) (xi ++ xj) n))
          (combine (combine Xi Xj) (combine ni nj))).
Proof.
  intros HN Hpool Hcov HlX Hlni Hlnj Hwi Hwj.
  unfold ArbitraryKernel_evaluate, concatenate_columns.
  replace (length ni =? length nj) with true
    by (symmetry; apply Nat.eqb_eq; lia).
  replace (length Xi =? length Xj) with true
    by (symmetry; apply Nat.eqb_eq; lia).
  cbn [bind].
  set (items := combine (combine Xi Xj) (combine ni nj)).
  set (xi_of := fun it : (list F * list F) * (list Z * list Z) => fst (fst it)).
  set (xj_of := fun it : (list F * list F) * (list Z * list Z) => snd (fst it)).
  set (n_of := fun it : (list F * list F) * (list Z * list Z) =>
                 fst (snd it) ++ snd (snd it)).
  assert (Hl2 : length (combine Xi Xj) = length (combine ni nj))
    by (rewrite !length_combine; lia).
  assert (Hn : map (fun rs : list Z * list Z => fst rs ++ snd rs)
                   (combine ni nj) = map n_of items)
    by (apply (map_snd_combine (fun rs : list Z * list Z => fst rs ++ snd rs)), Hl2).
  assert (HX : map (fun rs : list F * list F => fst rs ++ snd rs)
                   (combine Xi Xj) =
               map (fun it => xi_of it ++ xj_of it) items)
    by (apply (map_fst_combine
                 (fun rs : list F * list F => fst rs ++ snd rs)), Hl2).
  assert (HXi : Xi = map xi_of items).
  { rewrite <- (map_id Xi) at 1.
    rewrite (map_fst_combine (fun x => x) Xi Xj) by lia.
    apply (map_fst_combine (fun rs : list F * list F => fst rs)), Hl2. }
  assert (HXj : Xj = map xj_of items).
  { rewrite <- (map_id Xj) at 1.
    rewrite (map_snd_combine (fun x => x) Xi Xj) by lia.
    apply (map_fst_combine (fun rs : list F * list F => snd rs)), Hl2. }
  assert (Hzero : repeat fzero (length Xi) = map (fun _ => fzero) items).
  { rewrite <- repeat_map_const. f_equal. unfold items.
    rewrite !length_combine. lia. }
  assert (Hw : Forall (fun r => length r = N + N) (map n_of items)).
  { rewrite <- Hn. apply Forall_forall. intros r Hr.
    apply in_map_iff in Hr. destruct Hr as ([u v] & <- & Huv).
    rewrite length_app. cbn [fst snd].
    rewrite Forall_forall in Hwi, Hwj.
    rewrite (Hwi u (in_combine_l _ _ _ _ Huv)).
    now rewrite (Hwj v (in_combine_r _ _ _ _ Huv)). }
  rewrite Hn, HX, Hzero.
  generalize (unique_rows cmp (map n_of items))
             (fun r => unique_rows_complete (map n_of items) Hw r
                         ltac:(lia)).
  intros states Hstates.
  pose proof (arbitrary_loop_pairwise pool_map self a Hpool Hcov items
                                      xi_of xj_of n_of states
                                      (fun _ => fzero)) as E.
  rewrite <- HXi, <- HXj in E. refine (eq_trans E _).
  f_equal. apply map_ext_in. intros it Hit.
  apply (fold_assign_covered
           (fun s => if forallb (fun z => (z =? 0)%Z) s
                     then cov_func_at a (xi_of it) (xj_of it) (params self)
                     else mp_chop (mp_diff (_mask_cov_func self a)
                                           (xi_of it ++ xj_of it) s))).
  apply Hstates. exact (in_map n_of items it Hit).
Qed.

(** Without coordinates there is no row of derivative orders to loop
    over, and the covariances are the zeros the loop starts from. *)
Lemma ArbitraryKernel_evaluate_no_columns
        {F C : Type} `{Float F} `{Mpmath F}
        (cmp : row -> row -> Z)
        (pool_map : (list F -> F) -> list (list F) -> list F)
        (self : hyper F C) (a : arbitrary_methods F)
        (Xi Xj : list (list F)) (ni nj : list (list Z)) :
  length Xj = length Xi -> length ni = length Xi -> length nj = length Xi ->
  Forall (fun r => length r = 0) ni ->
  Forall (fun r => length r = 0) nj ->
  ArbitraryKernel_evaluate cmp pool_map self a Xi Xj ni nj =
  Ok (repeat fzero (length Xi)).
Proof.
  intros HlX Hlni Hlnj Hwi Hwj.
  unfold ArbitraryKernel_evaluate, concatenate_columns.
  replace (length ni =? length nj) with true
    by (symmetry; apply Nat.eqb_eq; lia).
  replace (length Xi =? length Xj) with true
    by (symmetry; apply Nat.eqb_eq; lia).
  cbn [bind]. rewrite unique_rows_no_columns; [reflexivity|].
  apply Forall_forall. intros r Hr.
  apply in_map_iff in Hr. destruct Hr as ([u v] & <- & Huv).
  rewrite length_app. cbn [fst snd].
  rewrite Forall_forall in Hwi, Hwj.
  rewrite (Hwi u (in_combine_l _ _ _ _ Huv)).
  now rewrite (Hwj v (in_combine_r _ _ _ _ Huv)).
Qed.

(** The covariance of a pair in a batch is the covariance of the pair
    alone. *)
Lemma ArbitraryKernel_evaluate_entries
        {F C : Type} `{Float F} `{Mpmath F} {N : nat} {O : RowOrder (N + N)}
        (pool_map : (list F -> F) -> list (list F) -> list F)
        (self : hyper F C) (a : arbitrary_methods F)
        (Xi Xj : list (list F)) (ni nj : list (list Z)) :
  (forall f l, pool_map f l = map f l) ->
  (forall X Y : list (list F),
      length X = length Y ->
      cov_func a X Y (params self) =
      map (fun xy => cov_func_at a (fst xy) (snd xy) (params self))
          (combine X Y)) ->
  length Xj = length Xi -> length ni = length Xi -> length nj = length Xi ->
  Forall (fun r => length r = N) ni ->
  Forall (fun r => length r = N) nj ->
  exists K,
    ArbitraryKernel_evaluate cmp pool_map self a Xi Xj ni nj = Ok K
    /\ length K = length Xi
    /\ forall i, i < length Xi ->
         ArbitraryKernel_evaluate cmp pool_map self a
           [nth i Xi []] [nth i Xj []] [nth i ni []] [nth i nj []] =
         Ok [nth i K fzero].
Proof.
  intros Hpool Hcov HlX Hlni Hlnj Hwi Hwj.
  assert (Hwi' : forall i, i < length Xi ->
                           Forall (fun r => length r = N) [nth i ni []]).
  { intros i Hi. constructor; [|constructor].
    rewrite Forall_forall in Hwi. apply Hwi, nth_In. lia. }
  assert (Hwj' : forall i, i < length Xi ->
                           Forall (fun r => length r = N) [nth i nj []]).
  { intros i Hi. constructor; [|constructor].
    rewrite Forall_forall in Hwj. apply Hwj, nth_In. lia. }
  destruct (Nat.eq_dec N 0) as [HN|HN].
  - subst N.
    rewrite (ArbitraryKernel_evaluate_no_columns cmp pool_map self a
               Xi Xj ni nj HlX Hlni Hlnj Hwi Hwj).
    eexists. split; [reflexivity|]. split; [apply repeat_length|].
    intros i Hi.
    rewrite (ArbitraryKernel_evaluate_no_columns cmp pool_map self a
               [nth i Xi []] [nth i Xj []] [nth i ni []] [nth i nj []]
               eq_refl eq_refl eq_refl (Hwi' i Hi) (Hwj' i Hi)).
    cbn [length repeat]. f_equal. f_equal.
    symmetry. apply nth_repeat.
  - assert (HN1 : 1 <= N) by lia.
    rewrite (ArbitraryKernel_evaluate_pairwise pool_map self a
               Xi Xj ni nj HN1 Hpool Hcov HlX Hlni Hlnj Hwi Hwj).
    eexists. split; [reflexivity|]. split.
    { rewrite length_map, !length_combine. lia. }
    intros i Hi.
    rewrite (ArbitraryKernel_evaluate_pairwise pool_map self a
               [nth i Xi []] [nth i Xj []] [nth i ni []] [nth i nj []]
               HN1 Hpool Hcov eq_refl eq_refl eq_refl (Hwi' i Hi) (Hwj' i Hi)).
    cbn [combine map]. f_equal. f_equal.
    match goal with
    | |- _ = nth i (map ?f ?l) _ =>
        rewrite (nth_map_in_range f l fzero (([], []), ([], [])) i)
          by (rewrite !length_combine; lia)
    end.
    rewrite !combine_nth by (rewrite ?length_combine; lia).
    reflexivity.
Qed.

(** X19: for a covariance function that acts on every pair of points
    separately, and a pool whose [map] keeps the order of the tasks,
    the call of a numerically differentiated kernel on [M] pairs with
    derivative orders of one width, at least 1, returns [M] covariances,
    whatever [num_proc] is: for a pair whose orders are all zero the
    covariance function at the two points, for every other pair the
    chopped derivative of [_mask_cov_func] of the orders of the pair, at
    the coordinates of the two points one after the other. *)
Theorem ArbitraryKernel_evaluate_pair_by_pair
        {F C : Type} `{Float F} `{Mpmath F} {N : nat} {O : RowOrder (N + N)}
        (pool_map : (list F -> F) -> list (list F) -> list F)
        (self : hyper F C) (a : arbitrary_methods F)
        (Xi Xj : list (list F)) (ni nj : list (list Z)) :
  1 <= N ->
  (forall f l, pool_map f l = map f l) ->
  (forall X Y : list (list F),
      length X = length Y ->
      cov_func a X Y (params self) =
      map (fun xy => cov_func_at a (fst xy) (snd xy) (params self))
          (combine X Y)) ->
  length Xj = length Xi -> length ni = length Xi -> length nj = length Xi ->
  Forall (fun r => length r = N) ni ->
  Forall (fun r => length r = N) nj ->
  exists K,
    (forall fuel p,
        kernel_call cmp pool_map fuel (ArbitraryKernel self (with_num_proc a p))
          [PyFloatArray Xi; PyFloatArray Xj; PyIntArray ni; PyIntArray nj] []
        = Ok K)
    /\ length K = length Xi
    /\ forall i, i < length Xi ->
         let xi := nth i Xi [] in
         let xj := nth i Xj [] in
         let n := nth i ni [] ++ nth i nj [] in
         nth i K fzero =
         if forallb (fun z => (z =? 0)%Z) n
         then cov_func_at a xi xj (params self)
         else mp_chop (mp_diff (_mask_cov_func self a) (xi ++ xj) n).
Proof.
  intros HN Hpool Hcov HlX Hlni Hlnj Hwi Hwj.
  exists (map (fun it : (list F * list F) * (list Z * list Z) =>
                 let xi := fst (fst it) in
                 let xj := snd (fst it) in
                 let n := fst (snd it) ++ snd (snd it) in
                 if forallb (fun z => (z =? 0)%Z) n
                 then cov_func_at a xi xj (params self)
                 else mp_chop (mp_diff (_mask_cov_func self a) (xi ++ xj) n))
              (combine (combine Xi Xj) (combine ni nj))).
  split; [|split].
  - intros fuel p.
    change (kernel_call cmp pool_map fuel
              (ArbitraryKernel self (with_num_proc a p))
              [PyFloatArray Xi; PyFloatArray Xj; PyIntArray ni; PyIntArray nj]
              [])
      with (ArbitraryKernel_evaluate cmp pool_map self (with_num_proc a p)
                                     Xi Xj ni nj).
    now rewrite (ArbitraryKernel_evaluate_pairwise
                   pool_map self (with_num_proc a p)).
  - rewrite length_map, !length_combine. lia.
  - intros i Hi xi xj n.
    match goal with
    | |- nth i (map ?f ?l) _ = _ =>
        rewrite (nth_map_in_range f l fzero (([], []), ([], [])) i)
          by (rewrite !length_combine; lia)
    end.
    rewrite !combine_nth by (rewrite ?length_combine; lia).
    reflexivity.
Qed.

Lemma ArbitraryKernel_evaluate_pair_by_pair_witness :
  exists K,
    kernel_call Row_cmp (@map (list Z) Z) 0
      (ArbitraryKernel cubic_attributes (with_num_proc product_covariance 4))
      [PyFloatArray [[1; 2]; [3; 1]]%Z; PyFloatArray [[4; 5]; [0; 2]]%Z;
       PyIntArray [[1; 0]; [0; 0]]%Z; PyIntArray [[0; 0]; [0; 0]]%Z] [] = Ok K
    /\ nth 0 K 0%Z = 27%Z
    /\ nth 1 K 0%Z = 8%Z.
Proof.
  assert (Hcov : forall X Y : list (list Z),
             length X = length Y ->
             cov_func product_covariance X Y (params cubic_attributes) =
             map (fun xy => cov_func_at product_covariance (fst xy) (snd xy)
                                        (params cubic_attributes))
                 (combine X Y)) by reflexivity.
  assert (Hwi : Forall (fun r : list Z => length r = 2) [[1; 0]; [0; 0]]%Z)
    by (repeat constructor).
  assert (Hwj : Forall (fun r : list Z => length r = 2) [[0; 0]; [0; 0]]%Z)
    by (repeat constructor).
  assert (Hwidth : 1 <= 2) by lia.
  destruct (@ArbitraryKernel_evaluate_pair_by_pair
              Z unit Z_Float Z_Mpmath 2 (Row_order 4)
              (@map (list Z) Z) cubic_attributes product_covariance
              [[1; 2]; [3; 1]]%Z [[4; 5]; [0; 2]]%Z
              [[1; 0]; [0; 0]]%Z [[0; 0]; [0; 0]]%Z
              Hwidth (fun f l => eq_refl) Hcov eq_refl eq_refl eq_refl
              Hwi Hwj)
    as (K & Hcall & _ & Hentries).
  exists K. split; [exact (Hcall 0 4%Z)|]. split.
  - apply (Hentries 0). simpl. lia.
  - apply (Hentries 1). simpl. lia.
Defined.

(** *** The number of hyperparameters found by inspection *)

(** X20: when [num_params] is not given, [ArbitraryKernel.__init__]
    counts the arguments of the covariance function, less the two
    arrays of points, and one less for a callable object, which
    [inspect.getargspec] refuses with a TypeError.  When this number is
    negative, the construction raises a ValueError whatever else is
    passed; otherwise, with [num_dim >= 1] and no other keyword, the
    kernel has that many hyperparameters, all 1 and all free, and
    [num_proc] is the number of processors when it is [None].  When
    [num_params] is given, nothing is inspected. *)
Theorem ArbitraryKernel_init_inspection
        {F C : Type} `{Float F} `{KernelEnv F C}
        (cpu_count : Z) (i : inspection)
        (cf : list (list F) -> list (list F) -> list F -> list F)
        (cfa : list F -> list F -> list F -> F)
        (nd : Z) (np : option Z) (names : list string) (q : Z) :
  (argspec i = Ok names /\ q = (Z.of_nat (length names) - 2)%Z)
  \/ (argspec i = Raise TypeError /\ call_argspec i = Ok names
      /\ q = (Z.of_nat (length names) - 3)%Z) ->
  ((q < 0)%Z ->
   forall kwargs,
     ArbitraryKernel_init cpu_count i cf cfa nd np None kwargs =
     Raise ValueError)
  /\ ((0 <= q)%Z -> (1 <= nd)%Z ->
      exists h,
        ArbitraryKernel_init cpu_count i cf cfa nd np None default_keywords =
        Ok (ArbitraryKernel h {| num_proc := or_default np cpu_count;
                                 cov_func := cf;
                                 cov_func_at := cfa |})
        /\ num_params h = q
        /\ num_dim h = nd
        /\ params h = repeat fone (Z.to_nat q)
        /\ free_params h = params h)
  /\ (forall i' n kwargs,
         ArbitraryKernel_init cpu_count i' cf cfa nd np (Some n) kwargs =
         ArbitraryKernel_init cpu_count i cf cfa nd np (Some n) kwargs).
Proof.
  intros Hi.
  assert (Hq : inspected_num_params i = Ok q).
  { unfold inspected_num_params.
    destruct Hi as [[-> ->]|(-> & -> & ->)]; reflexivity. }
  split; [|split].
  - intros Hneg kwargs. unfold ArbitraryKernel_init. rewrite Hq.
    cbn [bind]. unfold Kernel_init.
    destruct (Z.ltb_spec q 0); [reflexivity | lia].
  - intros Hpos Hnd. unfold ArbitraryKernel_init. rewrite Hq. cbn [bind].
    unfold Kernel_init, default_keywords.
    cbn [kw_initial_params kw_fixed_params kw_param_bounds kw_enforce_bounds
         kw_hyperpriors kw_is_log kw_potentials].
    destruct (Z.ltb_spec q 0); [lia|].
    destruct (Z.ltb_spec nd 1); [lia|].
    cbn [bind fst snd]. eexists. split.
    + destruct np; reflexivity.
    + cbn [num_params num_dim params]. repeat split.
      unfold free_params. cbn [params fixed_params].
      apply mask_select_none_fixed. now rewrite repeat_length.
  - reflexivity.
Qed.

Lemma ArbitraryKernel_init_inspection_witness :
  exists h : hyper Z unit,
    ArbitraryKernel_init 8
      {| argspec := Ok ["Xi"; "Xj"; "sigma"; "l"]%string;
         call_argspec := Raise TypeError |}
      (cov_func product_covariance) (cov_func_at product_covariance)
      1 None None default_keywords =
    Ok (ArbitraryKernel h
          {| num_proc := 8;
             cov_func := cov_func product_covariance;
             cov_func_at := cov_func_at product_covariance |})
    /\ num_params h = 2%Z
    /\ params h = [1; 1]%Z.
Proof.
  destruct (@ArbitraryKernel_init_inspection
              Z unit Z_Float Z_KernelEnv 8
              {| argspec := Ok ["Xi"; "Xj"; "sigma"; "l"]%string;
                 call_argspec := Raise TypeError |}
              (cov_func product_covariance) (cov_func_at product_covariance)
              1 None ["Xi"; "Xj"; "sigma"; "l"]%string 2
              (or_introl (conj eq_refl eq_refl))) as (_ & Hok & _).
  destruct (Hok ltac:(lia) ltac:(lia)) as (h & E & Hn & _ & Hp & _).
  exists h. split; [exact E|]. split; [exact Hn | exact Hp].
Defined.

(** ** The scaled distances *)

Lemma last_items_app {A : Type} (front l : list A) (d : Z) :
  Z.of_nat (length l) = d -> 1 <= length l ->
  last_items d (front ++ l) = l.
Proof.
  intros Hd Hl. unfold last_items.
  destruct (Z.ltb_spec 0 d); [|lia].
  rewrite length_app.
  replace (length front + length l - Z.to_nat d) with (length front) by lia.
  apply skipn_length_app.
Qed.

(** X21: [_compute_r2l2] reads the length scales [l] from the last
    [num_dim] hyperparameters and nothing from the ones before them.
    For [tau] with as many columns as there are length scales it
    returns one distance per row, the sum over the dimensions of
    [(tau_d / l_d) ** 2], and with [return_l] the length scales once per
    row; for another number of columns, neither of the two numbers
    being 1, it raises a ValueError. *)
Theorem _compute_r2l2_length_scales
        {F C : Type} `{Float F} `{NumpyFloat F}
        (self : hyper F C) (tau : array2 F) (front l : list F) :
  params self = front ++ l ->
  Z.of_nat (length l) = num_dim self ->
  1 <= length l ->
  (forall (self' : hyper F C) (front' : list F) (return_l : bool),
      params self' = front' ++ l -> num_dim self' = num_dim self ->
      _compute_r2l2 self' tau return_l = _compute_r2l2 self tau return_l)
  /\ (shape1 tau = length l ->
      exists r2l2,
        _compute_r2l2 self tau false = Ok (r2l2, None)
        /\ _compute_r2l2 self tau true =
           Ok (r2l2, Some (repeat l (length (rows tau))))
        /\ length r2l2 = length (rows tau)
        /\ forall i t,
             nth_error (rows tau) i = Some t -> length t = length l ->
             nth_error r2l2 i =
             Some (fsum (map (fun uv =>
                                fpow (fdiv (fst uv) (snd uv)) (of_int 2))
                             (combine t l))))
  /\ (shape1 tau <> length l -> shape1 tau <> 1 -> length l <> 1 ->
      forall return_l, _compute_r2l2 self tau return_l = Raise ValueError).
Proof.
  intros Hp Hd Hl. split; [|split].
  - intros self' front' return_l Hp' Hd'. unfold _compute_r2l2.
    rewrite Hp, Hp', Hd', !last_items_app by assumption. reflexivity.
  - intros Hs. unfold _compute_r2l2.
    rewrite Hp, last_items_app by assumption.
    unfold broadcastable. rewrite Hs, Nat.eqb_refl. cbn [orb].
    eexists. split; [reflexivity|]. split; [reflexivity|].
    split; [now rewrite length_map|].
    intros i t Hi Ht. rewrite nth_error_map, Hi. cbn [option_map].
    unfold divide_row. rewrite Ht, Nat.eqb_refl, map_map. reflexivity.
  - intros Hs H1 H2 return_l. unfold _compute_r2l2.
    rewrite Hp, last_items_app by assumption. unfold broadcastable.
    destruct (Nat.eqb_spec (shape1 tau) (length l)); [contradiction|].
    destruct (Nat.eqb_spec (shape1 tau) 1); [contradiction|].
    destruct (Nat.eqb_spec (length l) 1); [contradiction|]. reflexivity.
Qed.

Lemma _compute_r2l2_length_scales_witness :
  let tau := {| shape1 := 2; rows := [[6; 9]; [4; 3]]%Z |} in
  _compute_r2l2 (with_params cubic_attributes [2; 3]%Z) tau true =
  _compute_r2l2 (with_params cubic_attributes [5; 2; 3]%Z) tau true
  /\ exists r2l2,
       _compute_r2l2 (with_params cubic_attributes [5; 2; 3]%Z) tau true =
       Ok (r2l2, Some [[2; 3]; [2; 3]]%Z)
       /\ nth_error r2l2 0 = Some 18%Z.
Proof.
  intros tau.
  assert (Hl : 1 <= length [2; 3]%Z) by (simpl; lia).
  destruct (@_compute_r2l2_length_scales
              Z unit Z_Float Z_NumpyFloat
              (with_params cubic_attributes [5; 2; 3]%Z) tau
              [5%Z] [2; 3]%Z eq_refl eq_refl Hl) as (Hsame & Hshape & _).
  split.
  - exact (Hsame (with_params cubic_attributes [2; 3]%Z) [] true
                 eq_refl eq_refl).
  - destruct (Hshape eq_refl) as (r2l2 & _ & Htrue & _ & Hrows).
    exists r2l2. split; [exact Htrue|].
    exact (Hrows 0 [6; 9]%Z eq_refl eq_refl).
Defined.

(** ** Sums and products of kernels, pair by pair *)

Lemma same_shape_widths {A B : Type} (n : nat) (a : list (list A))
      (b : list (list B)) :
  length a = length b ->
  Forall (fun r => length r = n) a -> Forall (fun r => length r = n) b ->
  same_shape a b = true.
Proof.
  intros Hl Ha Hb. unfold same_shape. apply andb_true_iff. split.
  - now apply Nat.eqb_eq.
  - apply forallb_forall. intros [u v] Huv. cbn [fst snd].
    rewrite Forall_forall in Ha, Hb. apply Nat.eqb_eq.
    rewrite (Ha u (in_combine_l _ _ _ _ Huv)).
    now rewrite (Hb v (in_combine_r _ _ _ _ Huv)).
Qed.

Lemma broadcast2_same_length {A : Type} (f : A -> A -> A) (d : A)
      (K1 K2 : list A) :
  length K1 = length K2 ->
  exists K,
    broadcast2 f K1 K2 = Ok K
    /\ length K = length K1
    /\ forall i, i < length K1 ->
         broadcast2 f [nth i K1 d] [nth i K2 d] = Ok [nth i K d].
Proof.
  intros Hl. unfold broadcast2. rewrite Hl, Nat.eqb_refl.
  eexists. split; [reflexivity|]. split.
  - rewrite length_map, length_combine. lia.
  - intros i Hi. cbn [length Nat.eqb combine map fst snd]. f_equal.
    rewrite (nth_map_in_range _ _ d (d, d))
      by (rewrite length_combine; lia).
    now rewrite combine_nth.
Qed.

Section KernelTree.
Context {F C : Type} `{Float F} `{Mpmath F}.
Context {N : nat} (O1 : RowOrder N) (O2 : RowOrder (N + N)).
Variable pool_map : (list F -> F) -> list (list F) -> list F.
Hypothesis pool_map_in_order : forall f l, pool_map f l = map f l.
Variables Xi Xj : list (list F).
Variables ni nj : list (list Z).
Hypothesis Xi_Xj : same_shape Xi Xj = true.
Hypothesis ni_Xi : length ni = length Xi.
Hypothesis nj_Xi : length nj = length Xi.
Hypothesis ni_width : Forall (fun r => length r = N) ni.
Hypothesis nj_width : Forall (fun r => length r = N) nj.

Lemma kernel_call_entries (fuel : nat) (k : kernel F C) :
  @cmp (N + N) O2 = @cmp N O1 ->
  pairwise_kernel k ->
  list_max (map (fun r : list Z * list Z =>
                   bell (length (deriv_pattern (row_add (fst r) (snd r)))))
                (combine ni nj)) <= fuel ->
  exists K,
    kernel_call (@cmp N O1) pool_map fuel k
      [PyFloatArray Xi; PyFloatArray Xj; PyIntArray ni; PyIntArray nj] []
    = Ok K
    /\ length K = length Xi
    /\ forall i, i < length Xi ->
         kernel_call (@cmp N O1) pool_map fuel k
           [PyFloatArray [nth i Xi []]; PyFloatArray [nth i Xj []];
            PyIntArray [nth i ni []]; PyIntArray [nth i nj []]] [] =
         Ok [nth i K fzero].
Proof.
  intros Hcmp Hk Hfuel.
  pose proof (same_shape_length _ _ Xi_Xj) as HlX.
  assert (Hn : same_shape ni nj = true)
    by (apply (same_shape_widths N); [lia | assumption | assumption]).
  induction k as [h|h call|h m|h a|op h k1 IH1 k2 IH2]; cbn [pairwise_kernel] in Hk.
  - contradiction.
  - contradiction.
  - destruct Hk as [[pm Hpm] Hp].
    destruct (params h) as [|p0 ps] eqn:Ep; [congruence|].
    cbn [kernel_call]. rewrite !ChainRuleKernel_call_positional.
    destruct (@ChainRuleKernel_evaluate_entries
                F C _ N O1 h m pm p0 fuel Xi Xj ni nj Hpm)
      as (K & HK & Hlen & Hi); try assumption; [now rewrite Ep|].
    exists K. split; [exact HK|]. split; [exact Hlen|].
    intros i Hlt. rewrite ChainRuleKernel_call_positional. now apply Hi.
  - change (forall X Y : list (list F),
               length X = length Y ->
               cov_func a X Y (params h) =
               map (fun xy => cov_func_at a (fst xy) (snd xy) (params h))
                   (combine X Y)) in Hk.
    assert (Hcall : forall (A B : list (list F)) (u v : list (list Z)),
               kernel_call (@cmp N O1) pool_map fuel (ArbitraryKernel h a)
                 [PyFloatArray A; PyFloatArray B; PyIntArray u; PyIntArray v]
                 [] =
               ArbitraryKernel_evaluate (@cmp (N + N) O2) pool_map h a
                                        A B u v).
    { intros A B u v. rewrite Hcmp. reflexivity. }
    destruct (@ArbitraryKernel_evaluate_entries F C _ _ N O2 pool_map h a
                Xi Xj ni nj pool_map_in_order Hk)
      as (K & HK & Hlen & Hi); try assumption; [lia|].
    exists K. rewrite Hcall. split; [exact HK|]. split; [exact Hlen|].
    intros i Hlt. rewrite Hcall. now apply Hi.
  - destruct Hk as [Hk1 Hk2].
    destruct (IH1 Hk1) as (K1 & HK1 & Hl1 & Hi1).
    destruct (IH2 Hk2) as (K2 & HK2 & Hl2 & Hi2).
    destruct op; cbn [kernel_call lookup]; rewrite HK1, HK2; cbn [bind].
    + destruct (broadcast2_same_length fadd fzero K1 K2)
        as (K & HK & Hl & Hi); [lia|].
      exists K. split; [exact HK|]. split; [lia|].
      intros i Hlt. rewrite (Hi1 i Hlt), (Hi2 i Hlt). cbn [bind].
      apply Hi. lia.
    + destruct (broadcast2_same_length fmul fzero K1 K2)
        as (K & HK & Hl & Hi); [lia|].
      exists K. split; [exact HK|]. split; [lia|].
      intros i Hlt. rewrite (Hi1 i Hlt), (Hi2 i Hlt). cbn [bind].
      apply Hi. lia.
Qed.

End KernelTree.

(** X22: for a kernel built with [+] and [*] from chain-rule kernels
    whose methods work point by point and from numerically
    differentiated kernels whose covariance function acts on every pair
    separately, the call on [M] pairs of points with derivative orders
    of one width [N], sorted by an order that is total on the rows of
    [N] and of [2 N] entries, returns, for every sufficiently large
    iteration budget, [M] covariances, and the call on the [i]-th pair
    alone returns the [i]-th of them, whatever the other pairs are.  For
    a sum or a product the covariances are the sums or the products of
    the covariances of the two operands, entry by entry. *)
Theorem kernel_call_pair_by_pair
        {F C : Type} `{Float F} `{Mpmath F} {N : nat}
        (O1 : RowOrder N) (O2 : RowOrder (N + N))
        (pool_map : (list F -> F) -> list (list F) -> list F)
        (k : kernel F C)
        (Xi Xj : list (list F)) (ni nj : list (list Z)) :
  @cmp (N + N) O2 = @cmp N O1 ->
  (forall f l, pool_map f l = map f l) ->
  pairwise_kernel k ->
  same_shape Xi Xj = true ->
  length ni = length Xi -> length nj = length Xi ->
  Forall (fun r => length r = N) ni ->
  Forall (fun r => length r = N) nj ->
  exists fuel0, forall fuel, fuel0 <= fuel ->
  exists K,
    kernel_call (@cmp N O1) pool_map fuel k
      [PyFloatArray Xi; PyFloatArray Xj; PyIntArray ni; PyIntArray nj] []
    = Ok K
    /\ length K = length Xi
    /\ (forall i, i < length Xi ->
          kernel_call (@cmp N O1) pool_map fuel k
            [PyFloatArray [nth i Xi []]; PyFloatArray [nth i Xj []];
             PyIntArray [nth i ni []]; PyIntArray [nth i nj []]] [] =
          Ok [nth i K fzero])
    /\ match k with
       | BinaryKernel op _ k1 k2 =>
           exists K1 K2,
             kernel_call (@cmp N O1) pool_map fuel k1
               [PyFloatArray Xi; PyFloatArray Xj; PyIntArray ni; PyIntArray nj]
               [] = Ok K1
             /\ kernel_call (@cmp N O1) pool_map fuel k2
                  [PyFloatArray Xi; PyFloatArray Xj; PyIntArray ni;
                   PyIntArray nj] [] = Ok K2
             /\ length K1 = length Xi /\ length K2 = length Xi
             /\ forall i, i < length Xi ->
                  nth i K fzero =
                  match op with
                  | Sum => fadd (nth i K1 fzero) (nth i K2 fzero)
                  | Product => fmul (nth i K1 fzero) (nth i K2 fzero)
                  end
       | _ => True
       end.
Proof.
  intros Hcmp Hpool Hk HX Hlni Hlnj Hwi Hwj.
  exists (list_max (map (fun r : list Z * list Z =>
                           bell (length (deriv_pattern
                                           (row_add (fst r) (snd r)))))
                        (combine ni nj))).
  intros fuel Hfuel.
  destruct (kernel_call_entries O1 O2 pool_map Hpool Xi Xj ni nj
                                HX Hlni Hlnj Hwi Hwj fuel k Hcmp Hk Hfuel)
    as (K & HK & Hlen & Hi).
  exists K. split; [exact HK|]. split; [exact Hlen|]. split; [exact Hi|].
  destruct k as [h|h call|h m|h a|op h k1 k2]; try exact I.
  cbn [pairwise_kernel] in Hk. destruct Hk as [Hk1 Hk2].
  destruct (kernel_call_entries O1 O2 pool_map Hpool Xi Xj ni nj
                                HX Hlni Hlnj Hwi Hwj fuel k1 Hcmp Hk1 Hfuel)
    as (K1 & HK1 & Hl1 & _).
  destruct (kernel_call_entries O1 O2 pool_map Hpool Xi Xj ni nj
                                HX Hlni Hlnj Hwi Hwj fuel k2 Hcmp Hk2 Hfuel)
    as (K2 & HK2 & Hl2 & _).
  exists K1, K2. split; [exact HK1|]. split; [exact HK2|].
  split; [exact Hl1|]. split; [exact Hl2|].
  intros i Hlt. revert HK.
  destruct op; cbn [kernel_call lookup]; rewrite HK1, HK2; cbn [bind];
    unfold broadcast2; rewrite Hl1, Hl2, Nat.eqb_refl; intros [= <-];
    rewrite (nth_map_in_range _ _ fzero (fzero, fzero))
      by (rewrite length_combine; lia);
    now rewrite combine_nth by lia.
Qed.

Lemma kernel_call_pair_by_pair_witness :
  let k := BinaryKernel Sum cubic_attributes
             (ChainRuleKernel cubic_attributes (methods_of_points cubic_points))
             (ArbitraryKernel cubic_attributes product_covariance) in
  exists fuel0, forall fuel, fuel0 <= fuel ->
  exists K,
    kernel_call Row_cmp (@map (list Z) Z) fuel k
      [PyFloatArray [[1; 2]; [3; 1]]%Z; PyFloatArray [[0; 0]; [1; 1]]%Z;
       PyIntArray [[1; 0]; [0; 0]]%Z; PyIntArray [[0; 1]; [0; 0]]%Z] [] = Ok K
    /\ kernel_call Row_cmp (@map (list Z) Z) fuel k
         [PyFloatArray [[3; 1]]%Z; PyFloatArray [[1; 1]]%Z;
          PyIntArray [[0; 0]]%Z; PyIntArray [[0; 0]]%Z] [] = Ok [nth 1 K 0%Z].
Proof.
  intros k.
  assert (Hk : pairwise_kernel k).
  { split; [|intros X Y _; reflexivity]. split; [|discriminate].
    exists cubic_points. apply methods_of_points_pointwise. }
  assert (Hwi : Forall (fun r : list Z => length r = 2) [[1; 0]; [0; 0]]%Z)
    by (repeat constructor).
  assert (Hwj : Forall (fun r : list Z => length r = 2) [[0; 1]; [0; 0]]%Z)
    by (repeat constructor).
  destruct (@kernel_call_pair_by_pair
              Z unit Z_Float Z_Mpmath 2 (Row_order 2) (Row_order 4)
              (@map (list Z) Z) k
              [[1; 2]; [3; 1]]%Z [[0; 0]; [1; 1]]%Z
              [[1; 0]; [0; 0]]%Z [[0; 1]; [0; 0]]%Z
              eq_refl (fun f l => eq_refl) Hk eq_refl eq_refl eq_refl Hwi Hwj)
    as [fuel0 Hfuel0].
  exists fuel0. intros fuel Hfuel.
  destruct (Hfuel0 fuel Hfuel) as (K & HK & _ & Hpair & _).
  exists K. split; [exact HK|].
  assert (Hlt : 1 < length [[1; 2]; [3; 1]]%Z) by (simpl; lia).
  exact (Hpair 1 Hlt).
Defined.


(** ** The call of the optimizer *)

(** A keyword the wrapper neither removes nor renames reaches the
    optimizer with the value [options] gives it, if any, and else with
    its own. *)
Lemma call_kwargs_get {V : Type} (opt_kwargs : dict (pyvalue V))
      (c : slsqp_call V) (key : string) :
  slsqp_arguments opt_kwargs = Returned c ->
  ~ In key ["method"; "constraints"; "jac"; "tol"; "options";
            "hess"; "hessp"; "callback"; "acc"]%string ->
  dict_get key (call_kwargs c) =
  match dict_get "options" opt_kwargs with
  | Some (DictOf opts) =>
      match dict_get key opts with
      | Some v => Some v
      | None => dict_get key opt_kwargs
      end
  | _ => dict_get key opt_kwargs
  end.
Proof.
  intros Hc Hk. cbn [In] in Hk.
  assert (H1 : key_in key ["hess"; "hessp"; "callback"]%string = false)
    by (apply key_in_false; cbn [In]; tauto).
  assert (H2 : key_in key ["method"; "constraints"; "jac"; "tol"]%string
               = false)
    by (apply key_in_false; cbn [In]; tauto).
  assert (H3 : String.eqb key "acc" = false)
    by (apply String.eqb_neq; intuition congruence).
  assert (H4 : key <> "options"%string) by intuition congruence.
  rewrite slsqp_arguments_unfold in Hc.
  destruct (match dict_get "constraints" opt_kwargs with
            | Some v => collect_constraints v
            | None => Returned ([], [])
            end) as [cons|e]; cbn [and_then] in Hc; [|discriminate].
  destruct (dict_get "options" opt_kwargs) as [[v|s|opts|items]|];
    cbn [and_then] in Hc; try discriminate;
    injection Hc as <-; cbn [call_kwargs]; rewrite dict_get_popped, H1.
  - rewrite dict_get_merged. destruct (dict_get key opts); [reflexivity|].
    rewrite dict_get_pop_other by exact H4.
    now rewrite renamed_keywords_get, H2, H3.
  - now rewrite renamed_keywords_get, H2, H3.
Qed.

(** X23: when the constraints and [options] are accepted, the wrapper
    raises a TypeError without calling the optimizer if [opt_kwargs], or
    the dictionary [options], holds one of [full_output], [eqcons] and
    [ieqcons], which the call also passes by name.  Otherwise it calls
    the optimizer once: an exception of the optimizer is passed on, and
    of what the optimizer returns [status] is the exit mode, [success]
    says whether the exit mode is 0, and [x], [fun], [nit] and [message]
    are the solution, the value, the number of iterations and the
    message. *)
Theorem wrap_fmin_slsqp_result {V : Type}
        (fmin_slsqp : pyvalue V -> pyvalue V ->
                      list (pyvalue V) -> list (pyvalue V) ->
                      dict (pyvalue V) -> outcome (slsqp_output V))
        (fun' guess : pyvalue V) (opt_kwargs : dict (pyvalue V))
        (c : slsqp_call V) :
  slsqp_arguments opt_kwargs = Returned c ->
  let given := fun key =>
    dict_has key opt_kwargs
    || match dict_get "options" opt_kwargs with
       | Some (DictOf opts) => dict_has key opts
       | _ => false
       end in
  (given "full_output"%string || given "eqcons"%string
   || given "ieqcons"%string = true ->
   wrap_fmin_slsqp fmin_slsqp fun' guess opt_kwargs = Raised (Exn TypeError))
  /\ (given "full_output"%string || given "eqcons"%string
      || given "ieqcons"%string = false ->
      wrap_fmin_slsqp fmin_slsqp fun' guess opt_kwargs =
      match fmin_slsqp fun' guess (call_eqcons c) (call_ieqcons c)
                       (call_kwargs c) with
      | Returned o =>
          Returned {| Result_status := slsqp_imode o;
                      Result_success := (slsqp_imode o =? 0)%Z;
                      Result_fun := slsqp_fx o;
                      Result_x := slsqp_out o;
                      Result_message := slsqp_smode o;
                      Result_nit := slsqp_its o |}
      | Raised e => Raised e
      end).
Proof.
  intros Hc given.
  assert (Hgiven : forall key,
             In key ["full_output"; "eqcons"; "ieqcons"]%string ->
             dict_has key (call_kwargs c) = given key).
  { intros key Hk. unfold dict_has at 1.
    rewrite (call_kwargs_get opt_kwargs c key Hc).
    - unfold given, dict_has.
      destruct (dict_get "options" opt_kwargs) as [[v|s|opts|items]|];
        destruct (dict_get key opt_kwargs); rewrite ?orb_false_r;
        try reflexivity; now destruct (dict_get key opts).
    - cbn [In] in *. intros Hin.
      destruct Hk as [<-|[<-|[<-|[]]]];
        repeat (destruct Hin as [Hin|Hin]; [discriminate Hin|]);
        exact Hin. }
  unfold wrap_fmin_slsqp. rewrite Hc. cbn [and_then].
  rewrite !Hgiven by (cbn [In]; auto). split; intros ->; [reflexivity|].
  destruct (fmin_slsqp fun' guess (call_eqcons c) (call_ieqcons c)
                       (call_kwargs c)); reflexivity.
Qed.

Lemma wrap_fmin_slsqp_result_witness :
  let optimizer : pyvalue nat -> pyvalue nat -> list (pyvalue nat) ->
                  list (pyvalue nat) -> dict (pyvalue nat) ->
                  outcome (slsqp_output nat) :=
    fun _ guess _ _ _ =>
      Returned {| slsqp_out := 1; slsqp_fx := 2; slsqp_its := 3;
                  slsqp_imode := 8; slsqp_smode := 4 |} in
  wrap_fmin_slsqp optimizer (Atom 0) (Atom 0)
                  [("options", DictOf [("eqcons", ListOf [])])]%string =
  Raised (Exn TypeError)
  /\ wrap_fmin_slsqp optimizer (Atom 0) (Atom 0) [("iter", Atom 5)]%string =
     Returned {| Result_status := 8;
                 Result_success := false;
                 Result_fun := 2;
                 Result_x := 1;
                 Result_message := 4;
                 Result_nit := 3 |}.
Proof.
  intros optimizer. split.
  - assert (Hc : exists c,
               slsqp_arguments
                 [("options", DictOf [("eqcons", @ListOf nat [])])]%string =
               Returned c) by (eexists; reflexivity).
    destruct Hc as [c Hc].
    apply (proj1 (wrap_fmin_slsqp_result optimizer (Atom 0) (Atom 0) _ c Hc)).
    reflexivity.
  - assert (Hc : exists c,
               slsqp_arguments [("iter", @Atom nat 5)]%string = Returned c)
      by (eexists; reflexivity).
    destruct Hc as [c Hc].
    rewrite (proj2 (wrap_fmin_slsqp_result optimizer (Atom 0) (Atom 0) _ c Hc)
                   eq_refl).
    reflexivity.
Defined.


(** ** The Bell polynomials at 1 are the Stirling numbers *)

Lemma stirling2_gt (n : nat) : forall k, n < k -> stirling2 n k = 0.
Proof.
  induction n as [|n IH]; intros [|k] Hk; try lia; [reflexivity|].
  cbn [stirling2]. rewrite !IH by lia. lia.
Qed.

Lemma sum_upto_shift (n : nat) (f : nat -> nat) :
  sum_upto (S n) f = f 0 + sum_upto n (fun i => f (S i)).
Proof.
  induction n as [|n IH]; [simpl; lia|].
  change (sum_upto (S (S n)) f) with (sum_upto (S n) f + f (S n)).
  rewrite IH. simpl. lia.
Qed.

Lemma sum_upto_zero (n : nat) (f : nat -> nat) :
  (forall j, j < n -> f j = 0) -> sum_upto n f = 0.
Proof.
  induction n as [|n IH]; intros Hf; [reflexivity|].
  simpl. rewrite IH, Hf by (intros; try apply Hf; lia). reflexivity.
Qed.

Lemma sum_upto_zero_tail (a b : nat) (f : nat -> nat) :
  a <= b -> (forall j, a <= j -> j < b -> f j = 0) ->
  sum_upto b f = sum_upto a f.
Proof.
  intros Hab. induction Hab as [|b Hab IH]; intros Hf; [reflexivity|].
  simpl. rewrite IH, Hf by (intros; try apply Hf; lia). lia.
Qed.

(** [S(N+1, K+1) = sum_j C(N, j) S(N-j, K)] *)
Lemma stirling2_binomial (N : nat) :
  forall K,
    sum_upto (S N) (fun j => choose N j * stirling2 (N - j) K) =
    stirling2 (S N) (S K).
Proof.
  induction N as [|N IH]; intros K.
  - cbn [sum_upto choose Nat.sub stirling2]. lia.
  - rewrite sum_upto_shift, choose_0. cbn [choose Nat.sub].
    rewrite (sum_upto_ext (S N) _
               (fun i => 1 * (choose N i * stirling2 (N - i) K)
                         + choose N (S i) * stirling2 (N - i) K))
      by (intros; lia).
    rewrite sum_upto_linear, IH.
    assert (First :
      stirling2 (S N) K
      + sum_upto (S N) (fun i => choose N (S i) * stirling2 (N - i) K) =
      sum_upto (S N) (fun m => choose N m * stirling2 (S (N - m)) K)).
    { transitivity (sum_upto (S (S N))
                             (fun m => choose N m * stirling2 (S N - m) K)).
      - rewrite (sum_upto_shift (S N)), choose_0. cbn [Nat.sub]. lia.
      - change (sum_upto (S (S N))
                         (fun m => choose N m * stirling2 (S N - m) K))
          with (sum_upto (S N)
                         (fun m => choose N m * stirling2 (S N - m) K)
                + choose N (S N) * stirling2 (S N - S N) K).
        rewrite choose_gt by lia.
        rewrite (sum_upto_ext (S N) _
                   (fun m => choose N m * stirling2 (S (N - m)) K)).
        + lia.
        + intros m Hm. replace (S N - m) with (S (N - m)) by lia.
          reflexivity. }
    destruct K as [|K'].
    + rewrite (sum_upto_zero (S N)
                 (fun m => choose N m * stirling2 (S (N - m)) 0)) in First
        by (intros; cbn [stirling2]; lia).
      cbn [stirling2] in *. lia.
    + rewrite (sum_upto_ext (S N)
                 (fun m => choose N m * stirling2 (S (N - m)) (S K'))
                 (fun m => S K' * (choose N m * stirling2 (N - m) (S K'))
                           + choose N m * stirling2 (N - m) K')) in First
        by (intros; cbn [stirling2]; lia).
      rewrite sum_upto_linear, !IH in First.
      change (stirling2 (S (S N)) (S (S K')))
        with (S (S K') * stirling2 (S N) (S (S K'))
              + stirling2 (S N) (S K')).
      lia.
Qed.

Lemma list_sum_sum_upto (h : nat -> nat) (c : nat) :
  list_sum (map (fun m => h (m - 1)) (seq 1 c)) = sum_upto c h.
Proof.
  induction c as [|c IH]; [reflexivity|].
  rewrite seq_S, map_app, list_sum_app, IH. cbn [map sum_upto].
  change (list_sum [h (1 + c - 1)]) with (h (1 + c - 1) + 0).
  replace (1 + c - 1) with c by lia. lia.
Qed.

Lemma sum_upto_term (f : nat -> nat) (n j : nat) :
  j < n -> f j <= sum_upto n f.
Proof.
  induction n as [|n IH]; intros Hj; [lia|].
  cbn [sum_upto]. destruct (Nat.eq_dec j n) as [->|Hne]; [lia|].
  specialize (IH ltac:(lia)). lia.
Qed.

Lemma sum_upto_prefix (f : nat -> nat) (a b : nat) :
  a <= b -> sum_upto a f <= sum_upto b f.
Proof.
  induction 1 as [|b Hab IH]; [lia|]. cbn [sum_upto]. lia.
Qed.

Section StirlingNumbers.
Context {F : Type} `{Float F}.
Variable B : nat.
Hypothesis exact : exact_up_to B.

Lemma bell_poly_ones (k : nat) :
  forall (n : nat) (xs : list F),
    (forall N j, N < n -> j <= N -> choose N j <= B) ->
    (forall N K, N <= n -> K <= N -> stirling2 N K <= B) ->
    (forall i, i < S n - k -> nth i xs fzero = fone) ->
    bell_poly k n xs = of_nat (stirling2 n k).
Proof.
  induction k as [|k' IH]; intros n xs Hc Hs Hxs.
  - destruct n; reflexivity.
  - destruct n as [|N]; [reflexivity|].
    assert (H1 : 1 <= B) by exact (Hs 0 0 ltac:(lia) ltac:(lia)).
    assert (Hs' : forall N' K, N' <= S N -> stirling2 N' K <= B).
    { intros N' K HN'. destruct (Nat.le_gt_cases K N') as [HK|HK].
      - now apply Hs.
      - rewrite stirling2_gt by exact HK. lia. }
    cbn [bell_poly Nat.eqb].
    set (h := fun j => choose N j * stirling2 (N - j) k').
    assert (Hsum : sum_upto (S (S N) - S k') h = stirling2 (S N) (S k')).
    { destruct (Nat.le_gt_cases k' N) as [Hle|Hgt].
      - rewrite <- stirling2_binomial. symmetry.
        apply sum_upto_zero_tail; [lia|].
        intros j Hj Hj'. unfold h. rewrite stirling2_gt by lia. lia.
      - replace (S (S N) - S k') with 0 by lia.
        rewrite stirling2_gt by lia. reflexivity. }
    change (@fzero F _) with (of_nat 0).
    rewrite (fold_fadd_exact B exact _ (fun m => h (m - 1))).
    + rewrite list_sum_sum_upto, Hsum. reflexivity.
    + intros m Hm. apply in_seq in Hm. destruct m as [|j]; [lia|].
      cbn [Nat.sub]. rewrite !Nat.sub_0_r.
      rewrite Hxs by lia.
      rewrite IH;
        [ | intros N' j' HN' Hj; apply Hc; lia
          | intros N' K HN' HK; apply Hs; lia
          | intros i Hi; apply Hxs; lia ].
      change (@fone F _) with (of_nat 1).
      assert (Hterm : h j <= B).
      { etransitivity; [|apply (Hs' (S N) (S k')); lia].
        rewrite <- stirling2_binomial.
        apply (sum_upto_term h (S N) j). lia. }
      unfold h in *.
      rewrite (bell_term_exact B exact 1 N j);
        [f_equal; lia | lia | apply Hc; lia | | apply Hs'; lia | lia].
      rewrite Nat.mul_1_l. apply Hc; lia.
    + rewrite list_sum_sum_upto, Hsum. cbn [Nat.add]. apply Hs'. lia.
Qed.

End StirlingNumbers.

(** X24: for [k > n], [incomplete_bell_poly] returns zeros, whatever the
    array holds, also without any column: the loop is not entered and no
    arithmetic is done. *)
Theorem incomplete_bell_poly_above_diagonal {F : Type} `{Float F}
        (n k : nat) (x : array2 F) :
  n < k ->
  incomplete_bell_poly n k x = Ok (repeat fzero (length (rows x))).
Proof.
  intros Hk. destruct k as [|k']; [lia|].
  cbn [incomplete_bell_poly]. destruct (n =? 0); [reflexivity|].
  replace (S n - S k') with 0 by lia. reflexivity.
Qed.

Lemma incomplete_bell_poly_above_diagonal_witness :
  incomplete_bell_poly 2 3 {| shape1 := 0; rows := [[]; []] |} =
  Ok [0; 0]%Z.
Proof.
  assert (Hk : 2 < 3) by lia.
  exact (@incomplete_bell_poly_above_diagonal Z Z_Float 2 3
           {| shape1 := 0; rows := [[]; []] |} Hk).
Defined.

(** X25: let sums, products and binomial coefficients of natural numbers
    be exact as long as they are at most [B], and let [B] bound the
    binomial coefficients [C(N, j)] with [N < n] and the Stirling numbers
    [S(N, K)] with [N <= n].  On an array with a column for every
    argument that is read, all of them 1, [incomplete_bell_poly] returns
    in every row the float of the Stirling number of the second kind
    [S(n, k)], the number of partitions of [n] elements into [k]
    blocks. *)
Theorem incomplete_bell_poly_stirling {F : Type} `{Float F}
        (B n k : nat) (x : array2 F) :
  exact_up_to B ->
  (forall N j, N < n -> j <= N -> choose N j <= B) ->
  (forall N K, N <= n -> K <= N -> stirling2 N K <= B) ->
  (1 <= k -> 1 <= n -> S n - k <= shape1 x) ->
  Forall (fun r => forall i, i < S n - k -> nth i r fzero = fone) (rows x) ->
  incomplete_bell_poly n k x =
  Ok (repeat (of_nat (stirling2 n k)) (length (rows x))).
Proof.
  intros Hexact Hc Hs Hcols Hones.
  rewrite incomplete_bell_poly_rowwise by exact Hcols. f_equal.
  rewrite repeat_map_const. apply map_ext_in. intros r Hr.
  apply (bell_poly_ones B Hexact); try assumption.
  rewrite Forall_forall in Hones. now apply Hones.
Qed.

Lemma incomplete_bell_poly_stirling_witness :
  incomplete_bell_poly 4 2
    {| shape1 := 3; rows := [[1; 1; 1]; [1; 1; 1]]%Z |} = Ok [7; 7]%Z.
Proof.
  assert (Hc : forall N j, N < 4 -> j <= N -> choose N j <= 100).
  { intros [|[|[|[|N]]]] [|[|[|[|j]]]] HN Hj; cbn; lia. }
  assert (Hs : forall N K, N <= 4 -> K <= N -> stirling2 N K <= 100).
  { intros [|[|[|[|[|N]]]]] [|[|[|[|[|K]]]]] HN HK; cbn; lia. }
  assert (Hcols : 1 <= 2 -> 1 <= 4 ->
                  S 4 - 2 <= shape1 {| shape1 := 3;
                                       rows := [[1; 1; 1]; [1; 1; 1]]%Z |})
    by (simpl; lia).
  assert (Hones : Forall (fun r => forall i, i < S 4 - 2 -> nth i r 0%Z = 1%Z)
                         (rows {| shape1 := 3;
                                  rows := [[1; 1; 1]; [1; 1; 1]]%Z |})).
  { apply Forall_cons; [|apply Forall_cons; [|apply Forall_nil]];
      intros [|[|[|i]]] Hi; simpl in *; lia. }
  exact (@incomplete_bell_poly_stirling Z Z_Float 100 4 2 _
           (Z_Float_exact 100) Hc Hs Hcols Hones).
Defined.
